(** * Verdant / lo-fi synchronisation authority: a shallow embedding

    The development follows [ServerLibrary] (the per-library authority of the
    sync server), the client-side superseding of pending operations and the
    object-identifier allocator.  JavaScript strings are sequences of UTF-16
    code units and are compared code unit by code unit; they are modelled as
    lists of [N] under the lexicographic order. *)

From Stdlib Require Import List NArith ZArith Bool Arith Lia String Ascii.
From Stdlib Require Import Sorted Permutation Orders Mergesort.
Import ListNotations.

Set Implicit Arguments.

(* ================================================================== *)
(** * JavaScript strings *)
(* ================================================================== *)

Module JsString.

(** A string is its sequence of UTF-16 code units. *)
Definition jsstring := list N.

(** [a < b], [a > b], [a <= b] and [a === b] on JavaScript strings. *)
Definition compare (a b : jsstring) : comparison := list_compare N.compare a b.

Definition ltb (a b : jsstring) : bool :=
  match compare a b with Lt => true | _ => false end.

Definition leb (a b : jsstring) : bool :=
  match compare a b with Gt => false | _ => true end.

Definition eqb (a b : jsstring) : bool :=
  match compare a b with Eq => true | _ => false end.

(** An ASCII literal as a JavaScript string. *)
Fixpoint js (s : string) : jsstring :=
  match s with
  | EmptyString => []
  | String c s' => N_of_ascii c :: js s'
  end.

(** Truthiness of a string value: only the empty string is falsy. *)
Definition truthy (s : jsstring) : bool :=
  match s with [] => false | _ :: _ => true end.

(** [xs.join(sep)]. *)
Fixpoint join (sep : jsstring) (xs : list jsstring) : jsstring :=
  match xs with
  | [] => []
  | [x] => x
  | x :: rest => x ++ sep ++ join sep rest
  end.

Lemma N_compare_opp : forall x y : N, N.compare y x = CompOpp (N.compare x y).
Proof. intros x y. apply N.compare_antisym. Qed.

Lemma N_compare_trans :
  forall (x y z : N) (c : comparison),
    N.compare x y = c -> N.compare y z = c -> N.compare x z = c.
Proof.
  intros x y z c Hxy Hyz. destruct c.
  - apply N.compare_eq_iff in Hxy, Hyz. subst. apply N.compare_refl.
  - rewrite N.compare_lt_iff in *. lia.
  - rewrite N.compare_gt_iff in *. lia.
Qed.

Lemma compare_eq_iff : forall a b, compare a b = Eq <-> a = b.
Proof. intros a b. apply list_compare_refl. apply N.compare_eq_iff. Qed.

Lemma compare_refl : forall a, compare a a = Eq.
Proof. intros a. now apply compare_eq_iff. Qed.

Lemma compare_antisym : forall a b, compare b a = CompOpp (compare a b).
Proof.
  intros a b. apply list_compare_antisym.
  - apply N.compare_eq_iff.
  - apply N_compare_opp.
Qed.

Lemma compare_trans :
  forall a b c r, compare a b = r -> compare b c = r -> compare a c = r.
Proof.
  intros a b c r. apply list_compare_trans.
  - apply N.compare_eq_iff.
  - apply N_compare_trans.
  - apply N_compare_opp.
Qed.

Lemma compare_app : forall p a b, compare (p ++ a) (p ++ b) = compare a b.
Proof. intros p a b. apply list_compare_app. apply N.compare_eq_iff. Qed.

Lemma eqb_eq : forall a b, eqb a b = true <-> a = b.
Proof.
  intros a b. unfold eqb. rewrite <- compare_eq_iff.
  destruct (compare a b); split; congruence.
Qed.

Lemma eqb_refl : forall a, eqb a a = true.
Proof. intros a. now apply eqb_eq. Qed.

Lemma eqb_neq : forall a b, eqb a b = false <-> a <> b.
Proof.
  intros a b. rewrite <- eqb_eq. destruct (eqb a b); split; congruence.
Qed.

Lemma eqb_sym : forall a b, eqb a b = eqb b a.
Proof.
  intros a b. destruct (eqb a b) eqn:E.
  - apply eqb_eq in E. subst. symmetry. apply eqb_refl.
  - symmetry. apply eqb_neq. apply eqb_neq in E. congruence.
Qed.

Lemma ltb_irrefl : forall a, ltb a a = false.
Proof. intros a. unfold ltb. now rewrite compare_refl. Qed.

Lemma ltb_trans : forall a b c, ltb a b = true -> ltb b c = true -> ltb a c = true.
Proof.
  unfold ltb. intros a b c Hab Hbc.
  destruct (compare a b) eqn:E1; try discriminate.
  destruct (compare b c) eqn:E2; try discriminate.
  now rewrite (compare_trans _ _ _ E1 E2).
Qed.

Lemma leb_refl : forall a, leb a a = true.
Proof. intros a. unfold leb. now rewrite compare_refl. Qed.

Lemma leb_total_js : forall a b, leb a b = true \/ leb b a = true.
Proof.
  intros a b. unfold leb. rewrite (compare_antisym a b).
  destruct (compare a b); simpl; auto.
Qed.

Lemma leb_trans : forall a b c, leb a b = true -> leb b c = true -> leb a c = true.
Proof.
  unfold leb. intros a b c Hab Hbc.
  destruct (compare a c) eqn:Eac; auto.
  destruct (compare a b) eqn:Eab; try discriminate;
    destruct (compare b c) eqn:Ebc; try discriminate.
  - apply compare_eq_iff in Eab, Ebc. subst. rewrite compare_refl in Eac. discriminate.
  - apply compare_eq_iff in Eab. subst. congruence.
  - apply compare_eq_iff in Ebc. subst. congruence.
  - rewrite (compare_trans _ _ _ Eab Ebc) in Eac. discriminate.
Qed.

Lemma leb_antisym : forall a b, leb a b = true -> leb b a = true -> a = b.
Proof.
  unfold leb. intros a b Hab Hba. rewrite (compare_antisym a b) in Hba.
  destruct (compare a b) eqn:E; simpl in *; try discriminate.
  now apply compare_eq_iff.
Qed.

Lemma ltb_leb : forall a b, ltb a b = true -> leb a b = true.
Proof. unfold ltb, leb. intros a b. destruct (compare a b); congruence. Qed.

Lemma ltb_nleb : forall a b, ltb a b = negb (leb b a).
Proof.
  intros a b. unfold ltb, leb. rewrite (compare_antisym a b).
  destruct (compare a b); reflexivity.
Qed.

Lemma leb_lt_or_eq : forall a b, leb a b = true <-> ltb a b = true \/ a = b.
Proof.
  intros a b. unfold leb, ltb. rewrite <- compare_eq_iff.
  destruct (compare a b); split; intros H; auto; try discriminate.
  destruct H; discriminate.
Qed.

(** A string is below or equal to each of its extensions. *)
Lemma leb_app_r : forall a t, leb a (a ++ t) = true.
Proof.
  intros a t. unfold leb.
  rewrite <- (app_nil_r a) at 1. rewrite compare_app.
  destruct t; reflexivity.
Qed.

(** The greatest of two strings, as [a > b ? a : b] computes it. *)
Definition max (a b : jsstring) : jsstring := if ltb b a then a else b.

Lemma max_ge_l : forall a b, leb a (max a b) = true.
Proof.
  intros a b. unfold max. destruct (ltb b a) eqn:E.
  - apply leb_refl.
  - rewrite ltb_nleb in E. now apply negb_false_iff in E.
Qed.

Lemma max_ge_r : forall a b, leb b (max a b) = true.
Proof.
  intros a b. unfold max. destruct (ltb b a) eqn:E.
  - now apply ltb_leb.
  - apply leb_refl.
Qed.

End JsString.

Import JsString.

(* ================================================================== *)
(** * Object identifiers *)
(* ================================================================== *)

Module Oids.

(** [type ObjectIdentifier = string]. *)
Abbreviation ObjectIdentifier := jsstring (only parsing).

(** Documents are heterogeneous JSON values. *)
#[local] Unset Elimination Schemes.
Inductive json : Type :=
| JNull : json
| JBool : bool -> json
| JNum : Z -> json
| JStr : jsstring -> json
| JObj : list (jsstring * json) -> json
| JArr : list json -> json.
#[local] Set Elimination Schemes.

Definition isObjectLike (v : json) : bool :=
  match v with
  | JObj _ | JArr _ => true
  | _ => false
  end.

(** Modelled from the spec: oids.ts is not under src (only oids.test.ts is).
    A document root is [<collection>/<rootId>]. *)
Definition createOid (collection id : jsstring) : ObjectIdentifier :=
  collection ++ js "/" ++ id.

(** Modelled from the spec: oids.ts is not under src.  A nested object is
    [<root>.<fieldPath>:<localId>], the field path joined with dots. *)
Definition createSubOid (root : ObjectIdentifier) (keyPath : list jsstring)
           (subId : jsstring) : ObjectIdentifier :=
  root ++ js "." ++ join (js ".") keyPath ++ js ":" ++ subId.

(** Modelled from the spec: oids.ts is not under src.  The range of a
    document is the pair [(oid, oid + ":\uFFFF")], as oids.test.ts expects. *)
Definition getOidRange (oid : ObjectIdentifier) : ObjectIdentifier * ObjectIdentifier :=
  (oid, oid ++ js ":" ++ [65535%N]).

(** [isWithin] of oids.test.ts: [oid >= start && oid <= end]. *)
Definition isWithin (oid start end_ : ObjectIdentifier) : bool :=
  leb start oid && leb oid end_.

(** Modelled from the spec: oids.ts is not under src.  The walk of
    [assignOidsToAllSubObjects], reconstructed from oids.test.ts: every
    nested object or array gets an identifier, parents before children and
    children in key order; array items contribute the path segment [#];
    [createSubId] is called once per identifier, the [i]-th call returning
    [createSubId i].  The result lists the identifiers in allocation order,
    with the number of calls made so far. *)
Fixpoint assignSubOids (root : ObjectIdentifier) (createSubId : nat -> jsstring)
         (keyPath : list jsstring) (v : json) (i : nat) {struct v}
  : list ObjectIdentifier * nat :=
  match v with
  | JObj fields =>
      (fix fieldsLoop (fs : list (jsstring * json)) (i : nat)
         : list ObjectIdentifier * nat :=
         match fs with
         | [] => ([], i)
         | (k, c) :: fs' =>
             let p := keyPath ++ [k] in
             let '(here, i1) :=
               if isObjectLike c
               then let '(below, j) := assignSubOids root createSubId p c (S i) in
                    (createSubOid root p (createSubId i) :: below, j)
               else ([], i) in
             let '(rest, i2) := fieldsLoop fs' i1 in
             (here ++ rest, i2)
         end) fields i
  | JArr items =>
      (fix itemsLoop (cs : list json) (i : nat) : list ObjectIdentifier * nat :=
         match cs with
         | [] => ([], i)
         | c :: cs' =>
             let p := keyPath ++ [js "#"] in
             let '(here, i1) :=
               if isObjectLike c
               then let '(below, j) := assignSubOids root createSubId p c (S i) in
                    (createSubOid root p (createSubId i) :: below, j)
               else ([], i) in
             let '(rest, i2) := itemsLoop cs' i1 in
             (here ++ rest, i2)
         end) items i
  | _ => ([], i)
  end.

Definition assignOidsToAllSubObjects (root : ObjectIdentifier)
           (createSubId : nat -> jsstring) (obj : json) : list ObjectIdentifier :=
  fst (assignSubOids root createSubId [] obj 0).

(** [r] is a prefix of [s]. *)
Definition isPrefixOf (r s : jsstring) : Prop := exists t, s = r ++ t.

(** The data of oids.test.ts. *)
Definition test_initial : json :=
  JObj [ (js "foo", JObj [ (js "bar", JNum 1); (js "baz", JArr [JNum 2; JNum 3]) ]);
         (js "qux", JArr [ JObj [ (js "corge", JBool true) ];
                           JObj [ (js "grault", JObj [ (js "garply", JNum 4) ]) ] ]) ].

Definition test_createSubId (i : nat) : jsstring := [N.of_nat (48 + i)].

End Oids.

Import Oids.

(* ================================================================== *)
(** * Operations and baselines *)
(* ================================================================== *)

(** Timestamps are strings, ordered as strings. *)
Abbreviation Timestamp := jsstring (only parsing).

(** The payload of an operation ([data], discriminated by [op]). *)
Inductive OperationPatch : Type :=
| OpInitialize (value : json)
| OpSet (name : jsstring) (value : json)
| OpDelete (name : jsstring)
| OpListInsert (index : nat) (value : json)
| OpListMove (from to : nat)
| OpListDelete (index : nat).

(** [Operation]: [{ oid, timestamp, data }]. *)
Record Operation : Type := mkOperation {
  op_oid : ObjectIdentifier;
  op_timestamp : Timestamp;
  op_data : OperationPatch
}.

(** [OperationHistoryItem]: a stored operation, with the replica it came from. *)
Record OperationHistoryItem : Type := mkItem {
  oid : ObjectIdentifier;
  timestamp : Timestamp;
  data : OperationPatch;
  replicaId : jsstring
}.

(** [DocumentBaseline]: [{ oid, snapshot, timestamp }]. *)
Record DocumentBaseline : Type := mkBaseline {
  b_oid : ObjectIdentifier;
  b_snapshot : json;
  b_timestamp : Timestamp
}.

(* ================================================================== *)
(** * Client-side superseding of pending operations *)
(* ================================================================== *)

Module Superseding.

(** Modelled from the spec: the client's operation batcher is not under src
    (only superseding.test.ts is).  [supersedes later earlier]: both target
    the same object, and a [set] replaces an earlier [set] of the field, a
    [delete] an earlier [set] or [delete] of the field, an [initialize]
    every earlier operation; list operations replace nothing. *)
Definition supersedes (later earlier : Operation) : bool :=
  eqb (op_oid later) (op_oid earlier) &&
  match op_data later with
  | OpSet f _ =>
      match op_data earlier with
      | OpSet g _ => eqb f g
      | _ => false
      end
  | OpDelete f =>
      match op_data earlier with
      | OpSet g _ | OpDelete g => eqb f g
      | _ => false
      end
  | OpInitialize _ => true
  | _ => false
  end.

(** Modelled from the spec: adding an operation to the unsent buffer drops
    the operations it supersedes and keeps the new one. *)
Definition addOperation (buffer : list Operation) (op : Operation) : list Operation :=
  filter (fun earlier => negb (supersedes op earlier)) buffer ++ [op].

(** Modelled from the spec: the operations a batch leaves for sending. *)
Definition commitBatch (batch : list Operation) : list Operation :=
  fold_left addOperation batch [].

(** The operation writes or deletes field [f] of object [o]. *)
Definition targets (o : ObjectIdentifier) (f : jsstring) (op : Operation) : bool :=
  eqb (op_oid op) o &&
  match op_data op with
  | OpSet g _ | OpDelete g => eqb g f
  | _ => false
  end.

Definition isSet (op : Operation) : bool :=
  match op_data op with OpSet _ _ => true | _ => false end.

Definition isInitializeOf (o : ObjectIdentifier) (op : Operation) : bool :=
  eqb (op_oid op) o &&
  match op_data op with OpInitialize _ => true | _ => false end.

(** The outbound operations for the pair [(o, f)]. *)
Definition outboundFor (o : ObjectIdentifier) (f : jsstring)
           (batch : list Operation) : list Operation :=
  filter (targets o f) (commitBatch batch).

(** The batches of superseding.test.ts, with timestamps [t0], [t1], ... *)
Definition test_ts (i : nat) : Timestamp := js "t" ++ [N.of_nat (48 + i / 10); N.of_nat (48 + i mod 10)].

Definition test_apples (item : ObjectIdentifier) : list Operation :=
  map (fun i => mkOperation item (test_ts i)
                  (OpSet (js "content") (JStr ([N.of_nat (48 + i)] ++ js " apples"))))
      (seq 0 10).

Definition test_mixed (item : ObjectIdentifier) : list Operation :=
  [ mkOperation item (test_ts 10) (OpSet (js "purchased") (JBool true)) ]
  ++ map (fun i => mkOperation item (test_ts (11 + i))
                     (OpSet (js "categoryId") (JStr [N.of_nat (48 + i)])))
         (seq 0 10)
  ++ [ mkOperation item (test_ts 21) (OpDelete (js "categoryId")) ].

End Superseding.

Import Superseding.

(* ================================================================== *)
(** * The authority's tables *)
(* ================================================================== *)

(** Stored operations ordered by timestamp. *)
Module ByTimestamp <: TotalLeBool.
Definition t := OperationHistoryItem.
Definition leb (a b : t) : bool := JsString.leb (timestamp a) (timestamp b).
Theorem leb_total : forall a b, leb a b = true \/ leb b a = true.
Proof. intros a b. apply JsString.leb_total_js. Qed.
End ByTimestamp.

Module TimestampSort := Sort ByTimestamp.

Module OperationHistory.

(** The primary key of the [operations] table is [(oid, timestamp)]. *)
Definition sameKey (o : ObjectIdentifier) (ts : Timestamp)
           (item : OperationHistoryItem) : bool :=
  eqb (oid item) o && eqb (timestamp item) ts.

Definition hasKey (o : ObjectIdentifier) (ts : Timestamp)
           (log : list OperationHistoryItem) : bool :=
  existsb (sameKey o ts) log.

(** Modelled from the spec: OperationHistory.ts is not under src.
    [insertAll(replicaId, ops)] is idempotent on [(oid, timestamp)]: an
    operation whose key is already stored is ignored. *)
Definition insert (replica : jsstring) (log : list OperationHistoryItem)
           (op : Operation) : list OperationHistoryItem :=
  if hasKey (op_oid op) (op_timestamp op) log then log
  else log ++ [mkItem (op_oid op) (op_timestamp op) (op_data op) replica].

Definition insertAll (replica : jsstring) (ops : list Operation)
           (log : list OperationHistoryItem) : list OperationHistoryItem :=
  fold_left (insert replica) ops log.

(** Modelled from the spec: [getAfter(timestamp | null)] returns the
    operations strictly after the argument, or all of them for null, by
    ascending timestamp. *)
Definition getAfter (since : option Timestamp) (log : list OperationHistoryItem)
  : list OperationHistoryItem :=
  TimestampSort.sort
    (match since with
     | None => log
     | Some ts => filter (fun item => ltb ts (timestamp item)) log
     end).

(** Modelled from the spec: [getBefore(timestamp)] returns the operations
    with [timestamp < argument], by ascending timestamp. *)
Definition getBefore (before : Timestamp) (log : list OperationHistoryItem)
  : list OperationHistoryItem :=
  TimestampSort.sort (filter (fun item => ltb (timestamp item) before) log).

(** Modelled from the spec: [dropAll(ops)] removes exactly the given
    operations, found by their key. *)
Definition dropAll (ops : list OperationHistoryItem)
           (log : list OperationHistoryItem) : list OperationHistoryItem :=
  filter (fun item => negb (hasKey (oid item) (timestamp item) ops)) log.

End OperationHistory.

Module Baselines.

(** Modelled from the spec: the result of applying no operation at all is
    the empty object. *)
Definition emptySnapshot : json := JObj [].

(** Modelled from the spec: Baselines.ts is not under src.  [get(oid)]. *)
Definition get (o : ObjectIdentifier) (table : list DocumentBaseline)
  : option DocumentBaseline :=
  find (fun b => eqb (b_oid b) o) table.

(** Modelled from the spec: [upsert(baseline)]; there is at most one
    baseline per object. *)
Fixpoint upsert (b : DocumentBaseline) (table : list DocumentBaseline)
  : list DocumentBaseline :=
  match table with
  | [] => [b]
  | b' :: rest =>
      if eqb (b_oid b') (b_oid b) then b :: rest else b' :: upsert b rest
  end.

Definition insertAll (bs : list DocumentBaseline) (table : list DocumentBaseline)
  : list DocumentBaseline :=
  fold_left (fun acc b => upsert b acc) bs table.

(** Modelled from the spec: [getAllAfter(timestamp | null)]. *)
Definition getAllAfter (since : option Timestamp) (table : list DocumentBaseline)
  : list DocumentBaseline :=
  match since with
  | None => table
  | Some ts => filter (fun b => ltb ts (b_timestamp b)) table
  end.

(** The snapshot an object's operations are applied to. *)
Definition priorSnapshot (o : ObjectIdentifier) (table : list DocumentBaseline) : json :=
  match get o table with
  | Some b => b_snapshot b
  | None => emptySnapshot
  end.

(** Modelled from the spec: [applyOperations(oid, ops)] applies [ops], in
    the order given, to the existing baseline (or to the empty object) and
    writes a baseline whose timestamp is the greatest operation timestamp.
    [applyPatch] is the patch function of the common package. *)
Definition applyOperations (applyPatch : json -> OperationPatch -> json)
           (o : ObjectIdentifier) (ops : list OperationHistoryItem)
           (table : list DocumentBaseline) : list DocumentBaseline :=
  match ops with
  | [] => table
  | first :: rest =>
      upsert
        (mkBaseline o
           (fold_left applyPatch (map data ops) (priorSnapshot o table))
           (fold_left JsString.max (map timestamp rest) (timestamp first)))
        table
  end.

End Baselines.

Inductive ReplicaType : Type :=
| Realtime | Push | Pull | ReadOnlyRealtime | ReadOnlyPull.

(** [TokenInfo]: the verified identity of the sender. *)
Record TokenInfo : Type := mkToken {
  userId : jsstring;
  tokenType : ReplicaType
}.

(** [ReplicaInfo], a row of the [replicas] table. *)
Record ReplicaInfo : Type := mkReplica {
  id : jsstring;
  clientId : jsstring;
  type : ReplicaType;
  ackedLogicalTime : option Timestamp;
  lastSeen : Z
}.

Inductive ReplicaStatus : Type := StatusNew | StatusExisting | StatusTruant.

Module ReplicaInfos.

(** The read-only replica types, as [hasWriteAccess] lists them. *)
Definition isReadOnly (t : ReplicaType) : bool :=
  match t with
  | ReadOnlyPull | ReadOnlyRealtime => true
  | _ => false
  end.

(** Modelled from the spec: Replicas.ts is not under src.  A replica is
    truant when [now - lastSeen] exceeds the threshold (in minutes). *)
Definition isTruant (truancyMinutes now : Z) (r : ReplicaInfo) : bool :=
  (truancyMinutes * 60000 <? now - lastSeen r)%Z.

(** Modelled from the spec: [get(replicaId)]. *)
Definition get (replica : jsstring) (table : list ReplicaInfo) : option ReplicaInfo :=
  find (fun r => eqb (id r) replica) table.

(** Modelled from the spec: [getOrCreate(replicaId, tokenInfo)] returns
    [new] after creating the row, [truant] or [existing] otherwise. *)
Definition getOrCreate (truancyMinutes now : Z) (replica : jsstring)
           (info : TokenInfo) (table : list ReplicaInfo)
  : (ReplicaStatus * ReplicaInfo) * list ReplicaInfo :=
  match get replica table with
  | None =>
      let r := mkReplica replica (userId info) (tokenType info) None now in
      ((StatusNew, r), table ++ [r])
  | Some r =>
      if isTruant truancyMinutes now r
      then ((StatusTruant, r), table)
      else ((StatusExisting, r), table)
  end.

(** Modelled from the spec: the row after an acknowledgement of [ts]. *)
Definition acknowledge (ts : Timestamp) (r : ReplicaInfo) : ReplicaInfo :=
  mkReplica (id r) (clientId r) (type r)
            (Some (match ackedLogicalTime r with
                   | None => ts
                   | Some current => JsString.max current ts
                   end))
            (lastSeen r).

(** Modelled from the spec: [updateAcknowledged(replicaId, timestamp)] sets
    [ackedTimestamp = max(current, timestamp)]. *)
Definition updateAcknowledged (replica : jsstring) (ts : Timestamp)
           (table : list ReplicaInfo) : list ReplicaInfo :=
  map (fun r => if eqb (id r) replica then acknowledge ts r else r) table.

(** Modelled from the spec: [updateLastSeen(replicaId)]. *)
Definition updateLastSeen (now : Z) (replica : jsstring)
           (table : list ReplicaInfo) : list ReplicaInfo :=
  map (fun r => if eqb (id r) replica
                then mkReplica (id r) (clientId r) (type r) (ackedLogicalTime r) now
                else r) table.

(** Modelled from the spec: [delete(replicaId)]. *)
Definition delete (replica : jsstring) (table : list ReplicaInfo) : list ReplicaInfo :=
  filter (fun r => negb (eqb (id r) replica)) table.

(** Modelled from the spec: the replicas whose acknowledgement gates
    compaction are those neither truant nor read-only, and those named in
    [activeOverride] whatever their state. *)
Definition qualifies (truancyMinutes now : Z) (activeOverride : list jsstring)
           (r : ReplicaInfo) : bool :=
  existsb (eqb (id r)) activeOverride
  || (negb (isTruant truancyMinutes now r) && negb (isReadOnly (type r))).

(** The least of two timestamps. *)
Definition min (a b : Timestamp) : Timestamp := if ltb b a then b else a.

(** Modelled from the spec: the least of the acknowledgements, null when one
    of them is null or when there is none. *)
Fixpoint minAcked (acks : list (option Timestamp)) : option Timestamp :=
  match acks with
  | [] => None
  | [a] => a
  | a :: rest =>
      match a, minAcked rest with
      | Some x, Some y => Some (min x y)
      | _, _ => None
      end
  end.

(** Modelled from the spec: [getGlobalAck(activeOverride?)] is the minimum
    [ackedTimestamp] over the qualifying replicas, null if one of them has
    never acknowledged anything. *)
Definition getGlobalAck (truancyMinutes now : Z) (activeOverride : list jsstring)
           (table : list ReplicaInfo) : option Timestamp :=
  minAcked (map ackedLogicalTime
                (filter (qualifies truancyMinutes now activeOverride) table)).

End ReplicaInfos.

(* ================================================================== *)
(** * ServerLibrary: the authority of one library *)
(* ================================================================== *)

(** [UserInfo], an entry of the in-memory presence map. *)
Record UserInfo : Type := mkUserInfo {
  ui_presence : json;
  ui_replicaId : jsstring;
  ui_profile : json;
  ui_id : jsstring
}.

Inductive ClientMessage : Type :=
| MsgOp (replica : jsstring) (operations : list Operation)
| MsgSync (replica : jsstring) (resyncAll : option bool)
| MsgSyncStep2 (replica : jsstring) (operations : list Operation)
               (baselines : list DocumentBaseline) (ts : Timestamp)
| MsgAck (replica : jsstring) (ts : Timestamp)
| MsgHeartbeat (replica : jsstring)
| MsgPresenceUpdate (replica : jsstring) (presence : json)
| MsgUnknown (replica : jsstring).

Definition message_replicaId (m : ClientMessage) : jsstring :=
  match m with
  | MsgOp r _ | MsgSync r _ | MsgSyncStep2 r _ _ _ | MsgAck r _
  | MsgHeartbeat r | MsgPresenceUpdate r _ | MsgUnknown r => r
  end.

Record SyncResponse : Type := mkSyncResponse {
  sr_operations : list Operation;
  sr_baselines : list DocumentBaseline;
  provideChangesSince : option Timestamp;
  sr_globalAckTimestamp : option Timestamp;
  peerPresence : list (jsstring * UserInfo);
  overwriteLocalData : bool
}.

Inductive ServerMessage : Type :=
| Forbidden
| OpRe (operations : list Operation) (baselines : list DocumentBaseline)
       (replica : jsstring) (globalAckTimestamp : option Timestamp)
| SyncResp (response : SyncResponse)
| GlobalAck (ts : Timestamp)
| HeartbeatResponse
| PresenceChanged (replica : jsstring) (userInfo : UserInfo)
| PresenceOffline (replica : jsstring) (user : jsstring).

(** What the [MessageSender] was asked to deliver. *)
Inductive Delivery : Type :=
| Send (clientKey : jsstring) (message : ServerMessage)
| Broadcast (message : ServerMessage) (omitKeys : list jsstring).

(** Callbacks registered with [setTimeout] that have not run yet. *)
Inductive Timeout : Type := RebaseTimeout.

(** The statements that write to the database. *)
Inductive StorageCall : Type :=
| ReplicasDelete
| ReplicasGetOrCreate
| ReplicasUpdateAcknowledged
| ReplicasUpdateLastSeen
| OperationsInsertAll
| OperationsDropAll
| BaselinesInsertAll
| BaselinesApplyOperations.

Inductive Error : Type :=
| ReplicaAccessError (replica user : jsstring)
| StorageError (call : StorageCall).

(** What surrounds the library object: the patch function of the common
    package, the profile loader, the truancy threshold, the wall clock read
    while a message is handled, and the database statements that raise an
    I/O error. *)
Record Env : Type := mkEnv {
  applyPatch : json -> OperationPatch -> json;
  profiles : jsstring -> json;
  replicaTruancyMinutes : Z;
  now : Z;
  fails : StorageCall -> bool
}.

(** The fields of [ServerLibrary], the three tables of its database, the
    deliveries requested from its sender and the pending timeouts. *)
Record ServerLibrary : Type := mkLibrary {
  replicas : list ReplicaInfo;
  operations : list OperationHistoryItem;
  baselines : list DocumentBaseline;
  presences : list (jsstring * UserInfo);
  sent : list Delivery;
  pendingRebaseTimeout : option Timeout;
  timeouts : list Timeout
}.

Module Lib.

(** ** Handlers as state transformers that may throw *)

Inductive Outcome (A : Type) : Type :=
| Ok (a : A)
| Thrown (e : Error).
Arguments Ok {A} a.
Arguments Thrown {A} e.

Definition M (A : Type) : Type := ServerLibrary -> Outcome A * ServerLibrary.

Definition ret {A} (a : A) : M A := fun s => (Ok a, s).

Definition bind {A B} (m : M A) (k : A -> M B) : M B :=
  fun s =>
    match m s with
    | (Ok a, s') => k a s'
    | (Thrown e, s') => (Thrown e, s')
    end.

Definition throw {A} (e : Error) : M A := fun s => (Thrown e, s).

Definition gets {A} (f : ServerLibrary -> A) : M A := fun s => (Ok (f s), s).

Definition modify (f : ServerLibrary -> ServerLibrary) : M unit :=
  fun s => (Ok tt, f s).

Declare Scope lib_scope.
Delimit Scope lib_scope with lib.
Notation "x <- m ;; k" := (bind m (fun x => k))
  (at level 61, m at next level, right associativity) : lib_scope.
Notation "m ;; k" := (bind m (fun _ => k))
  (at level 61, right associativity) : lib_scope.
Local Open Scope lib_scope.

Fixpoint forEach {A} (f : A -> M unit) (l : list A) : M unit :=
  match l with
  | [] => ret tt
  | x :: rest => f x ;; forEach f rest
  end.

Definition set_replicas (f : list ReplicaInfo -> list ReplicaInfo)
           (s : ServerLibrary) : ServerLibrary :=
  mkLibrary (f (replicas s)) (operations s) (baselines s) (presences s)
            (sent s) (pendingRebaseTimeout s) (timeouts s).

Definition set_operations (f : list OperationHistoryItem -> list OperationHistoryItem)
           (s : ServerLibrary) : ServerLibrary :=
  mkLibrary (replicas s) (f (operations s)) (baselines s) (presences s)
            (sent s) (pendingRebaseTimeout s) (timeouts s).

Definition set_baselines (f : list DocumentBaseline -> list DocumentBaseline)
           (s : ServerLibrary) : ServerLibrary :=
  mkLibrary (replicas s) (operations s) (f (baselines s)) (presences s)
            (sent s) (pendingRebaseTimeout s) (timeouts s).

Definition set_presences (f : list (jsstring * UserInfo) -> list (jsstring * UserInfo))
           (s : ServerLibrary) : ServerLibrary :=
  mkLibrary (replicas s) (operations s) (baselines s) (f (presences s))
            (sent s) (pendingRebaseTimeout s) (timeouts s).

Definition deliver (d : Delivery) (s : ServerLibrary) : ServerLibrary :=
  mkLibrary (replicas s) (operations s) (baselines s) (presences s)
            (sent s ++ [d]) (pendingRebaseTimeout s) (timeouts s).

Definition setTimeout (t : Timeout) (s : ServerLibrary) : ServerLibrary :=
  mkLibrary (replicas s) (operations s) (baselines s) (presences s)
            (sent s) (pendingRebaseTimeout s) (timeouts s ++ [t]).

(** A statement that writes to the database: it raises, changing nothing,
    when the environment makes it fail. *)
Definition storage (env : Env) (call : StorageCall)
           (write : ServerLibrary -> ServerLibrary) : M unit :=
  fun s => if fails env call then (Thrown (StorageError call), s)
           else (Ok tt, write s).

(** [db.transaction(body)()]: the tables are restored when [body] throws. *)
Definition transaction {A} (body : M A) : M A :=
  fun s =>
    match body s with
    | (Ok a, s') => (Ok a, s')
    | (Thrown e, s') =>
        (Thrown e,
         mkLibrary (replicas s) (operations s) (baselines s) (presences s')
                   (sent s') (pendingRebaseTimeout s') (timeouts s'))
    end.

(** [sender.send] and [sender.broadcast]. *)
Definition send (clientKey : jsstring) (m : ServerMessage) : M unit :=
  modify (deliver (Send clientKey m)).

Definition broadcast (m : ServerMessage) (omitKeys : list jsstring) : M unit :=
  modify (deliver (Broadcast m omitKeys)).

(** [this.replicas.getGlobalAck(activeOverride)]. *)
Definition getGlobalAck (env : Env) (activeOverride : list jsstring)
           (s : ServerLibrary) : option Timestamp :=
  ReplicaInfos.getGlobalAck (replicaTruancyMinutes env) (now env)
                            activeOverride (replicas s).

(** ** validateReplicaAccess *)
Definition validateReplicaAccess (replica : jsstring) (info : TokenInfo) : M unit :=
  r <- gets (fun s => ReplicaInfos.get replica (replicas s)) ;;
  match r with
  | Some found =>
      if negb (eqb (clientId found) (userId info))
      then throw (ReplicaAccessError replica (userId info))
      else ret tt
  | None => ret tt
  end.

(** ** hasWriteAccess *)
Definition hasWriteAccess (info : TokenInfo) : bool :=
  match tokenType info with
  | ReadOnlyPull | ReadOnlyRealtime => false
  | _ => true
  end.

(** ** rebroadcastOperations *)
Definition rebroadcastOperations (env : Env) (clientKey replica : jsstring)
           (ops : list Operation) (bs : list DocumentBaseline) : M unit :=
  if (List.length ops =? 0) && (List.length bs =? 0) then ret tt
  else
    globalAck <- gets (getGlobalAck env []) ;;
    broadcast (OpRe ops bs replica globalAck) [clientKey].

(** ** updateAcknowledged *)
Definition updateAcknowledged (env : Env) (replica : jsstring)
           (ts : Timestamp) (info : TokenInfo) : M unit :=
  priorGlobalAck <- gets (getGlobalAck env []) ;;
  storage env ReplicasUpdateAcknowledged
          (set_replicas (ReplicaInfos.updateAcknowledged replica ts)) ;;
  newGlobalAck <- gets (getGlobalAck env []) ;;
  match newGlobalAck with
  | Some newAck =>
      if truthy newAck
         && negb (match priorGlobalAck with
                  | Some prior => eqb prior newAck
                  | None => false
                  end)
      then broadcast (GlobalAck newAck) []
      else ret tt
  | None => ret tt
  end.

(** ** handleAck *)
Definition handleAck (env : Env) (replica : jsstring) (ts : Timestamp)
           (clientKey : jsstring) (info : TokenInfo) : M unit :=
  updateAcknowledged env replica ts info.

(** ** enqueueRebase: [pendingRebaseTimeout] is read and never assigned. *)
Definition enqueueRebase : M unit :=
  pending <- gets pendingRebaseTimeout ;;
  match pending with
  | None => modify (setTimeout RebaseTimeout)
  | Some _ => ret tt
  end.

(** ** handleOperation *)
Definition handleOperation (env : Env) (replica : jsstring)
           (ops : list Operation) (clientKey : jsstring) (info : TokenInfo) : M unit :=
  if negb (hasWriteAccess info) then send clientKey Forbidden
  else
    transaction
      (storage env OperationsInsertAll
               (set_operations (OperationHistory.insertAll replica ops))) ;;
    enqueueRebase ;;
    rebroadcastOperations env clientKey replica ops [].

(** ** removeExtraOperationData *)
Definition removeExtraOperationData (item : OperationHistoryItem) : Operation :=
  mkOperation (oid item) (timestamp item) (data item).

(** [a || null] on a nullable string. *)
Definition orNull (a : option Timestamp) : option Timestamp :=
  match a with
  | Some ts => if truthy ts then Some ts else None
  | None => None
  end.

(** [!!message.resyncAll]. *)
Definition requested (flag : option bool) : bool :=
  match flag with Some true => true | _ => false end.

Definition statusIsExisting (status : ReplicaStatus) : bool :=
  match status with StatusExisting => true | _ => false end.

(** ** handleSync *)
Definition handleSync (env : Env) (replica : jsstring) (resyncAll : option bool)
           (clientKey : jsstring) (info : TokenInfo) : M unit :=
  (if requested resyncAll
   then storage env ReplicasDelete (set_replicas (ReplicaInfos.delete replica))
   else ret tt) ;;
  table <- gets replicas ;;
  let '((status, clientReplicaInfo), table') :=
    ReplicaInfos.getOrCreate (replicaTruancyMinutes env) (now env) replica info table in
  storage env ReplicasGetOrCreate (set_replicas (fun _ => table')) ;;
  let changesSince :=
    if statusIsExisting status then ackedLogicalTime clientReplicaInfo else None in
  ops <- gets (fun s => OperationHistory.getAfter changesSince (operations s)) ;;
  bs <- gets (fun s => Baselines.getAllAfter changesSince (baselines s)) ;;
  let replicaShouldReset := requested resyncAll || negb (statusIsExisting status) in
  let isEmptyLibrary :=
    match changesSince with None => true | Some _ => false end
    && (List.length ops =? 0) && (List.length bs =? 0) in
  globalAck <- gets (getGlobalAck env []) ;;
  peers <- gets presences ;;
  send clientKey
       (SyncResp
          (mkSyncResponse
             (map removeExtraOperationData ops)
             (map (fun b => mkBaseline (b_oid b) (b_snapshot b) (b_timestamp b)) bs)
             (orNull (ackedLogicalTime clientReplicaInfo))
             globalAck
             peers
             (replicaShouldReset && negb isEmptyLibrary))).

(** ** handleSyncStep2 *)
Definition handleSyncStep2 (env : Env) (replica : jsstring)
           (ops : list Operation) (bs : list DocumentBaseline) (ts : Timestamp)
           (clientKey : jsstring) (info : TokenInfo) : M unit :=
  if negb (hasWriteAccess info) then send clientKey Forbidden
  else
    storage env BaselinesInsertAll (set_baselines (Baselines.insertAll bs)) ;;
    storage env OperationsInsertAll
            (set_operations (OperationHistory.insertAll replica ops)) ;;
    rebroadcastOperations env clientKey replica ops bs ;;
    match last (map Some ops) None with
    | Some lastOperation =>
        updateAcknowledged env replica (op_timestamp lastOperation) info
    | None =>
        updateAcknowledged env replica ts info
    end.

(** ** rebase *)

(** [opsToApply[op.oid] = opsToApply[op.oid] || []; opsToApply[op.oid].push(op)]:
    a record keeps its keys in the order they were first written. *)
Fixpoint push (o : ObjectIdentifier) (op : OperationHistoryItem)
         (table : list (ObjectIdentifier * list OperationHistoryItem))
  : list (ObjectIdentifier * list OperationHistoryItem) :=
  match table with
  | [] => [(o, [op])]
  | (k, l) :: rest =>
      if eqb k o then (k, l ++ [op]) :: rest else (k, l) :: push o op rest
  end.

(** The properties every record inherits from [Object.prototype]. *)
Definition inheritedKeys : list jsstring :=
  [ js "constructor"; js "__proto__"; js "hasOwnProperty"; js "isPrototypeOf";
    js "propertyIsEnumerable"; js "toString"; js "toLocaleString"; js "valueOf";
    js "__defineGetter__"; js "__defineSetter__";
    js "__lookupGetter__"; js "__lookupSetter__" ].

(** [hardStops[oid]] is truthy for a key that was set and for an inherited
    property. *)
Definition lookupHardStop (o : ObjectIdentifier) (hardStops : list ObjectIdentifier) : bool :=
  existsb (eqb o) hardStops || existsb (eqb o) inheritedKeys.

(** An object identifier names a collection and a document, separated by a
    slash; such a key is neither inherited nor an array index. *)
Definition isOid (o : ObjectIdentifier) : bool := existsb (N.eqb 47) o.

(** One turn of the loop over the operations before the global ack. *)
Definition bucketStep (globalAck : Timestamp)
           (acc : list (ObjectIdentifier * list OperationHistoryItem)
                  * list ObjectIdentifier)
           (op : OperationHistoryItem)
  : list (ObjectIdentifier * list OperationHistoryItem) * list ObjectIdentifier :=
  let '(opsToApply, hardStops) := acc in
  let isBeforeGlobalAck := ltb (timestamp op) globalAck in
  if negb (lookupHardStop (oid op) hardStops) && isBeforeGlobalAck
  then (push (oid op) op opsToApply, hardStops)
  else (opsToApply, oid op :: hardStops).

Definition bucketOps (globalAck : Timestamp) (ops : list OperationHistoryItem)
  : list (ObjectIdentifier * list OperationHistoryItem) :=
  fst (fold_left (bucketStep globalAck) ops ([], [])).

Definition activeReplicaIds (s : ServerLibrary) : list jsstring :=
  map (fun p => ui_replicaId (snd p)) (presences s).

Definition rebaseDocument (env : Env)
           (entry : ObjectIdentifier * list OperationHistoryItem) : M unit :=
  let '(documentId, ops) := entry in
  storage env BaselinesApplyOperations
          (set_baselines (Baselines.applyOperations (applyPatch env) documentId ops)) ;;
  storage env OperationsDropAll (set_operations (OperationHistory.dropAll ops)).

Definition rebase (env : Env) : M unit :=
  globalAck <- gets (fun s => getGlobalAck env (activeReplicaIds s) s) ;;
  match globalAck with
  | None => ret tt
  | Some ack =>
      if negb (truthy ack) then ret tt
      else
        ops <- gets (fun s => OperationHistory.getBefore ack (operations s)) ;;
        let opsToApply := bucketOps ack ops in
        forEach (rebaseDocument env) opsToApply ;;
        if negb (List.length opsToApply =? 0)
        then broadcast (GlobalAck ack) []
        else ret tt
  end.

(** The event loop runs the oldest pending timeout. *)
Definition runTimeout (env : Env) : M unit :=
  pending <- gets timeouts ;;
  match pending with
  | [] => ret tt
  | RebaseTimeout :: rest =>
      modify (fun s => mkLibrary (replicas s) (operations s) (baselines s)
                                 (presences s) (sent s) (pendingRebaseTimeout s) rest) ;;
      rebase env
  end.

(** ** handleHeartbeat *)
Definition handleHeartbeat (clientKey : jsstring) : M unit :=
  send clientKey HeartbeatResponse.

(** [this.presences.set(userId, info)]: the map is keyed by user. *)
Fixpoint presenceSet (user : jsstring) (info : UserInfo)
         (table : list (jsstring * UserInfo)) : list (jsstring * UserInfo) :=
  match table with
  | [] => [(user, info)]
  | (k, v) :: rest =>
      if eqb k user then (k, info) :: rest else (k, v) :: presenceSet user info rest
  end.

(** ** handlePresenceUpdate *)
Definition handlePresenceUpdate (env : Env) (replica : jsstring) (presence : json)
           (clientKey : jsstring) (info : TokenInfo) : M unit :=
  modify (set_presences
            (presenceSet (userId info)
               (mkUserInfo presence replica (profiles env (userId info)) (userId info)))) ;;
  broadcast
    (PresenceChanged replica
       (mkUserInfo presence replica (profiles env (userId info)) (userId info)))
    [].

(** ** receive *)
Definition receive (env : Env) (message : ClientMessage)
           (clientKey : jsstring) (info : TokenInfo) : M unit :=
  validateReplicaAccess (message_replicaId message) info ;;
  match message with
  | MsgOp replica ops => handleOperation env replica ops clientKey info
  | MsgSync replica resyncAll => handleSync env replica resyncAll clientKey info
  | MsgSyncStep2 replica ops bs ts =>
      handleSyncStep2 env replica ops bs ts clientKey info
  | MsgAck replica ts => handleAck env replica ts clientKey info
  | MsgHeartbeat replica => handleHeartbeat clientKey
  | MsgPresenceUpdate replica presence =>
      handlePresenceUpdate env replica presence clientKey info
  | MsgUnknown _ => ret tt
  end ;;
  storage env ReplicasUpdateLastSeen
          (set_replicas (ReplicaInfos.updateLastSeen (now env) (message_replicaId message))).

End Lib.

(* ================================================================== *)
(** * Vocabulary of the statements, and fixtures *)
(* ================================================================== *)

Import Lib.
Local Open Scope lib_scope.

(** No database statement fails. *)
Definition noFaults (env : Env) : Prop := forall call, fails env call = false.

(** A patch function for the fixtures: [initialize] replaces the snapshot,
    [set] and [delete] edit the fields of an object, list operations are
    left out. *)
Definition fixturePatch (snapshot : json) (patch : OperationPatch) : json :=
  match patch, snapshot with
  | OpInitialize value, _ => value
  | OpSet name value, JObj fields =>
      JObj (filter (fun kv => negb (eqb (fst kv) name)) fields ++ [(name, value)])
  | OpDelete name, JObj fields =>
      JObj (filter (fun kv => negb (eqb (fst kv) name)) fields)
  | _, _ => snapshot
  end.

Definition fixtureEnv (failing : StorageCall -> bool) : Env :=
  mkEnv fixturePatch (fun user => JObj [(js "id", JStr user)]) 30 1000000 failing.

Definition reliableEnv : Env := fixtureEnv (fun _ => false).

Definition alice : TokenInfo := mkToken (js "alice") Realtime.
Definition bob : TokenInfo := mkToken (js "bob") Realtime.

(** A library in which [alice] owns replica [rA] and [bob] replica [rB]; both
    were seen recently, [rA] acknowledged [t3] and [rB] acknowledged [t5]; the
    log holds three operations on [items/a] and one on [items/b]. *)
Definition fixtureLibrary : ServerLibrary :=
  mkLibrary
    [ mkReplica (js "rA") (js "alice") Realtime (Some (js "t3")) 999000;
      mkReplica (js "rB") (js "bob") Realtime (Some (js "t5")) 999500 ]
    [ mkItem (js "items/a") (js "t2") (OpSet (js "content") (JStr (js "pears"))) (js "rA");
      mkItem (js "items/b") (js "t4") (OpSet (js "content") (JStr (js "plums"))) (js "rB");
      mkItem (js "items/a") (js "t1") (OpInitialize (JObj [(js "content", JStr (js "apples"))])) (js "rA");
      mkItem (js "items/a") (js "t6") (OpDelete (js "content")) (js "rB") ]
    []
    [ (js "alice", mkUserInfo JNull (js "rA") JNull (js "alice")) ]
    []
    None
    [].


(** The spec's reading of the acknowledged timestamp of a sync-step2 message:
    the timestamp of its last operation, or its own when it has none. *)
Definition spec_ackedTimestamp (ops : list Operation) (ts : Timestamp) : Timestamp :=
  match rev ops with
  | lastOperation :: _ => op_timestamp lastOperation
  | [] => ts
  end.

(** The global ack went forward: from null to a timestamp, or to a greater
    timestamp. *)
Definition advanced (prior new : option Timestamp) : bool :=
  match prior, new with
  | _, None => false
  | None, Some _ => true
  | Some p, Some n => ltb p n
  end.

(** Every acknowledgement in the registry is a timestamp, not the empty string. *)
Definition ackedAreTimestamps (table : list ReplicaInfo) : bool :=
  forallb (fun r => match ackedLogicalTime r with
                    | Some ts => truthy ts
                    | None => true
                    end) table.

(** An identifier allocated under [r]. *)
Definition isSubOidOf (r s : ObjectIdentifier) : Prop :=
  exists keyPath subId, s = createSubOid r keyPath subId.

(** The rebase passes waiting in the timer queue. *)
Definition pendingRebases (lib : ServerLibrary) : nat :=
  List.length (filter (fun t => match t with RebaseTimeout => true end) (timeouts lib)).

(** A [global-ack] broadcast to every client. *)
Definition isGlobalAck (d : Delivery) : bool :=
  match d with
  | Broadcast (GlobalAck _) [] => true
  | _ => false
  end.

(** The library after the two inserts and the rebroadcast of sync-step2. *)
Definition afterStep2Inserts (env : Env) (replica : jsstring) (ops : list Operation)
           (bs : list DocumentBaseline) (clientKey : jsstring)
           (lib : ServerLibrary) : ServerLibrary :=
  mkLibrary (replicas lib)
            (OperationHistory.insertAll replica ops (operations lib))
            (Baselines.insertAll bs (baselines lib))
            (presences lib)
            (sent lib ++ match ops, bs with
                         | [], [] => []
                         | _, _ => [Broadcast (OpRe ops bs replica (getGlobalAck env [] lib))
                                              [clientKey]]
                         end)
            (pendingRebaseTimeout lib) (timeouts lib).

(** Equality of database statements. *)
Definition isCall (expected actual : StorageCall) : bool :=
  match expected, actual with
  | ReplicasDelete, ReplicasDelete
  | ReplicasGetOrCreate, ReplicasGetOrCreate
  | ReplicasUpdateAcknowledged, ReplicasUpdateAcknowledged
  | ReplicasUpdateLastSeen, ReplicasUpdateLastSeen
  | OperationsInsertAll, OperationsInsertAll
  | OperationsDropAll, OperationsDropAll
  | BaselinesInsertAll, BaselinesInsertAll
  | BaselinesApplyOperations, BaselinesApplyOperations => true
  | _, _ => false
  end.

(** The database raises an I/O error in one statement. *)
Definition failingAt (call : StorageCall) : Env := fixtureEnv (isCall call).

(** The acknowledgements never go back. *)
Definition ackLe (a b : option Timestamp) : Prop :=
  match a, b with
  | None, _ => True
  | Some x, Some y => leb x y = true
  | Some _, None => False
  end.

(** What the first loop has built after the operations [seen]. *)
Record bucketed (seen : list OperationHistoryItem)
       (table : list (ObjectIdentifier * list OperationHistoryItem)) : Prop := {
  bucket_keys : NoDup (map fst table);
  bucket_content :
    forall k l, In (k, l) table ->
                l = filter (fun item => eqb (oid item) k) seen /\ l <> [];
  bucket_cover : forall item, In item seen -> In (oid item) (map fst table)
}.

(** The log after the drops of the second loop of [rebase]. *)
Definition rebasedOperations (buckets : list (ObjectIdentifier * list OperationHistoryItem))
           (log : list OperationHistoryItem) : list OperationHistoryItem :=
  fold_left (fun acc entry => OperationHistory.dropAll (snd entry) acc) buckets log.

(** The baselines after the writes of the second loop of [rebase]. *)
Definition rebasedBaselines (patch : json -> OperationPatch -> json)
           (buckets : list (ObjectIdentifier * list OperationHistoryItem))
           (table : list DocumentBaseline) : list DocumentBaseline :=
  fold_left (fun acc entry => Baselines.applyOperations patch (fst entry) (snd entry) acc)
            buckets table.

(* ================================================================== *)
(** * Vocabulary of the further properties of the authority *)
(* ================================================================== *)

(** [m] relates every library to the library it leaves, also when it throws. *)
Definition keeps {A : Type} (R : ServerLibrary -> ServerLibrary -> Prop) (m : M A) : Prop :=
  forall s, R s (snd (m s)).

(** The operation log and the baselines are the same. *)
Definition sameStores (s s' : ServerLibrary) : Prop :=
  operations s' = operations s /\ baselines s' = baselines s.

(** The deliveries added from [s] to [s'] all satisfy [allowed]. *)
Definition sendsOnly (allowed : Delivery -> Prop) (s s' : ServerLibrary) : Prop :=
  exists extra, sent s' = sent s ++ extra /\ Forall allowed extra.

(** The messages whose handler stores operations or baselines. *)
Definition storesWrite (m : ClientMessage) : bool :=
  match m with
  | MsgOp _ _ | MsgSyncStep2 _ _ _ _ => true
  | _ => false
  end.

(** The messages that are answered, if at all, to their sender. *)
Definition repliesOnly (m : ClientMessage) : bool :=
  match m with
  | MsgSync _ _ | MsgHeartbeat _ | MsgUnknown _ => true
  | _ => false
  end.

(** The sender owns the replica it names, or the replica is not registered. *)
Definition ownsReplica (info : TokenInfo) (replica : jsstring) (lib : ServerLibrary) : Prop :=
  forall owner,
    ReplicaInfos.get replica (replicas lib) = Some owner -> clientId owner = userId info.

(** The longest prefix whose elements pass the test. *)
Fixpoint takeWhile {A : Type} (p : A -> bool) (l : list A) : list A :=
  match l with
  | [] => []
  | x :: rest => if p x then x :: takeWhile p rest else []
  end.

(** The entry of a user in the presence map. *)
Definition presenceOf (user : jsstring) (table : list (jsstring * UserInfo)) : option UserInfo :=
  option_map snd (find (fun entry => eqb (fst entry) user) table).

(** The operation is before the global ack [T]. *)
Definition isBefore (T : Timestamp) (item : OperationHistoryItem) : bool :=
  ltb (timestamp item) T.

(** The operations of object [k]. *)
Definition isOf (k : ObjectIdentifier) (item : OperationHistoryItem) : bool :=
  eqb (oid item) k.

(** What the first loop of [rebase] has built after the operations [seen],
    whatever their order and timestamps: each bucket is the longest prefix of
    its object's operations that are before the global ack, and an object is
    stopped once one of its operations is not. *)
Record prefixBucketed (T : Timestamp) (seen : list OperationHistoryItem)
       (table : list (ObjectIdentifier * list OperationHistoryItem))
       (stops : list ObjectIdentifier) : Prop := {
  prefix_keys : NoDup (map fst table);
  prefix_content :
    forall k l, In (k, l) table ->
                l = takeWhile (isBefore T) (filter (isOf k) seen) /\ l <> [];
  prefix_cover :
    forall k, takeWhile (isBefore T) (filter (isOf k) seen) <> [] -> In k (map fst table);
  prefix_stops :
    forall k, existsb (eqb k) stops = negb (forallb (isBefore T) (filter (isOf k) seen))
}.

(* ================================================================== *)
(** * Index values (packages/common/src/indexes.ts) *)
(* ================================================================== *)

Module Indexes.

(** ['\uFFFFFE']: the escape takes four hexadecimal digits, so the separator
    is the code unit [FFFF] followed by the letters [F] and [E]. *)
Definition COMPOUND_INDEX_SEPARATOR : jsstring := [65535; 70; 69]%N.


(** ['\uFFFFFF']: the code unit [FFFF] followed by [F] and [F]. *)
Definition COMPOUND_INDEX_UPPER_BOUND_SEPARATOR : jsstring := [65535; 70; 70]%N.

(** ['null']. *)
Definition NULL_INDEX_VALUE : jsstring := js "null".

Section Values.

(** Numbers and their conversion to a string are those of the language. *)
Variable Number : Type.
Variable numberToString : Number -> jsstring.

(** A value that is not an array, as it reaches the index functions. *)
Inductive IndexableScalar : Type :=
| INull
| IUndefined
| IBoolean (b : bool)
| INumber (n : Number)
| IString (s : jsstring).

(** [IndexableFieldValue]: a single value, or an array of values that are
    not arrays themselves. *)
Inductive IndexableFieldValue : Type :=
| Scalar (v : IndexableScalar)
| Items (vs : list IndexableScalar).

(** [CompoundIndexValue = string | string[]]. *)
Inductive CompoundIndexValue : Type :=
| Single (value : jsstring)
| Multiple (values : list jsstring).

(** The template literal [`${field}`]. *)
Definition templateString (v : IndexableScalar) : jsstring :=
  match v with
  | INull => js "null"
  | IUndefined => js "undefined"
  | IBoolean true => js "true"
  | IBoolean false => js "false"
  | INumber n => numberToString n
  | IString s => s
  end.

(** The string of an element in [Array.prototype.join]: null and undefined
    give the empty string. *)
Definition joinString (v : IndexableScalar) : jsstring :=
  match v with
  | INull | IUndefined => []
  | _ => templateString v
  end.

(** The string of a field in [fields.join(...)]: an array is joined with
    commas. *)
Definition fieldJoinString (f : IndexableFieldValue) : jsstring :=
  match f with
  | Scalar v => joinString v
  | Items vs => join (js ",") (map joinString vs)
  end.

(** [Array.from(new Set(values))]: the first occurrence of every string, in
    order. *)
Fixpoint setFrom (seen values : list jsstring) : list jsstring :=
  match values with
  | [] => []
  | v :: rest =>
      if existsb (eqb v) seen then setFrom seen rest else v :: setFrom (v :: seen) rest
  end.

(** One turn of the loop of [expandArrayIndex] over the fields.  The items
    of an array field are strings once joined, the other fields when pushed. *)
Definition expandStep (value : list (list jsstring)) (field : IndexableFieldValue)
  : list (list jsstring) :=
  match field with
  | Items vs =>
      flat_map (fun previousValue =>
                  map (fun fieldValue => previousValue ++ [joinString fieldValue]) vs)
               value
  | Scalar v => map (fun item => item ++ [templateString v]) value
  end.

(** ** expandArrayIndex *)
Definition expandArrayIndex (fields : list IndexableFieldValue) : list jsstring :=
  setFrom [] (map (join COMPOUND_INDEX_SEPARATOR) (fold_left expandStep fields [[]])).

(** ** createCompoundIndexValue *)
Definition createCompoundIndexValue (fields : list IndexableFieldValue) : CompoundIndexValue :=
  match expandArrayIndex fields with
  | [value] => Single value
  | value => Multiple value
  end.

(** ** createUpperBoundIndexValue *)
Definition createUpperBoundIndexValue (fields : list IndexableFieldValue) : jsstring :=
  join COMPOUND_INDEX_SEPARATOR (map fieldJoinString fields)
  ++ COMPOUND_INDEX_UPPER_BOUND_SEPARATOR.


(** Values as [sanitizeIndexValue] receives them. *)
#[local] Unset Elimination Schemes.
Inductive jsvalue : Type :=
| VNull
| VUndefined
| VBoolean (b : bool)
| VNumber (n : Number)
| VString (s : jsstring)
| VArray (items : list jsvalue)
| VObject (properties : list (jsstring * jsvalue)).
#[local] Set Elimination Schemes.

(** ** sanitizeIndexValue: [None] stands for the thrown
    [Unsupported index value]. *)
Fixpoint sanitizeIndexValue (value : jsvalue) : option jsvalue :=
  match value with
  | VNull => Some (VString NULL_INDEX_VALUE)
  | VString _ | VNumber _ => Some value
  | VBoolean true => Some (VString (js "true"))
  | VBoolean false => Some (VString (js "false"))
  | VUndefined => Some (VString (js "undefined"))
  | VArray items =>
      option_map VArray
        ((fix mapItems (l : list jsvalue) : option (list jsvalue) :=
            match l with
            | [] => Some []
            | item :: rest =>
                match sanitizeIndexValue item with
                | Some item' =>
                    match mapItems rest with
                    | Some rest' => Some (item' :: rest')
                    | None => None
                    end
                | None => None
                end
            end) items)
  | VObject _ => None
  end.

(** The value is a string, a number, or an array of such values. *)
Fixpoint isIndexValue (value : jsvalue) : bool :=
  match value with
  | VString _ | VNumber _ => true
  | VArray items => forallb isIndexValue items
  | _ => false
  end.

(** The value is an object, or an array that holds one at some depth. *)
Fixpoint holdsObject (value : jsvalue) : bool :=
  match value with
  | VObject _ => true
  | VArray items => existsb holdsObject items
  | _ => false
  end.

(** One string per field: the field itself, or one of its items. *)
Definition picks (field : IndexableFieldValue) (choice : jsstring) : Prop :=
  match field with
  | Scalar v => choice = templateString v
  | Items vs => exists item, In item vs /\ choice = joinString item
  end.

End Values.

End Indexes.

Arguments Indexes.INull {Number}.
Arguments Indexes.IUndefined {Number}.
Arguments Indexes.IBoolean {Number} b.
Arguments Indexes.IString {Number} s.
Arguments Indexes.VNull {Number}.
Arguments Indexes.VUndefined {Number}.
Arguments Indexes.VBoolean {Number} b.
Arguments Indexes.VString {Number} s.

(** For the examples: numbers are the digits [0] to [9]. *)
Definition digitToString (n : nat) : jsstring := [N.of_nat (48 + n)].

(* ================================================================== *)
(** * Databases: the cache of open library databases *)
(* ================================================================== *)

Module Databases.

(** What [openDatabase] was called with; the serial number tells the
    connections apart. *)
Record Connection : Type := mkConnection {
  conn_library : jsstring;
  skipMigrations : bool;
  conn_disableWal : bool;
  serial : nat
}.

(** The fields of [Databases], with the timers that are armed, the calls of
    [get] that wait for [openDatabase], the connections opened so far and
    those on which [destroy()] was called.  A record is the list of its own
    properties. *)
Record State : Type := mkState {
  cache : list (jsstring * Connection);
  closeTimeouts : list (jsstring * nat);
  openedPreviously : list jsstring;
  disableWal : bool;
  timers : list (nat * jsstring);
  nextTimer : nat;
  opening : list Connection;
  opened : list Connection;
  destroyed : list Connection
}.

(** [new Databases(config)]. *)
Definition create (config_disableWal : bool) : State :=
  mkState [] [] [] config_disableWal [] 0 [] [] [].

(** [record[key]] on the own properties. *)
Definition lookup {V : Type} (key : jsstring) (record : list (jsstring * V)) : option V :=
  option_map snd (find (fun entry => eqb (fst entry) key) record).

(** [record[key] = value]. *)
Fixpoint assign {V : Type} (key : jsstring) (value : V) (record : list (jsstring * V))
  : list (jsstring * V) :=
  match record with
  | [] => [(key, value)]
  | (k, v) :: rest =>
      if eqb k key then (k, value) :: rest else (k, v) :: assign key value rest
  end.

(** [delete record[key]]. *)
Definition remove {V : Type} (key : jsstring) (record : list (jsstring * V))
  : list (jsstring * V) :=
  filter (fun entry => negb (eqb (fst entry) key)) record.

(** [clearTimeout(handle)]; clearing what is not an armed timer does nothing. *)
Definition clearTimeout (handle : option nat) (s : State) : State :=
  match handle with
  | None => s
  | Some h =>
      mkState (cache s) (closeTimeouts s) (openedPreviously s) (disableWal s)
              (filter (fun t => negb (Nat.eqb (fst t) h)) (timers s))
              (nextTimer s) (opening s) (opened s) (destroyed s)
  end.

(** ** enqueueClose *)
Definition enqueueClose (libraryId : jsstring) (s : State) : State :=
  let s1 := clearTimeout (lookup libraryId (closeTimeouts s)) s in
  mkState (cache s1)
          (assign libraryId (nextTimer s1) (closeTimeouts s1))
          (openedPreviously s1) (disableWal s1)
          (timers s1 ++ [(nextTimer s1, libraryId)])
          (S (nextTimer s1)) (opening s1) (opened s1) (destroyed s1).

(** What [get] resolves to: a connection, or the property that the cache
    inherits under that name. *)
Inductive Got : Type :=
| GotConnection (db : Connection)
| GotInherited.

(** [this.cache[libraryId]] is truthy. *)
Definition isCached (libraryId : jsstring) (s : State) : bool :=
  match lookup libraryId (cache s) with
  | Some _ => true
  | None => existsb (eqb libraryId) Lib.inheritedKeys
  end.

(** ** get, up to its [await]: a hit resolves at once, a miss calls
    [openDatabase] and waits. *)
Definition getStart (libraryId : jsstring) (s : State) : option Got * State :=
  if isCached libraryId s
  then
    let s1 := enqueueClose libraryId s in
    (Some (match lookup libraryId (cache s1) with
           | Some db => GotConnection db
           | None => GotInherited
           end), s1)
  else
    let db := mkConnection libraryId
                           (existsb (eqb libraryId) (openedPreviously s))
                           (disableWal s)
                           (List.length (opened s)) in
    (None,
     mkState (cache s) (closeTimeouts s) (openedPreviously s) (disableWal s)
             (timers s) (nextTimer s) (opening s ++ [db]) (opened s ++ [db]) (destroyed s)).

(** The list without its [i]-th element. *)
Definition dropNth {A : Type} (i : nat) (l : list A) : list A :=
  firstn i l ++ skipn (S i) l.

(** ** get, after its [await]: the [i]-th waiting call goes on with the
    connection. *)
Definition getResume (i : nat) (s : State) : option Got * State :=
  match nth_error (opening s) i with
  | None => (None, s)
  | Some db =>
      let libraryId := conn_library db in
      let s1 :=
        mkState (assign libraryId db (cache s)) (closeTimeouts s)
                (if existsb (eqb libraryId) (openedPreviously s)
                 then openedPreviously s else openedPreviously s ++ [libraryId])
                (disableWal s) (timers s) (nextTimer s)
                (dropNth i (opening s)) (opened s) (destroyed s) in
      (Some (GotConnection db), enqueueClose libraryId s1)
  end.

(** [openDatabase] rejects: the [i]-th waiting call ends there. *)
Definition getFail (i : nat) (s : State) : State :=
  mkState (cache s) (closeTimeouts s) (openedPreviously s) (disableWal s)
          (timers s) (nextTimer s) (dropNth i (opening s)) (opened s) (destroyed s).

Inductive Closed : Type :=
| Returned
| TypeError.

(** ** close: the entry is deleted, then looked up again for [destroy()]. *)
Definition close (libraryId : jsstring) (s : State) : Closed * State :=
  let s1 := clearTimeout (lookup libraryId (closeTimeouts s)) s in
  let s2 := mkState (remove libraryId (cache s1)) (closeTimeouts s1) (openedPreviously s1)
                    (disableWal s1) (timers s1) (nextTimer s1) (opening s1) (opened s1)
                    (destroyed s1) in
  match lookup libraryId (cache s2) with
  | Some db =>
      (Returned,
       mkState (cache s2) (closeTimeouts s2) (openedPreviously s2) (disableWal s2)
               (timers s2) (nextTimer s2) (opening s2) (opened s2) (destroyed s2 ++ [db]))
  | None =>
      if existsb (eqb libraryId) Lib.inheritedKeys then (TypeError, s2) else (Returned, s2)
  end.

(** ** destroy: [close] for every key of the cache, until one throws. *)
Fixpoint closeAll (keys : list jsstring) (s : State) : Closed * State :=
  match keys with
  | [] => (Returned, s)
  | libraryId :: rest =>
      match close libraryId s with
      | (Returned, s') => closeAll rest s'
      | (TypeError, s') => (TypeError, s')
      end
  end.

(** The value of a key that is an array index: a canonical decimal numeral
    below [2^32 - 1]. *)
Fixpoint digitsValue (acc : N) (key : jsstring) : option N :=
  match key with
  | [] => Some acc
  | d :: rest =>
      if ((48 <=? d) && (d <=? 57))%N
      then digitsValue (acc * 10 + (d - 48))%N rest
      else None
  end.

Definition arrayIndex (key : jsstring) : option N :=
  match key with
  | [] => None
  | d :: rest =>
      if (d =? 48)%N
      then match rest with [] => Some 0%N | _ => None end
      else match digitsValue 0%N key with
           | Some n => if (n <? 4294967295)%N then Some n else None
           | None => None
           end
  end.

Fixpoint insertIndex (n : N) (key : jsstring) (sorted : list (N * jsstring))
  : list (N * jsstring) :=
  match sorted with
  | [] => [(n, key)]
  | (m, k) :: rest =>
      if (n <? m)%N then (n, key) :: sorted else (m, k) :: insertIndex n key rest
  end.

(** The order in which [for ... in] visits the keys of a record: the array
    indices in ascending order, then the other keys as they were added. *)
Definition ownKeys {V : Type} (record : list (jsstring * V)) : list jsstring :=
  let keys := map fst record in
  map snd (fold_right (fun key sorted =>
                         match arrayIndex key with
                         | Some n => insertIndex n key sorted
                         | None => sorted
                         end) [] keys)
  ++ filter (fun key => match arrayIndex key with Some _ => false | None => true end) keys.

Definition destroy (s : State) : Closed * State := closeAll (ownKeys (cache s)) s.

(** An armed timer fires: it is no longer pending and [close] runs. *)
Definition fire (handle : nat) (s : State) : State :=
  match find (fun t => Nat.eqb (fst t) handle) (timers s) with
  | None => s
  | Some (_, libraryId) =>
      snd (close libraryId
                 (mkState (cache s) (closeTimeouts s) (openedPreviously s) (disableWal s)
                          (filter (fun t => negb (Nat.eqb (fst t) handle)) (timers s))
                          (nextTimer s) (opening s) (opened s) (destroyed s)))
  end.

(** What can happen to a [Databases] object, one step at a time. *)
Inductive Action : Type :=
| GetStart (libraryId : jsstring)
| GetResume (i : nat)
| GetFail (i : nat)
| Close (libraryId : jsstring)
| Destroy
| Fire (handle : nat).

Definition step (s : State) (a : Action) : State :=
  match a with
  | GetStart libraryId => snd (getStart libraryId s)
  | GetResume i => snd (getResume i s)
  | GetFail i => getFail i s
  | Close libraryId => snd (close libraryId s)
  | Destroy => snd (destroy s)
  | Fire handle => fire handle s
  end.

(** The object after a history of steps. *)
Definition run (config_disableWal : bool) (history : list Action) : State :=
  fold_left step history (create config_disableWal).

(** The timers armed for a library. *)
Definition pendingCloses (libraryId : jsstring) (s : State) : list (nat * jsstring) :=
  filter (fun t => eqb (snd t) libraryId) (timers s).

(** Every armed timer is the one recorded for its library, handles are
    distinct and below the next one. *)
Record timersRecorded (s : State) : Prop := {
  timers_recorded : forall h libraryId,
    In (h, libraryId) (timers s) -> lookup libraryId (closeTimeouts s) = Some h;
  timers_distinct : NoDup (map fst (timers s));
  timers_below : forall h libraryId, In (h, libraryId) (timers s) -> h < nextTimer s
}.

(** The log of [openDatabase] calls agrees with the marks: a library marked
    as opened before has a call in the log, so has every call that is waited
    for, and a call that skips the migrations comes after a call for the same
    library. *)
Record opensLogged (s : State) : Prop := {
  logged_marks : forall libraryId,
    In libraryId (openedPreviously s) ->
    exists db, In db (opened s) /\ conn_library db = libraryId;
  logged_opening : forall db, In db (opening s) -> In db (opened s);
  logged_skips : forall before db after,
    opened s = before ++ db :: after ->
    skipMigrations db = true ->
    exists earlier, In earlier before /\ conn_library earlier = conn_library db
}.

(** The steps that open nothing. *)
Definition sameOpens (s s' : State) : Prop :=
  opened s' = opened s
  /\ openedPreviously s' = openedPreviously s
  /\ opening s' = opening s.

End Databases.

(* ================================================================== *)
(** * The repository's tests, evaluated on the model *)
(* ================================================================== *)

Example assignOids_test_a :
  assignOidsToAllSubObjects (js "test/a") test_createSubId test_initial
  = [ js "test/a.foo:0"; js "test/a.foo.baz:1"; js "test/a.qux:2";
      js "test/a.qux.#:3"; js "test/a.qux.#:4"; js "test/a.qux.#.grault:5" ].
Proof. reflexivity. Qed.

Example getOidRange_test_a :
  let '(start, end_) := getOidRange (js "test/a") in
  start = js "test/a" /\ end_ = js "test/a:" ++ [65535%N]
  /\ ltb start end_ = true
  /\ isWithin (js "test/a") start end_ = true
  /\ isWithin (js "test/a:0") start end_ = true
  /\ isWithin (js "test/a:zzzzzzzzzzzzzzzzzzzzzzz") start end_ = true
  /\ isWithin (js "test/a:" ++ [65535%N]) start end_ = true
  /\ isWithin (js "test1/a") start end_ = false
  /\ isWithin (js "test/b") start end_ = false
  /\ isWithin (js "test/ ") start end_ = false.
Proof. vm_compute. repeat split. Qed.

Example superseding_test_apples :
  commitBatch (test_apples (js "items/a"))
  = [ mkOperation (js "items/a") (test_ts 9) (OpSet (js "content") (JStr (js "9 apples"))) ].
Proof. reflexivity. Qed.

Example superseding_test_mixed :
  commitBatch (test_mixed (js "items/a"))
  = [ mkOperation (js "items/a") (test_ts 10) (OpSet (js "purchased") (JBool true));
      mkOperation (js "items/a") (test_ts 21) (OpDelete (js "categoryId")) ].
Proof. reflexivity. Qed.

(* ================================================================== *)
(** * Object identifiers stay within the range of their document *)
(* ================================================================== *)

(** Induction on documents that reaches inside objects and arrays. *)
Lemma json_nested_ind (P : json -> Prop) :
  P JNull ->
  (forall b, P (JBool b)) ->
  (forall n, P (JNum n)) ->
  (forall s, P (JStr s)) ->
  (forall fs, Forall (fun kv => P (snd kv)) fs -> P (JObj fs)) ->
  (forall cs, Forall P cs -> P (JArr cs)) ->
  forall v, P v.
Proof.
  intros Hnull Hbool Hnum Hstr Hobj Harr.
  fix IH 1. intros [ | b | n | s | fs | cs ].
  - exact Hnull.
  - apply Hbool.
  - apply Hnum.
  - apply Hstr.
  - apply Hobj. induction fs as [ | [k c] fs IHfs ]; constructor.
    + simpl. apply IH.
    + exact IHfs.
  - apply Harr. induction cs as [ | c cs IHcs ]; constructor.
    + apply IH.
    + exact IHcs.
Qed.

Lemma createSubOid_within :
  forall r keyPath subId,
    isWithin (createSubOid r keyPath subId) (fst (getOidRange r)) (snd (getOidRange r)) = true.
Proof.
  intros r keyPath subId. unfold isWithin, getOidRange, createSubOid. simpl fst. simpl snd.
  apply andb_true_iff. split.
  - apply leb_app_r.
  - unfold leb. rewrite compare_app. reflexivity.
Qed.

Lemma assignSubOids_allocates :
  forall r createSubId v keyPath i,
    Forall (isSubOidOf r) (fst (assignSubOids r createSubId keyPath v i)).
Proof.
  intros r createSubId v.
  induction v as [ | b | n | s | fs IHfs | cs IHcs ] using json_nested_ind;
    intros keyPath i; try (simpl; constructor).
  - simpl. revert i.
    induction IHfs as [ | [k c] fs Hc Hfs IH ]; intros i; [ constructor | ].
    simpl in Hc. cbn [fst].
    destruct (isObjectLike c).
    + match goal with
      | |- context [assignSubOids ?a ?g ?p c ?n] =>
          specialize (Hc p n); destruct (assignSubOids a g p c n) as [below j]
      end.
      specialize (IH j).
      match goal with
      | H : Forall _ (fst ?loop) |- _ => destruct loop as [rest i2]
      end.
      simpl in *. constructor.
      * exists (keyPath ++ [k]), (createSubId i). reflexivity.
      * apply Forall_app. split; assumption.
    + specialize (IH i).
      match goal with
      | H : Forall _ (fst ?loop) |- _ => destruct loop as [rest i2]
      end.
      simpl in *. assumption.
  - simpl. revert i.
    induction IHcs as [ | c cs Hc Hcs IH ]; intros i; [ constructor | ].
    cbn [fst].
    destruct (isObjectLike c).
    + match goal with
      | |- context [assignSubOids ?a ?g ?p c ?n] =>
          specialize (Hc p n); destruct (assignSubOids a g p c n) as [below j]
      end.
      specialize (IH j).
      match goal with
      | H : Forall _ (fst ?loop) |- _ => destruct loop as [rest i2]
      end.
      simpl in *. constructor.
      * exists (keyPath ++ [js "#"]), (createSubId i). reflexivity.
      * apply Forall_app. split; assumption.
    + specialize (IH i).
      match goal with
      | H : Forall _ (fst ?loop) |- _ => destruct loop as [rest i2]
      end.
      simpl in *. assumption.
Qed.

(** An identifier that does not extend [r] is outside the range of [r]. *)
Lemma not_prefix_outside :
  forall r other,
    ~ isPrefixOf r other ->
    isWithin other (fst (getOidRange r)) (snd (getOidRange r)) = false.
Proof.
  intros r. unfold isWithin, getOidRange. simpl fst. simpl snd.
  induction r as [ | x r IH ]; intros other Hnp.
  - exfalso. apply Hnp. exists other. reflexivity.
  - destruct other as [ | y other ]; [ reflexivity | ].
    unfold leb, compare. simpl.
    destruct (N.compare x y) eqn:Exy.
    + apply N.compare_eq_iff in Exy. subst y. rewrite N.compare_refl.
      apply IH. intros [t Ht]. apply Hnp. exists t. simpl. now rewrite Ht.
    + rewrite N.compare_antisym, Exy. reflexivity.
    + reflexivity.
Qed.

(** C9 (amended): every identifier allocated below the root [r] lies within
    [r <= s <= r + ":\uFFFF"], [getOidRange r] is exactly that pair, and an
    identifier that does not extend [r] (so the root of a document whose
    identifier does not start with [r]) lies outside the range. *)
Theorem oid_range_of_sub_objects :
  forall (r : ObjectIdentifier) (createSubId : nat -> jsstring) (obj : json)
         (s other : ObjectIdentifier),
    In s (assignOidsToAllSubObjects r createSubId obj) ->
    ~ isPrefixOf r other ->
    (leb r s = true /\ leb s (r ++ js ":" ++ [65535%N]) = true)
    /\ getOidRange r = (r, r ++ js ":" ++ [65535%N])
    /\ isWithin other (fst (getOidRange r)) (snd (getOidRange r)) = false.
Proof.
  intros r createSubId obj s other Hin Hother.
  split; [ | split ].
  - pose proof (assignSubOids_allocates r createSubId obj [] 0) as Hall.
    rewrite Forall_forall in Hall. destruct (Hall s Hin) as [keyPath [subId ->]].
    pose proof (createSubOid_within r keyPath subId) as Hw.
    unfold isWithin in Hw. apply andb_true_iff in Hw. exact Hw.
  - reflexivity.
  - apply not_prefix_outside. exact Hother.
Qed.

(** The theorem at the document [test/a] of oids.test.ts. *)
Lemma oid_range_of_sub_objects_witness :
  (leb (js "test/a") (js "test/a.qux.#:3") = true
   /\ leb (js "test/a.qux.#:3") (js "test/a" ++ js ":" ++ [65535%N]) = true)
  /\ getOidRange (js "test/a") = (js "test/a", js "test/a" ++ js ":" ++ [65535%N])
  /\ isWithin (js "test/b") (fst (getOidRange (js "test/a")))
              (snd (getOidRange (js "test/a"))) = false.
Proof.
  apply (@oid_range_of_sub_objects (js "test/a") test_createSubId test_initial
                                   (js "test/a.qux.#:3") (js "test/b")).
  - simpl. tauto.
  - intros [t Ht]. discriminate Ht.
Defined.

(** C9 as stated fails: the root [test/a0] is another document of the same
    collection, and it lies inside the range of the root [test/a]. *)
Lemma oid_range_contains_another_root :
  ~ (forall collection a b : jsstring,
        a <> b ->
        isWithin (createOid collection b)
                 (fst (getOidRange (createOid collection a)))
                 (snd (getOidRange (createOid collection a))) = false).
Proof.
  intros H. specialize (H (js "test") (js "a") (js "a0")).
  assert (Hne : js "a" <> js "a0") by discriminate.
  specialize (H Hne). vm_compute in H. discriminate H.
Qed.

(* ================================================================== *)
(** * Superseding collapses the writes of a field *)
(* ================================================================== *)

Lemma In_addOperation :
  forall buffer op x, In x (addOperation buffer op) -> In x buffer \/ x = op.
Proof.
  intros buffer op x Hin. unfold addOperation in Hin.
  apply in_app_or in Hin. destruct Hin as [Hin | Hin].
  - left. apply filter_In in Hin. tauto.
  - right. simpl in Hin. destruct Hin as [-> | []]. reflexivity.
Qed.

Lemma Forall_commit :
  forall (P : Operation -> Prop) batch buffer,
    Forall P batch -> Forall P buffer -> Forall P (fold_left addOperation batch buffer).
Proof.
  intros P batch. induction batch as [ | op batch IH ]; intros buffer Hb Hbuf.
  - exact Hbuf.
  - simpl. inversion Hb; subst. apply IH; [ assumption | ].
    rewrite Forall_forall in *. intros x Hx.
    apply In_addOperation in Hx. destruct Hx as [Hx | ->]; auto.
Qed.

(** An operation on another field or object leaves the writes of [(o, f)]. *)
Lemma addOperation_elsewhere :
  forall o f buffer op,
    targets o f op = false -> isInitializeOf o op = false ->
    filter (targets o f) (addOperation buffer op) = filter (targets o f) buffer.
Proof.
  intros o f buffer op Ht Hi. unfold addOperation.
  rewrite filter_app. simpl. rewrite Ht, app_nil_r.
  induction buffer as [ | a buffer IH ]; [ reflexivity | ].
  simpl. destruct (targets o f a) eqn:Ea.
  - assert (Hs : supersedes op a = false).
    { unfold targets, isInitializeOf, supersedes in *.
      apply andb_true_iff in Ea. destruct Ea as [Eo Ef]. apply eqb_eq in Eo.
      destruct (eqb (op_oid op) (op_oid a)) eqn:Eoo; [ | reflexivity ].
      apply eqb_eq in Eoo. rewrite Eoo, Eo, eqb_refl in Ht, Hi. simpl in *.
      destruct (op_data op), (op_data a); try reflexivity; try discriminate;
        apply eqb_eq in Ef; subst; exact Ht. }
    rewrite Hs. simpl. rewrite Ea, IH. reflexivity.
  - destruct (negb (supersedes op a)); simpl; rewrite ?Ea; exact IH.
Qed.

(** A [set] of the field replaces the earlier [set]s of the field; a
    [delete] of the field replaces them as well. *)
Lemma addOperation_supersedes_sets :
  forall o f buffer op,
    targets o f op = true ->
    Forall (fun a => targets o f a = true -> isSet a = true) buffer ->
    filter (targets o f) (addOperation buffer op) = [op].
Proof.
  intros o f buffer op Ht Hsets. unfold addOperation.
  rewrite filter_app. simpl. rewrite Ht.
  replace (filter (targets o f) (filter (fun earlier => negb (supersedes op earlier)) buffer))
    with (@nil Operation); [ reflexivity | ].
  induction Hsets as [ | a buffer Ha Hsets IH ]; [ reflexivity | ].
  simpl. destruct (supersedes op a) eqn:Es; simpl; [ exact IH | ].
  destruct (targets o f a) eqn:Ea; [ | exact IH ].
  exfalso. specialize (Ha eq_refl).
  unfold targets, isSet, supersedes in *.
  apply andb_true_iff in Ht, Ea. destruct Ht as [Ho Hf], Ea as [Eo Ef].
  apply eqb_eq in Ho, Eo. rewrite Ho, Eo, eqb_refl in Es. simpl in Es.
  destruct (op_data op), (op_data a); try discriminate;
    apply eqb_eq in Hf, Ef; subst; rewrite eqb_refl in Es; discriminate.
Qed.

Lemma outboundFor_last_write :
  forall o f pre op post,
    targets o f op = true ->
    Forall (fun a => targets o f a = true -> isSet a = true) pre ->
    Forall (fun a => targets o f a = false /\ isInitializeOf o a = false) post ->
    outboundFor o f (pre ++ [op] ++ post) = [op].
Proof.
  intros o f pre op post Ht Hpre Hpost.
  unfold outboundFor, commitBatch. rewrite !fold_left_app. simpl.
  assert (Hbuf : filter (targets o f) (addOperation (fold_left addOperation pre []) op) = [op]).
  { apply addOperation_supersedes_sets; [ exact Ht | ].
    apply Forall_commit; [ exact Hpre | constructor ]. }
  revert Hbuf. generalize (addOperation (fold_left addOperation pre []) op) as buffer.
  induction Hpost as [ | a post [Ha Hi] Hpost IH ]; intros buffer Hbuf.
  - exact Hbuf.
  - simpl. apply IH. rewrite addOperation_elsewhere; assumption.
Qed.

(** C2: when the operations of a batch on the pair [(o, f)] are [set]s, the
    batch leaves exactly one outbound operation for [(o, f)], the last [set]
    with its payload; when a [delete] of [f] follows the [set]s, it leaves
    exactly one, the [delete]. *)
Theorem superseding_collapses_field_writes :
  forall (o : ObjectIdentifier) (f : jsstring) (pre post : list Operation)
         (ts ts' : Timestamp) (v : json),
    Forall (fun a => targets o f a = true -> isSet a = true) pre ->
    Forall (fun a => targets o f a = false /\ isInitializeOf o a = false) post ->
    outboundFor o f (pre ++ [mkOperation o ts (OpSet f v)] ++ post)
    = [mkOperation o ts (OpSet f v)]
    /\ outboundFor o f (pre ++ [mkOperation o ts' (OpDelete f)] ++ post)
       = [mkOperation o ts' (OpDelete f)].
Proof.
  intros o f pre post ts ts' v Hpre Hpost. split.
  - apply outboundFor_last_write; try assumption.
    unfold targets. simpl. now rewrite !eqb_refl.
  - apply outboundFor_last_write; try assumption.
    unfold targets. simpl. now rewrite !eqb_refl.
Qed.

(** The theorem at the second batch of superseding.test.ts. *)
Lemma superseding_collapses_field_writes_witness :
  outboundFor (js "items/a") (js "categoryId")
    (firstn 10 (test_mixed (js "items/a"))
     ++ [mkOperation (js "items/a") (test_ts 20) (OpSet (js "categoryId") (JStr (js "9")))]
     ++ [mkOperation (js "items/b") (test_ts 30) (OpSet (js "categoryId") JNull)])
  = [mkOperation (js "items/a") (test_ts 20) (OpSet (js "categoryId") (JStr (js "9")))]
  /\ outboundFor (js "items/a") (js "categoryId")
       (firstn 10 (test_mixed (js "items/a"))
        ++ [mkOperation (js "items/a") (test_ts 21) (OpDelete (js "categoryId"))]
        ++ [mkOperation (js "items/b") (test_ts 30) (OpSet (js "categoryId") JNull)])
     = [mkOperation (js "items/a") (test_ts 21) (OpDelete (js "categoryId"))].
Proof.
  apply (@superseding_collapses_field_writes (js "items/a") (js "categoryId")
           (firstn 10 (test_mixed (js "items/a")))
           [mkOperation (js "items/b") (test_ts 30) (OpSet (js "categoryId") JNull)]
           (test_ts 20) (test_ts 21) (JStr (js "9"))).
  - repeat constructor.
  - repeat constructor.
Defined.

(* ================================================================== *)
(** * The authority: handshake *)
(* ================================================================== *)

Arguments TimestampSort.sort : simpl never.
Arguments OperationHistory.getAfter : simpl never.
Arguments OperationHistory.getBefore : simpl never.
Arguments OperationHistory.insertAll : simpl never.
Arguments OperationHistory.dropAll : simpl never.
Arguments Baselines.getAllAfter : simpl never.
Arguments Baselines.insertAll : simpl never.
Arguments Baselines.applyOperations : simpl never.
Arguments ReplicaInfos.getGlobalAck : simpl never.
Arguments ReplicaInfos.getOrCreate : simpl never.
Arguments ReplicaInfos.updateAcknowledged : simpl never.
Arguments ReplicaInfos.updateLastSeen : simpl never.
Arguments ReplicaInfos.delete : simpl never.

Lemma storage_ok :
  forall env call write s,
    fails env call = false -> storage env call write s = (Ok tt, write s).
Proof. intros env call write s H. unfold storage. now rewrite H. Qed.

Lemma length_zero_iff_nil : forall (A : Type) (l : list A), (List.length l =? 0) = true <-> l = [].
Proof. intros A [ | x l ]; simpl; split; congruence. Qed.

(** C3: the sync-resp sent for a sync message asks the client to overwrite
    its local data exactly when the client requested a full resync or the
    replica's status is not [existing], and the library is not empty, where
    empty means that [changesSince] is null and no operation and no baseline
    was gathered. *)
Theorem handleSync_overwriteLocalData :
  forall (env : Env) (replica : jsstring) (resyncAll : option bool)
         (clientKey : jsstring) (info : TokenInfo) (lib : ServerLibrary),
    noFaults env ->
    let table := if requested resyncAll
                 then ReplicaInfos.delete replica (replicas lib) else replicas lib in
    let found := fst (ReplicaInfos.getOrCreate (replicaTruancyMinutes env) (now env)
                                               replica info table) in
    let changesSince := match fst found with
                        | StatusExisting => ackedLogicalTime (snd found)
                        | _ => None
                        end in
    let ops := OperationHistory.getAfter changesSince (operations lib) in
    let bs := Baselines.getAllAfter changesSince (baselines lib) in
    exists response,
      sent (snd (handleSync env replica resyncAll clientKey info lib))
      = sent lib ++ [Send clientKey (SyncResp response)]
      /\ (overwriteLocalData response = true
          <-> (resyncAll = Some true \/ fst found <> StatusExisting)
              /\ ~ (changesSince = None /\ ops = [] /\ bs = [])).
Proof.
  intros env replica resyncAll clientKey info lib Hok. cbv zeta.
  unfold handleSync, bind, gets, ret, send, modify.
  assert (Hdel : (if requested resyncAll
                  then storage env ReplicasDelete (set_replicas (ReplicaInfos.delete replica))
                  else (fun s => (Ok tt, s))) lib
                 = (Ok tt, set_replicas (fun t => if requested resyncAll
                                                  then ReplicaInfos.delete replica t else t) lib)).
  { destruct (requested resyncAll).
    - now rewrite storage_ok.
    - destruct lib; reflexivity. }
  rewrite Hdel. clear Hdel. cbn [replicas set_replicas].
  match goal with
  | |- context [ReplicaInfos.getOrCreate ?a ?b ?c ?d ?t] =>
      destruct (ReplicaInfos.getOrCreate a b c d t) as [[status found] table'] eqn:Eg
  end.
  rewrite storage_ok by apply Hok. cbn.
  eexists. split; [ reflexivity | ]. cbn.
  rewrite andb_true_iff, orb_true_iff, !negb_true_iff, !andb_false_iff.
  assert (Hreq : requested resyncAll = true <-> resyncAll = Some true).
  { destruct resyncAll as [ [ | ] | ]; simpl; split; congruence. }
  rewrite Hreq.
  assert (Hst : statusIsExisting status = false <-> status <> StatusExisting).
  { destruct status; simpl; split; congruence. }
  rewrite Hst.
  assert (Hcs : (if statusIsExisting status then ackedLogicalTime found else None)
                = match status with
                  | StatusExisting => ackedLogicalTime found
                  | _ => None
                  end) by (destruct status; reflexivity).
  rewrite Hcs.
  set (changesSince := match status with
                       | StatusExisting => ackedLogicalTime found
                       | _ => None
                       end).
  split.
  - intros [Hreset Hne]. split; [ exact Hreset | ].
    intros [Hc [Ho Hb]]. rewrite Ho, Hb, Hc in Hne. simpl in Hne.
    destruct Hne as [ [ H | H ] | H ]; discriminate.
  - intros [Hreset Hne]. split; [ exact Hreset | ].
    destruct changesSince eqn:Ec; [ left; left; reflexivity | ].
    destruct (List.length (OperationHistory.getAfter None (operations lib)) =? 0) eqn:Eo;
      [ | left; right; reflexivity ].
    destruct (List.length (Baselines.getAllAfter None (baselines lib)) =? 0) eqn:Eb;
      [ | right; reflexivity ].
    exfalso. apply Hne. apply length_zero_iff_nil in Eo, Eb. auto.
Qed.

(** A new replica joining a library that has history is told to overwrite. *)
Lemma handleSync_overwriteLocalData_witness :
  noFaults reliableEnv
  /\ exists response,
       sent (snd (handleSync reliableEnv (js "rC") None (js "k3") bob fixtureLibrary))
       = sent fixtureLibrary ++ [Send (js "k3") (SyncResp response)]
       /\ overwriteLocalData response = true.
Proof.
  assert (Hok : noFaults reliableEnv) by (intros call; reflexivity).
  split; [ exact Hok | ].
  destruct (@handleSync_overwriteLocalData reliableEnv (js "rC") None (js "k3") bob
                                           fixtureLibrary Hok)
    as [response [Hsent Hiff]].
  exists response. split; [ exact Hsent | ].
  apply Hiff. split.
  - right. vm_compute. discriminate.
  - vm_compute. intros [_ [H _]]. discriminate H.
Defined.

(* ================================================================== *)
(** * The authority: replica ownership *)
(* ================================================================== *)

(** C6 (amended): a message naming a replica that is registered under another
    user makes [receive] throw before any handler runs: nothing is sent (no
    [forbidden] either), nothing is scheduled, and the registry, the
    operation log and the baselines are as they were. *)
Theorem receive_rejects_foreign_replica :
  forall (env : Env) (message : ClientMessage) (clientKey : jsstring)
         (info : TokenInfo) (lib : ServerLibrary) (owner : ReplicaInfo),
    ReplicaInfos.get (message_replicaId message) (replicas lib) = Some owner ->
    clientId owner <> userId info ->
    receive env message clientKey info lib
    = (Thrown (ReplicaAccessError (message_replicaId message) (userId info)), lib).
Proof.
  intros env message clientKey info lib owner Hget Hother.
  unfold receive, validateReplicaAccess, bind, gets. rewrite Hget.
  apply eqb_neq in Hother. rewrite Hother. reflexivity.
Qed.

(** [bob] sends an operation in the name of [alice]'s replica. *)
Lemma receive_rejects_foreign_replica_witness :
  receive reliableEnv (MsgOp (js "rA") [mkOperation (js "items/a") (js "t7") (OpDelete (js "content"))])
          (js "k2") bob fixtureLibrary
  = (Thrown (ReplicaAccessError (js "rA") (js "bob")), fixtureLibrary).
Proof.
  apply (@receive_rejects_foreign_replica reliableEnv
           (MsgOp (js "rA") [mkOperation (js "items/a") (js "t7") (OpDelete (js "content"))])
           (js "k2") bob fixtureLibrary
           (mkReplica (js "rA") (js "alice") Realtime (Some (js "t3")) 999000)).
  - reflexivity.
  - discriminate.
Defined.

(** C6 as stated fails: [bob] names replica [rA], which belongs to [alice];
    the message is rejected, yet no [forbidden] is sent to him. *)
Lemma receive_foreign_replica_sends_no_forbidden :
  exists owner,
    ReplicaInfos.get (js "rA") (replicas fixtureLibrary) = Some owner
    /\ clientId owner <> userId bob
    /\ ~ In (Send (js "k2") Forbidden)
            (sent (snd (receive reliableEnv (MsgAck (js "rA") (js "t9")) (js "k2") bob
                                fixtureLibrary))).
Proof.
  eexists. split; [ reflexivity | ]. split.
  - discriminate.
  - vm_compute. intros H. exact H.
Qed.

(* ================================================================== *)
(** * The authority: scheduling of rebase passes *)
(* ================================================================== *)

(** [enqueueRebase] never stores the timeout it creates, so its guard is
    always open: each call schedules one more pass. *)
Lemma enqueueRebase_schedules_again :
  forall lib,
    pendingRebaseTimeout lib = None ->
    enqueueRebase lib = (Ok tt, setTimeout RebaseTimeout lib)
    /\ pendingRebaseTimeout (setTimeout RebaseTimeout lib) = None
    /\ pendingRebases (setTimeout RebaseTimeout lib) = S (pendingRebases lib).
Proof.
  intros lib Hnone. unfold enqueueRebase, bind, gets, modify. rewrite Hnone.
  split; [ reflexivity | split ].
  - exact Hnone.
  - unfold pendingRebases, setTimeout. cbn [timeouts].
    rewrite filter_app, length_app. simpl. lia.
Qed.

(** C5 fails on the code: two op messages handled before any timeout runs
    leave two rebase passes pending. *)
Theorem two_operations_schedule_two_rebases :
  let first := MsgOp (js "rA") [mkOperation (js "items/a") (js "t7") (OpSet (js "content") JNull)] in
  let second := MsgOp (js "rA") [mkOperation (js "items/a") (js "t8") (OpSet (js "content") JNull)] in
  let lib1 := snd (receive reliableEnv first (js "k1") alice fixtureLibrary) in
  let lib2 := snd (receive reliableEnv second (js "k1") alice lib1) in
  pendingRebases fixtureLibrary = 0
  /\ pendingRebases lib1 = 1
  /\ pendingRebases lib2 = 2.
Proof. vm_compute. repeat split. Qed.

(* ================================================================== *)
(** * The authority: rebroadcast *)
(* ================================================================== *)



(* ================================================================== *)
(** * The authority: acknowledgements *)
(* ================================================================== *)

Lemma updateAcknowledged_ok :
  forall env replica ts info s,
    noFaults env ->
    updateAcknowledged env replica ts info s
    = let s1 := set_replicas (ReplicaInfos.updateAcknowledged replica ts) s in
      (Ok tt,
       match getGlobalAck env [] s1 with
       | Some newAck =>
           if truthy newAck
              && negb (match getGlobalAck env [] s with
                       | Some prior => eqb prior newAck
                       | None => false
                       end)
           then deliver (Broadcast (GlobalAck newAck) []) s1
           else s1
       | None => s1
       end).
Proof.
  intros env replica ts info s Hok.
  unfold updateAcknowledged, bind, gets, broadcast, modify, ret.
  rewrite storage_ok by apply Hok. cbv zeta.
  destruct (getGlobalAck env [] (set_replicas (ReplicaInfos.updateAcknowledged replica ts) s))
    as [newAck | ]; [ | reflexivity ].
  destruct (truthy newAck && _); reflexivity.
Qed.

Lemma get_updateAcknowledged :
  forall replica ts table,
    ReplicaInfos.get replica (ReplicaInfos.updateAcknowledged replica ts table)
    = option_map (ReplicaInfos.acknowledge ts) (ReplicaInfos.get replica table).
Proof.
  intros replica ts table. unfold ReplicaInfos.get, ReplicaInfos.updateAcknowledged.
  induction table as [ | r table IH ]; [ reflexivity | ].
  simpl. destruct (eqb (id r) replica) eqn:E; simpl; rewrite E; [ reflexivity | exact IH ].
Qed.

Lemma last_operation_timestamp :
  forall (ops : list Operation) (ts : Timestamp),
    match last (map Some ops) None with
    | Some lastOperation => op_timestamp lastOperation
    | None => ts
    end = spec_ackedTimestamp ops ts.
Proof.
  intros ops ts. unfold spec_ackedTimestamp.
  destruct ops as [ | o ops ] using rev_ind; [ reflexivity | ].
  rewrite map_app, rev_app_distr. simpl. now rewrite last_last.
Qed.

Lemma min_le_l : forall a b, leb (ReplicaInfos.min a b) a = true.
Proof.
  intros a b. unfold ReplicaInfos.min. destruct (ltb b a) eqn:E.
  - now apply ltb_leb.
  - apply leb_refl.
Qed.

Lemma min_le_r : forall a b, leb (ReplicaInfos.min a b) b = true.
Proof.
  intros a b. unfold ReplicaInfos.min. destruct (ltb b a) eqn:E.
  - apply leb_refl.
  - rewrite ltb_nleb in E. now apply negb_false_iff in E.
Qed.

Lemma min_mono :
  forall a b a' b',
    leb a a' = true -> leb b b' = true ->
    leb (ReplicaInfos.min a b) (ReplicaInfos.min a' b') = true.
Proof.
  intros a b a' b' Ha Hb. unfold ReplicaInfos.min at 2. destruct (ltb b' a').
  - apply leb_trans with b; [ apply min_le_r | exact Hb ].
  - apply leb_trans with a; [ apply min_le_l | exact Ha ].
Qed.

Lemma minAcked_cons :
  forall a b rest,
    ReplicaInfos.minAcked (a :: b :: rest)
    = match a, ReplicaInfos.minAcked (b :: rest) with
      | Some x, Some y => Some (ReplicaInfos.min x y)
      | _, _ => None
      end.
Proof. reflexivity. Qed.

Lemma minAcked_mono :
  forall l l', Forall2 ackLe l l' -> ackLe (ReplicaInfos.minAcked l) (ReplicaInfos.minAcked l').
Proof.
  intros l l' H. induction H as [ | a a' l l' Ha Hl IH ]; [ exact I | ].
  destruct Hl as [ | b b' l l' Hb Hl ]; [ exact Ha | ].
  rewrite !minAcked_cons.
  destruct a as [x | ]; [ | exact I ].
  destruct (ReplicaInfos.minAcked (b :: l)) as [y | ] eqn:Ey; [ | exact I ].
  destruct a' as [x' | ]; [ | contradiction ].
  destruct (ReplicaInfos.minAcked (b' :: l')) as [y' | ] eqn:Ey'; [ | contradiction ].
  simpl in *. now apply min_mono.
Qed.

Lemma minAcked_truthy :
  forall l n,
    Forall (fun a => match a with Some ts => truthy ts = true | None => True end) l ->
    ReplicaInfos.minAcked l = Some n -> truthy n = true.
Proof.
  intros l. induction l as [ | a l IH ]; intros n Hall Hmin; [ discriminate | ].
  inversion Hall as [ | ? ? Ha Hl ]; subst.
  destruct l as [ | b l ].
  - simpl in Hmin. subst a. exact Ha.
  - rewrite minAcked_cons in Hmin.
    destruct a as [x | ]; [ | discriminate Hmin ].
    destruct (ReplicaInfos.minAcked (b :: l)) as [y | ] eqn:Erest;
      [ | discriminate Hmin ].
    injection Hmin as <-. unfold ReplicaInfos.min.
    destruct (ltb y x); [ now apply IH | exact Ha ].
Qed.

Lemma qualifies_acknowledge :
  forall tm nw override ts r,
    ReplicaInfos.qualifies tm nw override (ReplicaInfos.acknowledge ts r)
    = ReplicaInfos.qualifies tm nw override r.
Proof. reflexivity. Qed.

Lemma filter_map_invariant :
  forall (A : Type) (p : A -> bool) (f : A -> A) (l : list A),
    (forall x, p (f x) = p x) -> filter p (map f l) = map f (filter p l).
Proof.
  intros A p f l H. induction l as [ | x l IH ]; [ reflexivity | ].
  simpl. rewrite H. destruct (p x); simpl; now rewrite IH.
Qed.

Lemma acknowledged_le :
  forall replica ts r,
    ackLe (ackedLogicalTime r)
          (ackedLogicalTime (if eqb (id r) replica then ReplicaInfos.acknowledge ts r else r)).
Proof.
  intros replica ts r. destruct (eqb (id r) replica); simpl.
  - destruct (ackedLogicalTime r) as [c | ]; simpl; [ apply max_ge_l | exact I ].
  - destruct (ackedLogicalTime r) as [c | ]; simpl; [ apply leb_refl | exact I ].
Qed.

Lemma max_truthy :
  forall a b, truthy a = true -> truthy b = true -> truthy (JsString.max a b) = true.
Proof. intros a b Ha Hb. unfold JsString.max. destruct (ltb b a); assumption. Qed.

(** The global ack after an acknowledgement is at or after the one before. *)
Lemma getGlobalAck_updateAcknowledged :
  forall tm nw override replica ts table,
    ackLe (ReplicaInfos.getGlobalAck tm nw override table)
          (ReplicaInfos.getGlobalAck tm nw override
             (ReplicaInfos.updateAcknowledged replica ts table)).
Proof.
  intros tm nw override replica ts table.
  unfold ReplicaInfos.getGlobalAck, ReplicaInfos.updateAcknowledged.
  rewrite filter_map_invariant
    by (intros x; destruct (eqb (id x) replica); reflexivity).
  apply minAcked_mono.
  induction (filter (ReplicaInfos.qualifies tm nw override) table) as [ | r l IH ];
    simpl; constructor; [ apply acknowledged_le | exact IH ].
Qed.

Lemma getGlobalAck_truthy :
  forall tm nw override replica ts table n,
    truthy ts = true ->
    ackedAreTimestamps table = true ->
    ReplicaInfos.getGlobalAck tm nw override
      (ReplicaInfos.updateAcknowledged replica ts table) = Some n ->
    truthy n = true.
Proof.
  intros tm nw override replica ts table n Hts Htable.
  unfold ReplicaInfos.getGlobalAck. apply minAcked_truthy.
  apply Forall_forall. intros a Ha.
  apply in_map_iff in Ha. destruct Ha as [r [<- Hr]].
  apply filter_In in Hr. destruct Hr as [Hr _].
  unfold ReplicaInfos.updateAcknowledged in Hr.
  apply in_map_iff in Hr. destruct Hr as [r0 [<- Hr0]].
  unfold ackedAreTimestamps in Htable. rewrite forallb_forall in Htable.
  specialize (Htable r0 Hr0).
  destruct (eqb (id r0) replica); simpl.
  - destruct (ackedLogicalTime r0) as [c | ]; [ now apply max_truthy | exact Hts ].
  - destruct (ackedLogicalTime r0) as [c | ]; [ exact Htable | exact I ].
Qed.

(** C8: an ack message sets the sender's acknowledgement to the greater of
    its current value and the message's timestamp, and [global-ack] with the
    new global ack is broadcast to every peer exactly when the global ack
    went forward. *)
Theorem handleAck_updates_and_announces :
  forall (env : Env) (replica : jsstring) (ts : Timestamp)
         (clientKey : jsstring) (info : TokenInfo) (lib : ServerLibrary),
    noFaults env ->
    truthy ts = true ->
    ackedAreTimestamps (replicas lib) = true ->
    let lib' := snd (handleAck env replica ts clientKey info lib) in
    let prior := getGlobalAck env [] lib in
    let new := getGlobalAck env [] lib' in
    replicas lib' = ReplicaInfos.updateAcknowledged replica ts (replicas lib)
    /\ ReplicaInfos.get replica (replicas lib')
       = option_map (fun r => mkReplica (id r) (clientId r) (type r)
                                (Some (match ackedLogicalTime r with
                                       | Some current => JsString.max current ts
                                       | None => ts
                                       end))
                                (lastSeen r))
                    (ReplicaInfos.get replica (replicas lib))
    /\ sent lib'
       = sent lib ++ (if advanced prior new
                      then match new with
                           | Some newAck => [Broadcast (GlobalAck newAck) []]
                           | None => []
                           end
                      else []).
Proof.
  intros env replica ts clientKey info lib Hok Hts Htable. cbv zeta.
  unfold handleAck. rewrite updateAcknowledged_ok by exact Hok. cbv zeta.
  unfold getGlobalAck. cbn [replicas set_replicas snd].
  pose proof (getGlobalAck_updateAcknowledged (replicaTruancyMinutes env) (now env) []
                replica ts (replicas lib)) as Hle.
  pose proof (@getGlobalAck_truthy (replicaTruancyMinutes env) (now env) []
                replica ts (replicas lib)) as Htruthy.
  destruct (ReplicaInfos.getGlobalAck (replicaTruancyMinutes env) (now env) []
              (ReplicaInfos.updateAcknowledged replica ts (replicas lib)))
    as [newAck | ] eqn:Enew.
  - specialize (Htruthy newAck Hts Htable eq_refl). rewrite Htruthy.
    destruct (ReplicaInfos.getGlobalAck (replicaTruancyMinutes env) (now env) []
                (replicas lib)) as [p | ] eqn:Eprior; simpl in Hle.
    + destruct (eqb p newAck) eqn:Eeq; cbn.
      * apply eqb_eq in Eeq. subst p. rewrite Enew. cbn.
        rewrite ltb_irrefl, app_nil_r.
        split; [ reflexivity | split; [ apply get_updateAcknowledged | reflexivity ] ].
      * rewrite Enew. cbn.
        assert (Hlt : ltb p newAck = true).
        { apply leb_lt_or_eq in Hle. destruct Hle as [Hlt | Heq]; [ exact Hlt | ].
          subst p. rewrite eqb_refl in Eeq. discriminate. }
        rewrite Hlt.
        split; [ reflexivity | split; [ apply get_updateAcknowledged | reflexivity ] ].
    + cbn. rewrite Enew. cbn.
      split; [ reflexivity | split; [ apply get_updateAcknowledged | reflexivity ] ].
  - cbn. rewrite Enew.
    assert (Hadv : forall p, advanced p None = false) by (intros [ | ]; reflexivity).
    rewrite Hadv, app_nil_r.
    split; [ reflexivity | split; [ apply get_updateAcknowledged | reflexivity ] ].
Qed.

(** [rA] acknowledges [t7]: the global ack goes from [t3] to [t5]. *)
Lemma handleAck_updates_and_announces_witness :
  ReplicaInfos.get (js "rA")
    (replicas (snd (handleAck reliableEnv (js "rA") (js "t7") (js "k1") alice fixtureLibrary)))
  = Some (mkReplica (js "rA") (js "alice") Realtime (Some (js "t7")) 999000)
  /\ sent (snd (handleAck reliableEnv (js "rA") (js "t7") (js "k1") alice fixtureLibrary))
     = [Broadcast (GlobalAck (js "t5")) []].
Proof.
  destruct (@handleAck_updates_and_announces reliableEnv (js "rA") (js "t7") (js "k1")
              alice fixtureLibrary (fun _ => eq_refl) eq_refl eq_refl)
    as [_ [Hget Hsent]].
  split; [ exact Hget | exact Hsent ].
Defined.

(* ================================================================== *)
(** * The authority: sync-step2 *)
(* ================================================================== *)

Lemma handleSyncStep2_ok :
  forall env replica ops bs ts clientKey info lib,
    noFaults env ->
    hasWriteAccess info = true ->
    handleSyncStep2 env replica ops bs ts clientKey info lib
    = updateAcknowledged env replica (spec_ackedTimestamp ops ts) info
                         (afterStep2Inserts env replica ops bs clientKey lib).
Proof.
  intros env replica ops bs ts clientKey info lib Hok Hw.
  unfold handleSyncStep2. rewrite Hw. cbn [negb].
  unfold bind at 1. rewrite storage_ok by apply Hok.
  unfold bind at 1. rewrite storage_ok by apply Hok.
  unfold bind at 1.
  assert (Hre : rebroadcastOperations env clientKey replica ops bs
                  (set_operations (OperationHistory.insertAll replica ops)
                                  (set_baselines (Baselines.insertAll bs) lib))
                = (Ok tt, afterStep2Inserts env replica ops bs clientKey lib)).
  { unfold rebroadcastOperations, afterStep2Inserts, bind, gets, broadcast, modify,
      ret, deliver.
    destruct ops as [ | o ops ]; [ destruct bs as [ | b bs ] | ]; simpl;
      rewrite ?app_nil_r; reflexivity. }
  rewrite Hre. clear Hre.
  rewrite <- (last_operation_timestamp ops ts).
  destruct (last (map Some ops) None); reflexivity.
Qed.

(** C7: a sync-step2 message of a read-only sender is answered [forbidden]
    and changes nothing else; otherwise its baselines and then its operations
    are stored, both are rebroadcast to the peers (everyone but the sender),
    and the sender's acknowledgement is updated with the timestamp of the last
    operation, or with the message's timestamp when it has no operation. *)
Theorem handleSyncStep2_persists_and_acknowledges :
  forall (env : Env) (replica : jsstring) (ops : list Operation)
         (bs : list DocumentBaseline) (ts : Timestamp)
         (clientKey : jsstring) (info : TokenInfo) (lib : ServerLibrary),
    noFaults env ->
    let lib' := snd (handleSyncStep2 env replica ops bs ts clientKey info lib) in
    if hasWriteAccess info
    then
      baselines lib' = Baselines.insertAll bs (baselines lib)
      /\ operations lib' = OperationHistory.insertAll replica ops (operations lib)
      /\ replicas lib'
         = ReplicaInfos.updateAcknowledged replica (spec_ackedTimestamp ops ts) (replicas lib)
      /\ ReplicaInfos.get replica (replicas lib')
         = option_map (ReplicaInfos.acknowledge (spec_ackedTimestamp ops ts))
                      (ReplicaInfos.get replica (replicas lib))
      /\ exists announced,
           sent lib'
           = sent lib
             ++ match ops, bs with
                | [], [] => []
                | _, _ => [Broadcast (OpRe ops bs replica (getGlobalAck env [] lib)) [clientKey]]
                end
             ++ announced
           /\ forallb isGlobalAck announced = true
    else
      lib' = deliver (Send clientKey Forbidden) lib.
Proof.
  intros env replica ops bs ts clientKey info lib Hok.
  destruct (hasWriteAccess info) eqn:Hw.
  - rewrite handleSyncStep2_ok by assumption.
    rewrite updateAcknowledged_ok by exact Hok. cbv zeta.
    match goal with
    | |- context [match ?g with Some _ => _ | None => _ end] =>
        destruct g as [newAck | ]
    end.
    + match goal with
      | |- context [if ?c then _ else _] => destruct c
      end; cbn;
        (split; [ reflexivity | split; [ reflexivity | split; [ reflexivity | split ] ] ]);
        try apply get_updateAcknowledged.
      * exists [Broadcast (GlobalAck newAck) []]. rewrite <- app_assoc. split; reflexivity.
      * exists []. rewrite app_nil_r. split; reflexivity.
    + cbn.
      split; [ reflexivity | split; [ reflexivity | split; [ reflexivity | split ] ] ].
      * apply get_updateAcknowledged.
      * exists []. rewrite app_nil_r. split; reflexivity.
  - unfold handleSyncStep2. rewrite Hw. reflexivity.
Qed.

(** [rA] uploads one baseline and one operation. *)
Lemma handleSyncStep2_persists_and_acknowledges_witness :
  let lib' := snd (handleSyncStep2 reliableEnv (js "rA")
                     [mkOperation (js "items/c") (js "t8") (OpInitialize (JObj []))]
                     [mkBaseline (js "items/d") (JObj []) (js "t7")]
                     (js "t9") (js "k1") alice fixtureLibrary) in
  baselines lib' = [mkBaseline (js "items/d") (JObj []) (js "t7")]
  /\ In (mkItem (js "items/c") (js "t8") (OpInitialize (JObj [])) (js "rA")) (operations lib')
  /\ ReplicaInfos.get (js "rA") (replicas lib')
     = Some (mkReplica (js "rA") (js "alice") Realtime (Some (js "t8")) 999000).
Proof.
  pose proof (@handleSyncStep2_persists_and_acknowledges reliableEnv (js "rA")
                [mkOperation (js "items/c") (js "t8") (OpInitialize (JObj []))]
                [mkBaseline (js "items/d") (JObj []) (js "t7")]
                (js "t9") (js "k1") alice fixtureLibrary (fun _ => eq_refl)) as H.
  cbv zeta in H. change (hasWriteAccess alice) with true in H. cbv iota in H.
  destruct H as [Hb [Ho [_ [Hr _]]]].
  cbv zeta. split; [ exact Hb | split; [ | exact Hr ] ].
  rewrite Ho. vm_compute. tauto.
Defined.

(* ================================================================== *)
(** * The authority: transactions *)
(* ================================================================== *)

(** Op ingestion runs inside [db.transaction]: when the insert fails the
    library is as it was. *)
Lemma handleOperation_is_atomic :
  forall env replica ops clientKey info lib,
    hasWriteAccess info = true ->
    fails env OperationsInsertAll = true ->
    handleOperation env replica ops clientKey info lib
    = (Thrown (StorageError OperationsInsertAll), lib).
Proof.
  intros env replica ops clientKey info lib Hw Hf.
  unfold handleOperation, transaction, storage, bind. rewrite Hw, Hf. simpl.
  destruct lib; reflexivity.
Qed.

(** C4 fails on the code: sync-step2 and the rebase of a document are not
    transactions.  When the insert of the operations fails, the baselines of
    the sync-step2 message stay stored; when the drop of the operations fails
    during a rebase, the baseline has been rewritten and the operations it
    now contains are still in the log. *)
Theorem sync_step2_and_rebase_are_not_atomic :
  let ops := [mkOperation (js "items/c") (js "t8") (OpInitialize (JObj []))] in
  let bs := [mkBaseline (js "items/d") (JObj []) (js "t7")] in
  let step2 := handleSyncStep2 (failingAt OperationsInsertAll) (js "rA") ops bs
                               (js "t9") (js "k1") alice fixtureLibrary in
  let rebased := rebase (failingAt OperationsDropAll) fixtureLibrary in
  (fst step2 = Thrown (StorageError OperationsInsertAll)
   /\ baselines fixtureLibrary = []
   /\ baselines (snd step2) = bs
   /\ operations (snd step2) = operations fixtureLibrary)
  /\ (fst rebased = Thrown (StorageError OperationsDropAll)
      /\ baselines (snd rebased)
         = [mkBaseline (js "items/a") (JObj [(js "content", JStr (js "pears"))]) (js "t2")]
      /\ operations (snd rebased) = operations fixtureLibrary).
Proof. vm_compute. repeat split. Qed.

(* ================================================================== *)
(** * The authority: rebase *)
(* ================================================================== *)

Lemma get_upsert_same :
  forall b table, Baselines.get (b_oid b) (Baselines.upsert b table) = Some b.
Proof.
  intros b table. unfold Baselines.get.
  induction table as [ | b' table IH ]; simpl.
  - now rewrite eqb_refl.
  - destruct (eqb (b_oid b') (b_oid b)) eqn:E; simpl.
    + now rewrite eqb_refl.
    + rewrite E. exact IH.
Qed.

Lemma get_upsert_other :
  forall o b table,
    b_oid b <> o -> Baselines.get o (Baselines.upsert b table) = Baselines.get o table.
Proof.
  intros o b table Hne. unfold Baselines.get. apply eqb_neq in Hne.
  induction table as [ | b' table IH ]; simpl.
  - now rewrite Hne.
  - destruct (eqb (b_oid b') (b_oid b)) eqn:E; simpl.
    + apply eqb_eq in E. rewrite E, Hne. reflexivity.
    + destruct (eqb (b_oid b') o); [ reflexivity | exact IH ].
Qed.

Lemma get_applyOperations_other :
  forall patch o o' ops table,
    o' <> o ->
    Baselines.get o (Baselines.applyOperations patch o' ops table) = Baselines.get o table.
Proof.
  intros patch o o' ops table Hne. unfold Baselines.applyOperations.
  destruct ops as [ | first rest ]; [ reflexivity | ].
  now apply get_upsert_other.
Qed.

Lemma get_applyOperations_same :
  forall patch o ops table,
    ops <> [] ->
    exists b,
      Baselines.get o (Baselines.applyOperations patch o ops table) = Some b
      /\ b_snapshot b = fold_left patch (map data ops) (Baselines.priorSnapshot o table).
Proof.
  intros patch o ops table Hne. unfold Baselines.applyOperations.
  destruct ops as [ | first rest ]; [ congruence | ].
  eexists. split.
  - apply (get_upsert_same (mkBaseline o _ _)).
  - reflexivity.
Qed.

Lemma Permutation_filter :
  forall (A : Type) (p : A -> bool) (l l' : list A),
    Permutation l l' -> Permutation (filter p l) (filter p l').
Proof.
  intros A p l l' H. induction H as [ | x l l' H IH | x y l | l l' l'' H1 IH1 H2 IH2 ].
  - constructor.
  - simpl. destruct (p x); [ now constructor | exact IH ].
  - simpl. destruct (p x), (p y); try apply Permutation_refl. apply perm_swap.
  - now apply Permutation_trans with (filter p l').
Qed.

Lemma StronglySorted_filter :
  forall (A : Type) (R : A -> A -> Prop) (p : A -> bool) (l : list A),
    StronglySorted R l -> StronglySorted R (filter p l).
Proof.
  intros A R p l H. induction H as [ | x l Hl IH Hx ]; simpl; [ constructor | ].
  destruct (p x); [ | exact IH ].
  constructor; [ exact IH | ].
  rewrite Forall_forall in *. intros y Hy. apply filter_In in Hy. apply Hx. tauto.
Qed.

Lemma filter_filter_and :
  forall (A : Type) (p q : A -> bool) (l : list A),
    filter p (filter q l) = filter (fun x => p x && q x) l.
Proof.
  intros A p q l. induction l as [ | x l IH ]; [ reflexivity | ].
  simpl. destruct (q x); simpl.
  - rewrite andb_true_r. destruct (p x); now rewrite IH.
  - rewrite andb_false_r. exact IH.
Qed.

(** The operations [getBefore] returns: those before the timestamp, each
    once, by ascending timestamp. *)
Lemma getBefore_permutation :
  forall ack log,
    Permutation (OperationHistory.getBefore ack log)
                (filter (fun item => ltb (timestamp item) ack) log).
Proof.
  intros ack log. unfold OperationHistory.getBefore.
  apply Permutation_sym. apply TimestampSort.Permuted_sort.
Qed.

Lemma getBefore_sorted :
  forall ack log,
    StronglySorted (fun x y => leb (timestamp x) (timestamp y) = true)
                   (OperationHistory.getBefore ack log).
Proof.
  intros ack log. unfold OperationHistory.getBefore.
  apply (TimestampSort.StronglySorted_sort).
  intros x y z Hxy Hyz. unfold is_true, ByTimestamp.leb in *.
  now apply leb_trans with (timestamp y).
Qed.

Lemma getBefore_In :
  forall ack log item,
    In item (OperationHistory.getBefore ack log)
    <-> In item log /\ ltb (timestamp item) ack = true.
Proof.
  intros ack log item.
  rewrite <- (filter_In (fun item => ltb (timestamp item) ack)). split; intros H.
  - eapply Permutation_in; [ apply getBefore_permutation | exact H ].
  - eapply Permutation_in; [ apply Permutation_sym, getBefore_permutation | exact H ].
Qed.

(** ** The buckets of the first loop *)

Lemma isOid_not_inherited :
  forall o, isOid o = true -> existsb (eqb o) inheritedKeys = false.
Proof.
  intros o Hoid. destruct (existsb (eqb o) inheritedKeys) eqn:E; [ | reflexivity ].
  apply existsb_exists in E. destruct E as [k [Hk Heq]]. apply eqb_eq in Heq. subst k.
  unfold inheritedKeys in Hk. simpl in Hk.
  repeat (destruct Hk as [<- | Hk]; [ discriminate Hoid | ]). contradiction.
Qed.

Lemma push_keys :
  forall o op table,
    map fst (push o op table)
    = if existsb (eqb o) (map fst table) then map fst table else map fst table ++ [o].
Proof.
  intros o op table. induction table as [ | [k l] table IH ]; [ reflexivity | ].
  simpl. rewrite (eqb_sym o k). destruct (eqb k o) eqn:E; simpl; [ reflexivity | ].
  rewrite IH. destruct (existsb (eqb o) (map fst table)); reflexivity.
Qed.

Lemma existsb_eqb_In :
  forall o (keys : list jsstring), existsb (eqb o) keys = true <-> In o keys.
Proof.
  intros o keys. rewrite existsb_exists. split.
  - intros [k [Hk Heq]]. apply eqb_eq in Heq. now subst.
  - intros H. exists o. split; [ exact H | apply eqb_refl ].
Qed.

Lemma push_In :
  forall o op table k l,
    NoDup (map fst table) ->
    In (k, l) (push o op table) ->
    (k <> o /\ In (k, l) table)
    \/ (k = o /\ exists l0, l = l0 ++ [op]
                            /\ (In (o, l0) table \/ (l0 = [] /\ ~ In o (map fst table)))).
Proof.
  intros o op table k l. induction table as [ | [k0 l0] table IH ]; intros Hnd Hin.
  - simpl in Hin. destruct Hin as [Heq | []]. injection Heq as <- <-.
    right. split; [ reflexivity | ]. exists []. split; [ reflexivity | ]. right. auto.
  - simpl in Hnd. inversion Hnd as [ | ? ? Hk0 Hnd' ]; subst.
    simpl in Hin. destruct (eqb k0 o) eqn:E.
    + apply eqb_eq in E. subst k0. destruct Hin as [Heq | Hin].
      * injection Heq as <- <-. right. split; [ reflexivity | ].
        exists l0. split; [ reflexivity | ]. left. left. reflexivity.
      * left. split; [ | right; exact Hin ].
        intros ->. apply Hk0. apply in_map_iff. exists (o, l). auto.
    + apply eqb_neq in E. destruct Hin as [Heq | Hin].
      * injection Heq as <- <-. left. split; [ exact E | left; reflexivity ].
      * destruct (IH Hnd' Hin) as [[Hne Hold] | [-> [l1 [-> Hl1]]]].
        -- left. split; [ exact Hne | right; exact Hold ].
        -- right. split; [ reflexivity | ]. exists l1. split; [ reflexivity | ].
           destruct Hl1 as [Hl1 | [-> Hl1]].
           ++ left. right. exact Hl1.
           ++ right. split; [ reflexivity | ].
              simpl. intros [H | H]; [ exact (E H) | exact (Hl1 H) ].
Qed.

Lemma bucketOps_bucketed :
  forall ack ops,
    Forall (fun item => ltb (timestamp item) ack = true /\ isOid (oid item) = true) ops ->
    exists table,
      fold_left (bucketStep ack) ops ([], []) = (table, [])
      /\ bucketed ops table.
Proof.
  intros ack ops. induction ops as [ | x ops IH ] using rev_ind; intros Hall.
  - exists []. split; [ reflexivity | ]. constructor.
    + constructor.
    + intros k l [].
    + intros item [].
  - apply Forall_app in Hall. destruct Hall as [Hops Hx].
    inversion Hx as [ | ? ? [Hlt Hoid] _ ]; subst.
    destruct (IH Hops) as [table [Hfold [Hkeys Hcontent Hcover]]].
    exists (push (oid x) x table). split.
    + rewrite fold_left_app, Hfold. simpl. unfold lookupHardStop.
      rewrite (isOid_not_inherited _ Hoid), Hlt. reflexivity.
    + constructor.
      * rewrite push_keys. destruct (existsb (eqb (oid x)) (map fst table)) eqn:E.
        -- exact Hkeys.
        -- apply NoDup_app_remove_l with (l := []). simpl.
           apply Permutation_NoDup with (l := oid x :: map fst table).
           ++ apply Permutation_cons_append.
           ++ constructor; [ | exact Hkeys ].
              intros Hin. apply existsb_eqb_In in Hin. congruence.
      * intros k l Hin. rewrite filter_app. simpl.
        destruct (push_In _ _ _ _ _ Hkeys Hin) as [[Hne Hold] | [-> [l0 [-> Hl0]]]].
        -- destruct (Hcontent k l Hold) as [-> Hnonempty].
           assert (E : eqb (oid x) k = false) by (apply eqb_neq; congruence).
           rewrite E, app_nil_r. split; [ reflexivity | exact Hnonempty ].
        -- rewrite eqb_refl. split; [ | intros H; now apply app_eq_nil in H ].
           f_equal. destruct Hl0 as [Hl0 | [-> Hl0]].
           ++ now destruct (Hcontent _ _ Hl0).
           ++ destruct (filter (fun item => eqb (oid item) (oid x)) ops) as [ | y rest ] eqn:Ef;
                [ reflexivity | ].
              exfalso. apply Hl0.
              assert (Hy : In y (filter (fun item => eqb (oid item) (oid x)) ops))
                by (rewrite Ef; left; reflexivity).
              apply filter_In in Hy. destruct Hy as [Hy Hoy]. apply eqb_eq in Hoy.
              rewrite <- Hoy. now apply Hcover.
      * intros item Hin. rewrite push_keys.
        assert (Hgoal : In (oid item) (map fst table ++ [oid x])).
        { apply in_or_app. apply in_app_or in Hin. destruct Hin as [Hin | [<- | []]].
          - left. now apply Hcover.
          - right. left. reflexivity. }
        destruct (existsb (eqb (oid x)) (map fst table)) eqn:E; [ | exact Hgoal ].
        apply in_app_or in Hgoal. destruct Hgoal as [H | [<- | []]]; [ exact H | ].
        now apply existsb_eqb_In.
Qed.

(** ** The second loop: one baseline write and one drop per bucket *)

Lemma forEach_rebaseDocument_ok :
  forall env buckets s,
    noFaults env ->
    forEach (rebaseDocument env) buckets s
    = (Ok tt,
       mkLibrary (replicas s)
                 (rebasedOperations buckets (operations s))
                 (rebasedBaselines (applyPatch env) buckets (baselines s))
                 (presences s) (sent s) (pendingRebaseTimeout s) (timeouts s)).
Proof.
  intros env buckets. induction buckets as [ | [k l] buckets IH ]; intros s Hok.
  - destruct s; reflexivity.
  - cbn [forEach]. unfold bind at 1. unfold rebaseDocument.
    unfold bind at 1. rewrite storage_ok by apply Hok.
    rewrite storage_ok by apply Hok. rewrite IH by exact Hok. reflexivity.
Qed.

Lemma rebasedOperations_filter :
  forall buckets log,
    rebasedOperations buckets log
    = filter (fun item =>
                negb (existsb (fun entry =>
                                 OperationHistory.hasKey (oid item) (timestamp item) (snd entry))
                              buckets))
             log.
Proof.
  unfold rebasedOperations.
  intros buckets. induction buckets as [ | entry buckets IH ]; intros log; simpl.
  - induction log as [ | x log IHlog ]; [ reflexivity | ]. simpl. now rewrite <- IHlog.
  - rewrite IH. unfold OperationHistory.dropAll. rewrite filter_filter_and.
    apply filter_ext. intros item. rewrite negb_orb. apply andb_comm.
Qed.

Lemma hasKey_self :
  forall item l, In item l -> OperationHistory.hasKey (oid item) (timestamp item) l = true.
Proof.
  intros item l Hin. unfold OperationHistory.hasKey. apply existsb_exists.
  exists item. split; [ exact Hin | ].
  unfold OperationHistory.sameKey. now rewrite !eqb_refl.
Qed.

(** An operation is dropped by some bucket exactly when it is before the
    global ack. *)
Lemma dropped_iff_before :
  forall ack log table item,
    bucketed (OperationHistory.getBefore ack log) table ->
    In item log ->
    existsb (fun entry => OperationHistory.hasKey (oid item) (timestamp item) (snd entry)) table
    = ltb (timestamp item) ack.
Proof.
  intros ack log table item [Hkeys Hcontent Hcover] Hin.
  destruct (ltb (timestamp item) ack) eqn:Hlt.
  - apply existsb_exists.
    assert (Hitem : In item (OperationHistory.getBefore ack log))
      by (apply getBefore_In; auto).
    pose proof (Hcover item Hitem) as Hk.
    apply in_map_iff in Hk. destruct Hk as [[k l] [Hk Hentry]]. simpl in Hk. subst k.
    exists (oid item, l). split; [ exact Hentry | ]. simpl.
    apply hasKey_self. destruct (Hcontent _ _ Hentry) as [-> _].
    apply filter_In. split; [ exact Hitem | apply eqb_refl ].
  - destruct (existsb _ table) eqn:E; [ | reflexivity ].
    apply existsb_exists in E. destruct E as [[k l] [Hentry Hkey]]. simpl in Hkey.
    unfold OperationHistory.hasKey in Hkey. apply existsb_exists in Hkey.
    destruct Hkey as [y [Hy Hsame]].
    unfold OperationHistory.sameKey in Hsame. apply andb_true_iff in Hsame.
    destruct Hsame as [_ Hts]. apply eqb_eq in Hts.
    destruct (Hcontent _ _ Hentry) as [-> _].
    apply filter_In in Hy. destruct Hy as [Hy _].
    apply getBefore_In in Hy. destruct Hy as [_ Hy]. congruence.
Qed.

Lemma rebasedBaselines_untouched :
  forall patch buckets table o,
    ~ In o (map fst buckets) ->
    Baselines.get o (rebasedBaselines patch buckets table) = Baselines.get o table.
Proof.
  unfold rebasedBaselines.
  intros patch buckets. induction buckets as [ | [k l] buckets IH ]; intros table o Hnot.
  - reflexivity.
  - simpl. rewrite IH by (intros H; apply Hnot; right; exact H).
    apply get_applyOperations_other. intros ->. apply Hnot. left. reflexivity.
Qed.

Lemma rebasedBaselines_cons :
  forall patch k l buckets table,
    rebasedBaselines patch ((k, l) :: buckets) table
    = rebasedBaselines patch buckets (Baselines.applyOperations patch k l table).
Proof. reflexivity. Qed.

Lemma rebasedBaselines_get :
  forall patch buckets table o l,
    NoDup (map fst buckets) ->
    In (o, l) buckets ->
    l <> [] ->
    exists b,
      Baselines.get o (rebasedBaselines patch buckets table) = Some b
      /\ b_snapshot b = fold_left patch (map data l) (Baselines.priorSnapshot o table).
Proof.
  intros patch buckets. induction buckets as [ | [k l'] buckets IH ];
    intros table o l Hnd Hin Hne; [ contradiction | ].
  simpl in Hnd. inversion Hnd as [ | ? ? Hk Hnd' ]; subst.
  destruct Hin as [Heq | Hin].
  - injection Heq as -> ->.
    rewrite rebasedBaselines_cons.
    rewrite rebasedBaselines_untouched by exact Hk.
    now apply get_applyOperations_same.
  - assert (Hko : k <> o).
    { intros ->. apply Hk. apply in_map_iff. exists (o, l). auto. }
    rewrite rebasedBaselines_cons.
    destruct (IH (Baselines.applyOperations patch k l' table) o l Hnd' Hin Hne)
      as [b [Hget Hsnap]].
    exists b. split; [ exact Hget | ].
    rewrite Hsnap. unfold Baselines.priorSnapshot.
    now rewrite get_applyOperations_other.
Qed.

Lemma filter_all :
  forall (A : Type) (p : A -> bool) (l : list A),
    (forall x, p x = true) -> filter p l = l.
Proof.
  intros A p l H. induction l as [ | x l IH ]; [ reflexivity | ].
  simpl. now rewrite H, IH.
Qed.

Lemma ltb_nil_r : forall a, ltb a [] = false.
Proof. intros [ | x a ]; reflexivity. Qed.

Lemma rebase_ok :
  forall env lib ack,
    noFaults env ->
    getGlobalAck env (activeReplicaIds lib) lib = Some ack ->
    truthy ack = true ->
    let buckets := bucketOps ack (OperationHistory.getBefore ack (operations lib)) in
    rebase env lib
    = (Ok tt,
       mkLibrary (replicas lib)
                 (rebasedOperations buckets (operations lib))
                 (rebasedBaselines (applyPatch env) buckets (baselines lib))
                 (presences lib)
                 (sent lib ++ if List.length buckets =? 0 then []
                              else [Broadcast (GlobalAck ack) []])
                 (pendingRebaseTimeout lib) (timeouts lib)).
Proof.
  intros env lib ack Hok Hack Htruthy. cbv zeta.
  unfold rebase. unfold bind at 1. unfold gets at 1. rewrite Hack, Htruthy. cbn [negb].
  unfold bind at 1. unfold gets at 1. unfold bind at 1.
  rewrite forEach_rebaseDocument_ok by exact Hok.
  destruct (List.length (bucketOps ack (OperationHistory.getBefore ack (operations lib))) =? 0);
    cbn [negb]; unfold broadcast, modify, ret, deliver; cbn; rewrite ?app_nil_r; reflexivity.
Qed.

(** C1: a rebase pass whose global ack (computed with the connected replicas
    as active) is null changes nothing.  With global ack [T], the operations
    left in the log are those not before [T]; and for every object that had
    an operation before [T], the new baseline's snapshot is the result of
    applying the dropped operations, which are the object's operations before
    [T] by ascending timestamp, to its prior baseline (the empty object when
    it had none). *)
Theorem rebase_compacts_acknowledged_operations :
  forall (env : Env) (lib : ServerLibrary),
    noFaults env ->
    Forall (fun item => isOid (oid item) = true) (operations lib) ->
    let lib' := snd (rebase env lib) in
    match getGlobalAck env (activeReplicaIds lib) lib with
    | None => lib' = lib
    | Some T =>
        operations lib'
        = filter (fun item => negb (ltb (timestamp item) T)) (operations lib)
        /\ (forall item, In item (operations lib') -> ltb (timestamp item) T = false)
        /\ (forall o,
               (exists item, In item (operations lib)
                             /\ oid item = o /\ ltb (timestamp item) T = true) ->
               exists dropped b,
                 Permutation dropped
                             (filter (fun item => eqb (oid item) o
                                                  && ltb (timestamp item) T)
                                     (operations lib))
                 /\ StronglySorted (fun x y => leb (timestamp x) (timestamp y) = true) dropped
                 /\ Baselines.get o (baselines lib') = Some b
                 /\ b_snapshot b
                    = fold_left (applyPatch env) (map data dropped)
                                (Baselines.priorSnapshot o (baselines lib)))
    end.
Proof.
  intros env lib Hok Hoids. cbv zeta.
  destruct (getGlobalAck env (activeReplicaIds lib) lib) as [T | ] eqn:Hack.
  2:{ unfold rebase, bind, gets. rewrite Hack. reflexivity. }
  destruct (truthy T) eqn:Htruthy.
  - rewrite (rebase_ok lib Hok Hack Htruthy). cbn [snd operations baselines].
    destruct (@bucketOps_bucketed T (OperationHistory.getBefore T (operations lib)))
      as [table [Hfold Hbucketed]].
    { apply Forall_forall. intros item Hitem. apply getBefore_In in Hitem.
      destruct Hitem as [Hin Hlt]. split; [ exact Hlt | ].
      rewrite Forall_forall in Hoids. now apply Hoids. }
    assert (Hbuckets : bucketOps T (OperationHistory.getBefore T (operations lib)) = table)
      by (unfold bucketOps; now rewrite Hfold).
    rewrite Hbuckets.
    assert (Hops : rebasedOperations table (operations lib)
                   = filter (fun item => negb (ltb (timestamp item) T)) (operations lib)).
    { rewrite rebasedOperations_filter. apply filter_ext_in. intros item Hin.
      now rewrite (@dropped_iff_before T (operations lib) table item Hbucketed Hin). }
    split; [ exact Hops | split ].
    + intros item Hin. rewrite Hops in Hin. apply filter_In in Hin.
      destruct Hin as [_ Hin]. now apply negb_true_iff in Hin.
    + intros o [item [Hin [Ho Hlt]]].
      destruct Hbucketed as [Hkeys Hcontent Hcover].
      assert (Hitem : In item (OperationHistory.getBefore T (operations lib)))
        by (apply getBefore_In; auto).
      pose proof (Hcover item Hitem) as Hk. rewrite Ho in Hk.
      apply in_map_iff in Hk. destruct Hk as [[k l] [Hk Hentry]]. simpl in Hk. subst k.
      destruct (Hcontent _ _ Hentry) as [Hl Hne].
      destruct (@rebasedBaselines_get (applyPatch env) table (baselines lib) o l
                  Hkeys Hentry Hne)
        as [b [Hget Hsnap]].
      exists l, b. split; [ | split; [ | split; assumption ] ].
      * rewrite Hl. rewrite <- filter_filter_and.
        apply Permutation_filter. apply getBefore_permutation.
      * rewrite Hl. apply StronglySorted_filter. apply getBefore_sorted.
  - assert (HT : T = []) by (destruct T; [ reflexivity | discriminate ]). subst T.
    assert (Hsame : snd (rebase env lib) = lib).
    { unfold rebase, bind, gets. rewrite Hack. reflexivity. }
    rewrite Hsame. split; [ | split ].
    + symmetry. apply filter_all. intros item. now rewrite ltb_nil_r.
    + intros item _. apply ltb_nil_r.
    + intros o [item [_ [_ Hlt]]]. rewrite ltb_nil_r in Hlt. discriminate.
Qed.

(** A pass over the fixture library, whose global ack is [t3]. *)
Lemma rebase_compacts_acknowledged_operations_witness :
  getGlobalAck reliableEnv (activeReplicaIds fixtureLibrary) fixtureLibrary = Some (js "t3")
  /\ operations (snd (rebase reliableEnv fixtureLibrary))
     = [ mkItem (js "items/b") (js "t4") (OpSet (js "content") (JStr (js "plums"))) (js "rB");
         mkItem (js "items/a") (js "t6") (OpDelete (js "content")) (js "rB") ]
  /\ exists dropped b,
       Permutation dropped
         [ mkItem (js "items/a") (js "t2") (OpSet (js "content") (JStr (js "pears"))) (js "rA");
           mkItem (js "items/a") (js "t1")
                  (OpInitialize (JObj [(js "content", JStr (js "apples"))])) (js "rA") ]
       /\ Baselines.get (js "items/a") (baselines (snd (rebase reliableEnv fixtureLibrary)))
          = Some b
       /\ b_snapshot b = fold_left fixturePatch (map data dropped) (JObj []).
Proof.
  assert (Hok : noFaults reliableEnv) by (intros call; reflexivity).
  assert (Hoids : Forall (fun item => isOid (oid item) = true) (operations fixtureLibrary))
    by (repeat constructor).
  pose proof (@rebase_compacts_acknowledged_operations reliableEnv fixtureLibrary Hok Hoids)
    as H.
  cbv zeta in H.
  assert (Hack : getGlobalAck reliableEnv (activeReplicaIds fixtureLibrary) fixtureLibrary
                 = Some (js "t3")) by reflexivity.
  rewrite Hack in H. destruct H as [Hops [_ Hbase]].
  split; [ exact Hack | split; [ rewrite Hops; reflexivity | ] ].
  destruct (Hbase (js "items/a")) as [dropped [b [Hperm [_ [Hget Hsnap]]]]].
  - eexists. split; [ left; reflexivity | split; reflexivity ].
  - exists dropped, b. split; [ exact Hperm | split; [ exact Hget | exact Hsnap ] ].
Defined.

(* ================================================================== *)
(** * The authority: what a message can and cannot do *)
(* ================================================================== *)

Section Keeping.

Variable R : ServerLibrary -> ServerLibrary -> Prop.
Hypothesis R_refl : forall s, R s s.
Hypothesis R_trans : forall a b c, R a b -> R b c -> R a c.

Lemma keeps_ret : forall (A : Type) (a : A), keeps R (ret a).
Proof. intros A a s. apply R_refl. Qed.

Lemma keeps_throw : forall (A : Type) (e : Error), keeps R (@throw A e).
Proof. intros A e s. apply R_refl. Qed.

Lemma keeps_gets : forall (A : Type) (f : ServerLibrary -> A), keeps R (gets f).
Proof. intros A f s. apply R_refl. Qed.

Lemma keeps_bind :
  forall (A B : Type) (m : M A) (k : A -> M B),
    keeps R m -> (forall a, keeps R (k a)) -> keeps R (bind m k).
Proof.
  intros A B m k Hm Hk s. unfold bind. specialize (Hm s).
  destruct (m s) as [[a | e] s1]; simpl in *.
  - apply R_trans with s1; [ exact Hm | apply Hk ].
  - exact Hm.
Qed.

Lemma keeps_modify :
  forall f, (forall s, R s (f s)) -> keeps R (modify f).
Proof. intros f Hf s. apply Hf. Qed.

Lemma keeps_storage :
  forall env call write, (forall s, R s (write s)) -> keeps R (storage env call write).
Proof.
  intros env call write Hw s. unfold storage.
  destruct (fails env call); simpl; [ apply R_refl | apply Hw ].
Qed.

Lemma keeps_validateReplicaAccess :
  forall replica info, keeps R (validateReplicaAccess replica info).
Proof.
  intros replica info s. unfold validateReplicaAccess, bind, gets.
  destruct (ReplicaInfos.get replica (replicas s)) as [found | ]; [ | apply R_refl ].
  destruct (negb (eqb (clientId found) (userId info))); apply R_refl.
Qed.

End Keeping.

Lemma sameStores_refl : forall s, sameStores s s.
Proof. intros s. split; reflexivity. Qed.

Lemma sameStores_trans : forall a b c, sameStores a b -> sameStores b c -> sameStores a c.
Proof. intros a b c [H1 H2] [H3 H4]. split; congruence. Qed.

Lemma sendsOnly_refl : forall allowed s, sendsOnly allowed s s.
Proof. intros allowed s. exists []. rewrite app_nil_r. split; [ reflexivity | constructor ]. Qed.

Lemma sendsOnly_trans :
  forall allowed a b c, sendsOnly allowed a b -> sendsOnly allowed b c -> sendsOnly allowed a c.
Proof.
  intros allowed a b c [e1 [H1 F1]] [e2 [H2 F2]]. exists (e1 ++ e2). split.
  - rewrite H2, H1. now rewrite app_assoc.
  - apply Forall_app. split; assumption.
Qed.

Lemma sendsOnly_deliver :
  forall (allowed : Delivery -> Prop) d s, allowed d -> sendsOnly allowed s (deliver d s).
Proof. intros allowed d s Hd. exists [d]. split; [ reflexivity | constructor; [ exact Hd | constructor ] ]. Qed.

Lemma sendsOnly_silent :
  forall allowed s s', sent s' = sent s -> sendsOnly allowed s s'.
Proof. intros allowed s s' H. exists []. rewrite app_nil_r. split; [ exact H | constructor ]. Qed.

(** The combinators keep the operation log and the baselines. *)
Lemma stores_bind :
  forall (A B : Type) (m : M A) (k : A -> M B),
    keeps sameStores m -> (forall a, keeps sameStores (k a)) -> keeps sameStores (bind m k).
Proof. intros; eapply keeps_bind; eauto using sameStores_refl, sameStores_trans. Qed.

Lemma stores_gets : forall (A : Type) (f : ServerLibrary -> A), keeps sameStores (gets f).
Proof. intros; eapply keeps_gets; eauto using sameStores_refl. Qed.

Lemma stores_ret : forall (A : Type) (a : A), keeps sameStores (ret a).
Proof. intros; eapply keeps_ret; eauto using sameStores_refl. Qed.

Lemma stores_set_replicas :
  forall env call f, keeps sameStores (storage env call (set_replicas f)).
Proof.
  intros; eapply keeps_storage; eauto using sameStores_refl.
  intros s; split; reflexivity.
Qed.

Lemma stores_deliver : forall d, keeps sameStores (modify (deliver d)).
Proof. intros d s. split; reflexivity. Qed.

Ltac keep_stores :=
  repeat first
    [ apply stores_ret
    | apply stores_gets
    | apply stores_set_replicas
    | apply stores_deliver
    | apply stores_bind; [ | intro ] ].

(** The handlers that never write operations or baselines. *)
Lemma updateAcknowledged_sameStores :
  forall env replica ts info, keeps sameStores (updateAcknowledged env replica ts info).
Proof.
  intros env replica ts info. unfold updateAcknowledged, broadcast. keep_stores.
  match goal with
  | |- keeps _ (match ?g with Some _ => _ | None => _ end) => destruct g as [newAck | ]
  end; [ | keep_stores ].
  destruct (truthy newAck && _); keep_stores.
Qed.

Lemma handleSync_sameStores :
  forall env replica resyncAll clientKey info,
    keeps sameStores (handleSync env replica resyncAll clientKey info).
Proof.
  intros env replica resyncAll clientKey info. unfold handleSync, send.
  apply stores_bind; [ destruct (requested resyncAll); keep_stores | intros _ ].
  apply stores_bind; [ keep_stores | intros table ].
  destruct (ReplicaInfos.getOrCreate (replicaTruancyMinutes env) (now env) replica info table)
    as [[status found] table'].
  keep_stores.
Qed.

(** X1: only an op or sync-step2 message sent with write access can change
    the operation log or the baselines.  Whatever the message, the token and
    the failures of the database, [receive] leaves both as they were when the
    message is of another type or the token is read-only. *)
Theorem receive_writes_stores_only_for_writers :
  forall (env : Env) (message : ClientMessage) (clientKey : jsstring)
         (info : TokenInfo) (lib : ServerLibrary),
    storesWrite message && hasWriteAccess info = false ->
    operations (snd (receive env message clientKey info lib)) = operations lib
    /\ baselines (snd (receive env message clientKey info lib)) = baselines lib.
Proof.
  intros env message clientKey info lib Hno.
  assert (H : keeps sameStores (receive env message clientKey info)).
  { unfold receive.
    apply stores_bind;
      [ eapply keeps_validateReplicaAccess; eauto using sameStores_refl | intros _ ].
    apply stores_bind; [ | intros _; keep_stores ].
    destruct message as [ replica ops | replica resyncAll | replica ops bs ts
                        | replica ts | replica | replica presence | replica ];
      simpl in Hno.
    - unfold handleOperation, send. rewrite Hno. simpl. keep_stores.
    - apply handleSync_sameStores.
    - unfold handleSyncStep2, send. rewrite Hno. simpl. keep_stores.
    - apply updateAcknowledged_sameStores.
    - unfold handleHeartbeat, send. keep_stores.
    - unfold handlePresenceUpdate, broadcast.
      apply stores_bind; [ | intros _; keep_stores ].
      intros s. split; reflexivity.
    - keep_stores. }
  exact (H lib).
Qed.

(** A read-only replica uploads history: nothing of it is stored. *)
Lemma receive_writes_stores_only_for_writers_witness :
  let upload := MsgSyncStep2 (js "rR")
                  [mkOperation (js "items/z") (js "t9") (OpInitialize (JObj []))]
                  [mkBaseline (js "items/y") (JObj []) (js "t8")] (js "t9") in
  let reader := mkToken (js "carol") ReadOnlyRealtime in
  operations (snd (receive reliableEnv upload (js "k4") reader fixtureLibrary))
  = operations fixtureLibrary
  /\ baselines (snd (receive reliableEnv upload (js "k4") reader fixtureLibrary))
     = baselines fixtureLibrary.
Proof.
  cbv zeta.
  apply (@receive_writes_stores_only_for_writers reliableEnv
           (MsgSyncStep2 (js "rR")
              [mkOperation (js "items/z") (js "t9") (OpInitialize (JObj []))]
              [mkBaseline (js "items/y") (JObj []) (js "t8")] (js "t9"))
           (js "k4") (mkToken (js "carol") ReadOnlyRealtime) fixtureLibrary).
  reflexivity.
Defined.

(** The combinators add no delivery of their own. *)
Lemma sends_bind :
  forall allowed (A B : Type) (m : M A) (k : A -> M B),
    keeps (sendsOnly allowed) m -> (forall a, keeps (sendsOnly allowed) (k a)) ->
    keeps (sendsOnly allowed) (bind m k).
Proof. intros; eapply keeps_bind; eauto using sendsOnly_refl, sendsOnly_trans. Qed.

Lemma sends_gets :
  forall allowed (A : Type) (f : ServerLibrary -> A), keeps (sendsOnly allowed) (gets f).
Proof. intros; eapply keeps_gets; eauto using sendsOnly_refl. Qed.

Lemma sends_ret : forall allowed (A : Type) (a : A), keeps (sendsOnly allowed) (ret a).
Proof. intros; eapply keeps_ret; eauto using sendsOnly_refl. Qed.

Lemma sends_storage :
  forall allowed env call write,
    (forall s, sent (write s) = sent s) -> keeps (sendsOnly allowed) (storage env call write).
Proof.
  intros allowed env call write Hw. eapply keeps_storage; eauto using sendsOnly_refl.
  intros s. apply sendsOnly_silent. apply Hw.
Qed.

Lemma sends_silent :
  forall allowed f, (forall s, sent (f s) = sent s) -> keeps (sendsOnly allowed) (modify f).
Proof. intros allowed f Hf s. apply sendsOnly_silent. apply Hf. Qed.

Lemma sends_deliver :
  forall (allowed : Delivery -> Prop) d, allowed d -> keeps (sendsOnly allowed) (modify (deliver d)).
Proof. intros allowed d Hd s. now apply sendsOnly_deliver. Qed.

Lemma sends_transaction :
  forall allowed (A : Type) (body : M A),
    keeps (sendsOnly allowed) body -> keeps (sendsOnly allowed) (transaction body).
Proof.
  intros allowed A body Hb s. unfold transaction. specialize (Hb s).
  destruct (body s) as [[a | e] s']; simpl in *; exact Hb.
Qed.

Lemma sends_validateReplicaAccess :
  forall allowed replica info, keeps (sendsOnly allowed) (validateReplicaAccess replica info).
Proof. intros; eapply keeps_validateReplicaAccess; eauto using sendsOnly_refl. Qed.

Ltac keep_sends :=
  repeat first
    [ apply sends_ret
    | apply sends_gets
    | apply sends_validateReplicaAccess
    | (apply sends_storage; intros ?; reflexivity)
    | (apply sends_silent; intros ?; reflexivity)
    | apply sends_transaction
    | apply sends_bind; [ | intro ] ].

Lemma rebroadcastOperations_sends :
  forall (allowed : Delivery -> Prop) env clientKey replica ops bs,
    (forall g, allowed (Broadcast (OpRe ops bs replica g) [clientKey])) ->
    keeps (sendsOnly allowed) (rebroadcastOperations env clientKey replica ops bs).
Proof.
  intros allowed env clientKey replica ops bs Hre. unfold rebroadcastOperations, broadcast.
  destruct ((List.length ops =? 0) && (List.length bs =? 0)); keep_sends.
  apply sends_deliver. apply Hre.
Qed.

Lemma updateAcknowledged_sends :
  forall (allowed : Delivery -> Prop) env replica ts info,
    (forall t, allowed (Broadcast (GlobalAck t) [])) ->
    keeps (sendsOnly allowed) (updateAcknowledged env replica ts info).
Proof.
  intros allowed env replica ts info Hack. unfold updateAcknowledged, broadcast. keep_sends.
  match goal with
  | |- keeps _ (match ?g with Some _ => _ | None => _ end) => destruct g as [newAck | ]
  end; [ | keep_sends ].
  destruct (truthy newAck && _); keep_sends. apply sends_deliver. apply Hack.
Qed.

(** X2: an op-re is never delivered to the replica it came from.  Whatever
    the token and the failures of the database, the only deliveries [receive]
    makes for an op message are [forbidden] to the sender and one op-re with
    the message's operations and no baseline, broadcast with the sender's key
    omitted; for a sync-step2 message they are [forbidden] to the sender, the
    op-re with the message's operations and baselines, the sender's key
    omitted, and [global-ack] to everyone. *)
Theorem op_re_omits_its_sender :
  forall (env : Env) (replica : jsstring) (ops : list Operation)
         (bs : list DocumentBaseline) (ts : Timestamp)
         (clientKey : jsstring) (info : TokenInfo) (lib : ServerLibrary),
    sendsOnly (fun d => d = Send clientKey Forbidden
                        \/ exists g, d = Broadcast (OpRe ops [] replica g) [clientKey])
              lib (snd (receive env (MsgOp replica ops) clientKey info lib))
    /\ sendsOnly (fun d => d = Send clientKey Forbidden
                           \/ (exists g, d = Broadcast (OpRe ops bs replica g) [clientKey])
                           \/ exists t, d = Broadcast (GlobalAck t) [])
                 lib (snd (receive env (MsgSyncStep2 replica ops bs ts) clientKey info lib)).
Proof.
  intros env replica ops bs ts clientKey info lib. split.
  - revert lib. change (keeps (sendsOnly (fun d => d = Send clientKey Forbidden
                        \/ exists g, d = Broadcast (OpRe ops [] replica g) [clientKey]))
                              (receive env (MsgOp replica ops) clientKey info)).
    unfold receive, handleOperation, send, enqueueRebase. keep_sends.
    destruct (negb (hasWriteAccess info)).
    + apply sends_deliver. left. reflexivity.
    + keep_sends;
        try match goal with
            | |- keeps _ (match ?pending with Some _ => _ | None => _ end) =>
                destruct pending; keep_sends
            end.
      apply rebroadcastOperations_sends. intros g. right. exists g. reflexivity.
  - revert lib. change (keeps (sendsOnly (fun d => d = Send clientKey Forbidden
                           \/ (exists g, d = Broadcast (OpRe ops bs replica g) [clientKey])
                           \/ exists t, d = Broadcast (GlobalAck t) []))
                              (receive env (MsgSyncStep2 replica ops bs ts) clientKey info)).
    unfold receive, handleSyncStep2, send. keep_sends.
    destruct (negb (hasWriteAccess info)).
    + apply sends_deliver. left. reflexivity.
    + keep_sends.
      * apply rebroadcastOperations_sends. intros g. right. left. exists g. reflexivity.
      * destruct (last (map Some ops) None);
          apply updateAcknowledged_sends; intros t; right; right; exists t; reflexivity.
Qed.

(** X3: a sync, heartbeat or unknown message is answered to its sender only:
    whatever the failures of the database, every delivery [receive] makes for
    it is a [send] to the sender's key, never a broadcast. *)
Theorem replies_go_to_the_sender_only :
  forall (env : Env) (message : ClientMessage) (clientKey : jsstring)
         (info : TokenInfo) (lib : ServerLibrary),
    repliesOnly message = true ->
    exists extra,
      sent (snd (receive env message clientKey info lib)) = sent lib ++ extra
      /\ Forall (fun d => exists reply, d = Send clientKey reply) extra.
Proof.
  intros env message clientKey info lib Hreply.
  change (sendsOnly (fun d => exists reply, d = Send clientKey reply) lib
                    (snd (receive env message clientKey info lib))).
  revert lib.
  change (keeps (sendsOnly (fun d => exists reply, d = Send clientKey reply))
                (receive env message clientKey info)).
  unfold receive. keep_sends.
  destruct message as [ replica ops | replica resyncAll | replica ops bs ts
                      | replica ts | replica | replica presence | replica ];
    try discriminate Hreply.
  - unfold handleSync, send.
    apply sends_bind; [ destruct (requested resyncAll); keep_sends | intros _ ].
    apply sends_bind; [ keep_sends | intros table ].
    destruct (ReplicaInfos.getOrCreate (replicaTruancyMinutes env) (now env) replica info table)
      as [[status found] table'].
    keep_sends. apply sends_deliver. eexists. reflexivity.
  - unfold handleHeartbeat, send. apply sends_deliver. eexists. reflexivity.
  - keep_sends.
Qed.

Lemma replies_go_to_the_sender_only_witness :
  exists extra,
    sent (snd (receive reliableEnv (MsgSync (js "rA") (Some true)) (js "k1") alice fixtureLibrary))
    = sent fixtureLibrary ++ extra
    /\ Forall (fun d => exists reply, d = Send (js "k1") reply) extra.
Proof.
  apply (@replies_go_to_the_sender_only reliableEnv (MsgSync (js "rA") (Some true))
           (js "k1") alice fixtureLibrary).
  reflexivity.
Defined.

Lemma validateReplicaAccess_ok :
  forall replica info lib,
    ownsReplica info replica lib ->
    validateReplicaAccess replica info lib = (Ok tt, lib).
Proof.
  intros replica info lib Hown. unfold validateReplicaAccess, bind, gets.
  destruct (ReplicaInfos.get replica (replicas lib)) as [found | ] eqn:Eget; [ | reflexivity ].
  rewrite (Hown found Eget), eqb_refl. reflexivity.
Qed.

(** X4: when the insert of an op message fails, [receive] throws the storage
    error and the library is exactly as before: no operation is stored, no
    rebase is scheduled, nothing is rebroadcast and the replica's last-seen
    time is not refreshed. *)
Theorem receive_op_insert_failure_changes_nothing :
  forall (env : Env) (replica : jsstring) (ops : list Operation)
         (clientKey : jsstring) (info : TokenInfo) (lib : ServerLibrary),
    ownsReplica info replica lib ->
    hasWriteAccess info = true ->
    fails env OperationsInsertAll = true ->
    receive env (MsgOp replica ops) clientKey info lib
    = (Thrown (StorageError OperationsInsertAll), lib).
Proof.
  intros env replica ops clientKey info lib Hown Hw Hf.
  unfold receive. unfold bind at 1. cbn [message_replicaId].
  rewrite (validateReplicaAccess_ok Hown).
  unfold bind at 1. rewrite (@handleOperation_is_atomic env replica ops clientKey info lib Hw Hf). reflexivity.
Qed.

Lemma receive_op_insert_failure_changes_nothing_witness :
  receive (failingAt OperationsInsertAll)
          (MsgOp (js "rA") [mkOperation (js "items/a") (js "t7") (OpDelete (js "content"))])
          (js "k1") alice fixtureLibrary
  = (Thrown (StorageError OperationsInsertAll), fixtureLibrary).
Proof.
  apply (@receive_op_insert_failure_changes_nothing (failingAt OperationsInsertAll) (js "rA")
           [mkOperation (js "items/a") (js "t7") (OpDelete (js "content"))]
           (js "k1") alice fixtureLibrary).
  - intros owner Hget. vm_compute in Hget. injection Hget as <-. reflexivity.
  - reflexivity.
  - reflexivity.
Defined.

Lemma bind_ok_inv :
  forall (A B : Type) (m : M A) (k : A -> M B) s b s',
    bind m k s = (Ok b, s') ->
    exists a s1, m s = (Ok a, s1) /\ k a s1 = (Ok b, s').
Proof.
  intros A B m k s b s' H. unfold bind in H.
  destruct (m s) as [[a | e] s1]; [ | discriminate H ].
  exists a, s1. split; [ reflexivity | exact H ].
Qed.

(** X6: a message that [receive] handles to the end refreshes the sender's
    last-seen time, whatever its type: afterwards every registry row of the
    replica it names carries the current time, so that the replica is not
    truant at that time (the truancy threshold being non-negative). *)
Theorem receive_refreshes_last_seen :
  forall (env : Env) (message : ClientMessage) (clientKey : jsstring)
         (info : TokenInfo) (lib : ServerLibrary) (r : ReplicaInfo),
    fst (receive env message clientKey info lib) = Ok tt ->
    (0 <= replicaTruancyMinutes env)%Z ->
    In r (replicas (snd (receive env message clientKey info lib))) ->
    id r = message_replicaId message ->
    lastSeen r = now env
    /\ ReplicaInfos.isTruant (replicaTruancyMinutes env) (now env) r = false.
Proof.
  intros env message clientKey info lib r Hret Hmin Hin Hid.
  destruct (receive env message clientKey info lib) as [outcome lib'] eqn:E.
  simpl in Hret, Hin. subst outcome.
  unfold receive in E.
  apply bind_ok_inv in E. destruct E as [[] [s1 [_ E]]].
  apply bind_ok_inv in E. destruct E as [[] [s2 [_ E]]].
  unfold storage in E. destruct (fails env ReplicasUpdateLastSeen); [ discriminate E | ].
  injection E as <-. cbn [replicas set_replicas] in Hin.
  unfold ReplicaInfos.updateLastSeen in Hin. apply in_map_iff in Hin.
  destruct Hin as [r0 [Hr0 _]].
  assert (Hseen : lastSeen r = now env).
  { destruct (eqb (id r0) (message_replicaId message)) eqn:Eid.
    - subst r. reflexivity.
    - subst r. apply eqb_neq in Eid. contradiction. }
  split; [ exact Hseen | ].
  unfold ReplicaInfos.isTruant. rewrite Hseen. apply Z.ltb_ge. lia.
Qed.

Lemma receive_refreshes_last_seen_witness :
  lastSeen (mkReplica (js "rB") (js "bob") Realtime (Some (js "t5")) 1000000) = 1000000%Z
  /\ ReplicaInfos.isTruant 30 1000000
       (mkReplica (js "rB") (js "bob") Realtime (Some (js "t5")) 1000000) = false.
Proof.
  apply (@receive_refreshes_last_seen reliableEnv (MsgHeartbeat (js "rB")) (js "k2") bob
           fixtureLibrary (mkReplica (js "rB") (js "bob") Realtime (Some (js "t5")) 1000000)).
  - reflexivity.
  - vm_compute. discriminate.
  - vm_compute. tauto.
  - reflexivity.
Defined.

(* ================================================================== *)
(** * The authority: more on rebase *)
(* ================================================================== *)

Lemma takeWhile_all :
  forall (A : Type) (p : A -> bool) (l : list A), forallb p l = true -> takeWhile p l = l.
Proof.
  intros A p l. induction l as [ | x l IH ]; intros H; [ reflexivity | ].
  simpl in *. apply andb_true_iff in H. destruct H as [Hx Hl]. now rewrite Hx, IH.
Qed.

Lemma takeWhile_snoc :
  forall (A : Type) (p : A -> bool) (l : list A) (x : A),
    takeWhile p (l ++ [x])
    = if forallb p l then l ++ (if p x then [x] else []) else takeWhile p l.
Proof.
  intros A p l x. induction l as [ | y l IH ]; simpl.
  - destruct (p x); reflexivity.
  - destruct (p y); simpl; [ | reflexivity ].
    rewrite IH. destruct (forallb p l); reflexivity.
Qed.

Lemma filter_isOf_snoc :
  forall k seen x,
    filter (isOf k) (seen ++ [x]) = filter (isOf k) seen ++ (if eqb (oid x) k then [x] else []).
Proof. intros k seen x. rewrite filter_app. reflexivity. Qed.

Lemma push_keys_incl :
  forall o op table k, In k (map fst table) -> In k (map fst (push o op table)).
Proof.
  intros o op table k Hk. rewrite push_keys.
  destruct (existsb (eqb o) (map fst table)); [ exact Hk | apply in_or_app; now left ].
Qed.

Lemma push_keys_self : forall o op table, In o (map fst (push o op table)).
Proof.
  intros o op table. rewrite push_keys.
  destruct (existsb (eqb o) (map fst table)) eqn:E.
  - now apply existsb_eqb_In.
  - apply in_or_app. right. left. reflexivity.
Qed.

Lemma push_keys_NoDup :
  forall o op table, NoDup (map fst table) -> NoDup (map fst (push o op table)).
Proof.
  intros o op table Hnd. rewrite push_keys.
  destruct (existsb (eqb o) (map fst table)) eqn:E; [ exact Hnd | ].
  apply Permutation_NoDup with (l := o :: map fst table).
  - apply Permutation_cons_append.
  - constructor; [ | exact Hnd ]. intros Hin. apply existsb_eqb_In in Hin. congruence.
Qed.

Lemma bucketStep_prefixBucketed :
  forall T seen table stops x,
    isOid (oid x) = true ->
    prefixBucketed T seen table stops ->
    prefixBucketed T (seen ++ [x])
                   (fst (bucketStep T (table, stops) x)) (snd (bucketStep T (table, stops) x)).
Proof.
  intros T seen table stops x Hoid [Hkeys Hcontent Hcover Hstops].
  unfold bucketStep, lookupHardStop. rewrite (isOid_not_inherited _ Hoid), orb_false_r.
  pose proof (Hstops (oid x)) as Hstop.
  fold (isBefore T x).
  destruct (negb (existsb (eqb (oid x)) stops) && isBefore T x) eqn:Econd; cbn [fst snd].
  - apply andb_true_iff in Econd. destruct Econd as [Hopen Hbefore].
    apply negb_true_iff in Hopen. rewrite Hopen in Hstop.
    symmetry in Hstop. apply negb_false_iff in Hstop.
    constructor.
    + now apply push_keys_NoDup.
    + intros k l Hin. rewrite filter_isOf_snoc.
      destruct (push_In _ _ _ _ _ Hkeys Hin) as [[Hne Hold] | [-> [l0 [-> Hl0]]]].
      * assert (E : eqb (oid x) k = false) by (apply eqb_neq; congruence).
        rewrite E, app_nil_r. now apply Hcontent.
      * rewrite eqb_refl, takeWhile_snoc, Hstop, Hbefore.
        split; [ | intros H; now apply app_eq_nil in H ].
        f_equal. destruct Hl0 as [Hl0 | [-> Hl0]].
        -- destruct (Hcontent _ _ Hl0) as [-> _]. now apply takeWhile_all.
        -- destruct (filter (isOf (oid x)) seen) as [ | y rest ] eqn:Ef; [ reflexivity | ].
           exfalso. apply Hl0. apply Hcover. rewrite Ef, takeWhile_all by exact Hstop.
           discriminate.
    + intros k Hk. rewrite filter_isOf_snoc in Hk.
      destruct (eqb (oid x) k) eqn:E.
      * apply eqb_eq in E. subst k. apply push_keys_self.
      * rewrite app_nil_r in Hk. apply push_keys_incl. now apply Hcover.
    + intros k. rewrite filter_isOf_snoc. rewrite Hstops.
      destruct (eqb (oid x) k) eqn:E.
      * apply eqb_eq in E. subst k. rewrite forallb_app. simpl.
        now rewrite Hbefore, andb_true_r.
      * now rewrite app_nil_r.
  - assert (Hsame : takeWhile (isBefore T) (filter (isOf (oid x)) seen ++ [x])
                    = takeWhile (isBefore T) (filter (isOf (oid x)) seen)).
    { rewrite takeWhile_snoc.
      destruct (forallb (isBefore T) (filter (isOf (oid x)) seen)) eqn:Eall;
        [ | reflexivity ].
      simpl in Hstop. rewrite Hstop in Econd. simpl in Econd. rewrite Econd.
      rewrite app_nil_r. symmetry. now apply takeWhile_all. }
    constructor.
    + exact Hkeys.
    + intros k l Hin. rewrite filter_isOf_snoc.
      destruct (eqb (oid x) k) eqn:E.
      * apply eqb_eq in E. subst k. rewrite Hsame. now apply Hcontent.
      * rewrite app_nil_r. now apply Hcontent.
    + intros k Hk. rewrite filter_isOf_snoc in Hk.
      destruct (eqb (oid x) k) eqn:E.
      * apply eqb_eq in E. subst k. rewrite Hsame in Hk. now apply Hcover.
      * rewrite app_nil_r in Hk. now apply Hcover.
    + intros k. rewrite filter_isOf_snoc. simpl. rewrite (eqb_sym k (oid x)).
      destruct (eqb (oid x) k) eqn:E.
      * apply eqb_eq in E. subst k. simpl. rewrite forallb_app. simpl.
        rewrite andb_true_r. symmetry. apply negb_true_iff. apply andb_false_iff.
        destruct (existsb (eqb (oid x)) stops) eqn:Es.
        -- left. symmetry in Hstop. now apply negb_true_iff in Hstop.
        -- right. simpl in Econd. exact Econd.
      * simpl. rewrite app_nil_r. apply Hstops.
Qed.

Lemma fold_bucketStep_prefixBucketed :
  forall T ops,
    Forall (fun item => isOid (oid item) = true) ops ->
    prefixBucketed T ops (fst (fold_left (bucketStep T) ops ([], [])))
                   (snd (fold_left (bucketStep T) ops ([], []))).
Proof.
  intros T ops. induction ops as [ | x ops IH ] using rev_ind; intros Hall.
  - constructor.
    + constructor.
    + intros k l [].
    + intros k H. now contradiction H.
    + intros k. reflexivity.
  - apply Forall_app in Hall. destruct Hall as [Hops Hx].
    inversion Hx as [ | ? ? Hoid _ ]; subst.
    rewrite fold_left_app. simpl.
    specialize (IH Hops).
    destruct (fold_left (bucketStep T) ops ([], [])) as [table stops].
    now apply bucketStep_prefixBucketed.
Qed.

(** X7: the first loop of [rebase] compacts a prefix of every object's
    history and nothing after it.  For any list of operations, in any order,
    the bucket of an object is the longest run of that object's operations,
    from its first one, whose timestamps are before the global ack; the first
    operation of the object that is not before it stops the object, and no
    later operation of the object is bucketed.  An object has a bucket exactly
    when that run is not empty, and it has one bucket only. *)
Theorem rebase_buckets_are_prefixes :
  forall (T : Timestamp) (ops : list OperationHistoryItem),
    Forall (fun item => isOid (oid item) = true) ops ->
    NoDup (map fst (bucketOps T ops))
    /\ (forall k l, In (k, l) (bucketOps T ops) ->
                    l = takeWhile (isBefore T) (filter (isOf k) ops) /\ l <> [])
    /\ (forall k, takeWhile (isBefore T) (filter (isOf k) ops) <> [] ->
                  In k (map fst (bucketOps T ops))).
Proof.
  intros T ops Hall. destruct (fold_bucketStep_prefixBucketed T Hall) as [H1 H2 H3 _].
  unfold bucketOps. split; [ exact H1 | split; [ exact H2 | exact H3 ] ].
Qed.

(** An object whose second operation is not before the ack: only its first
    operation is bucketed, the third one is left though it is before. *)
Lemma rebase_buckets_are_prefixes_witness :
  let a1 := mkItem (js "items/a") (js "t1") (OpInitialize (JObj [])) (js "rA") in
  let a6 := mkItem (js "items/a") (js "t6") (OpDelete (js "content")) (js "rB") in
  let a2 := mkItem (js "items/a") (js "t2") (OpSet (js "content") JNull) (js "rA") in
  bucketOps (js "t3") [a1; a6; a2] = [(js "items/a", [a1])]
  /\ NoDup (map fst (bucketOps (js "t3") [a1; a6; a2]))
  /\ (forall k l, In (k, l) (bucketOps (js "t3") [a1; a6; a2]) ->
                  l = takeWhile (isBefore (js "t3")) (filter (isOf k) [a1; a6; a2]) /\ l <> []).
Proof.
  cbv zeta. split; [ reflexivity | ].
  destruct (@rebase_buckets_are_prefixes (js "t3")
              [ mkItem (js "items/a") (js "t1") (OpInitialize (JObj [])) (js "rA");
                mkItem (js "items/a") (js "t6") (OpDelete (js "content")) (js "rB");
                mkItem (js "items/a") (js "t2") (OpSet (js "content") JNull) (js "rA") ])
    as [H1 [H2 _]].
  - repeat constructor.
  - split; [ exact H1 | exact H2 ].
Defined.

Lemma sort_nil : TimestampSort.sort [] = [].
Proof. reflexivity. Qed.

Lemma existsb_isBefore_nil : forall log, existsb (isBefore []) log = false.
Proof.
  intros log. induction log as [ | x log IH ]; [ reflexivity | ].
  cbn [existsb]. unfold isBefore at 1. now rewrite ltb_nil_r.
Qed.

Lemma getBefore_nil_iff :
  forall T log,
    OperationHistory.getBefore T log = [] <-> existsb (isBefore T) log = false.
Proof.
  intros T log. split; intros H.
  - destruct (existsb (isBefore T) log) eqn:E; [ | reflexivity ].
    apply existsb_exists in E. destruct E as [item [Hin Hlt]].
    assert (Hitem : In item (OperationHistory.getBefore T log))
      by (apply getBefore_In; auto).
    rewrite H in Hitem. contradiction.
  - destruct (OperationHistory.getBefore T log) as [ | item rest ] eqn:E; [ reflexivity | ].
    assert (Hitem : In item (OperationHistory.getBefore T log))
      by (rewrite E; left; reflexivity).
    apply getBefore_In in Hitem. destruct Hitem as [Hin Hlt].
    assert (Hex : existsb (isBefore T) log = true)
      by (apply existsb_exists; exists item; auto).
    congruence.
Qed.

Lemma bucketOps_nil_iff :
  forall T log,
    Forall (fun item => isOid (oid item) = true) log ->
    (List.length (bucketOps T (OperationHistory.getBefore T log)) =? 0)
    = negb (existsb (isBefore T) log).
Proof.
  intros T log Hoids.
  destruct (existsb (isBefore T) log) eqn:E; simpl.
  - apply existsb_exists in E. destruct E as [item [Hin Hlt]].
    destruct (@bucketOps_bucketed T (OperationHistory.getBefore T log))
      as [table [Hfold [_ _ Hcover]]].
    { apply Forall_forall. intros y Hy. apply getBefore_In in Hy.
      destruct Hy as [Hy Hylt]. split; [ exact Hylt | ].
      rewrite Forall_forall in Hoids. now apply Hoids. }
    unfold bucketOps. rewrite Hfold. simpl.
    assert (Hk : In (oid item) (map fst table)).
    { apply Hcover. apply getBefore_In. auto. }
    destruct table; [ contradiction | reflexivity ].
  - apply getBefore_nil_iff in E. rewrite E. reflexivity.
Qed.

(** X8: a rebase pass announces the global ack exactly when it compacted
    something.  With a null global ack it sends nothing; with global ack [T]
    it broadcasts [global-ack] with [T] to every client, once, if the log held
    an operation before [T], and sends nothing otherwise. *)
Theorem rebase_announces_when_it_compacts :
  forall (env : Env) (lib : ServerLibrary),
    noFaults env ->
    Forall (fun item => isOid (oid item) = true) (operations lib) ->
    sent (snd (rebase env lib))
    = sent lib
      ++ match getGlobalAck env (activeReplicaIds lib) lib with
         | Some T =>
             if existsb (isBefore T) (operations lib)
             then [Broadcast (GlobalAck T) []]
             else []
         | None => []
         end.
Proof.
  intros env lib Hok Hoids.
  destruct (getGlobalAck env (activeReplicaIds lib) lib) as [T | ] eqn:Hack.
  2:{ unfold rebase, bind, gets. rewrite Hack. simpl. now rewrite app_nil_r. }
  destruct (truthy T) eqn:Htruthy.
  - rewrite (rebase_ok lib Hok Hack Htruthy). cbn [snd sent].
    rewrite (bucketOps_nil_iff T Hoids).
    destruct (existsb (isBefore T) (operations lib)); reflexivity.
  - assert (HT : T = []) by (destruct T; [ reflexivity | discriminate ]). subst T.
    unfold rebase, bind, gets. rewrite Hack. simpl.
    now rewrite existsb_isBefore_nil, app_nil_r.
Qed.

Lemma rebase_announces_when_it_compacts_witness :
  sent (snd (rebase reliableEnv fixtureLibrary)) = [Broadcast (GlobalAck (js "t3")) []].
Proof.
  assert (Hoids : Forall (fun item => isOid (oid item) = true) (operations fixtureLibrary))
    by (repeat constructor).
  exact (@rebase_announces_when_it_compacts reliableEnv fixtureLibrary (fun _ => eq_refl) Hoids).
Defined.

Lemma rebasedOperations_before :
  forall T log,
    Forall (fun item => isOid (oid item) = true) log ->
    rebasedOperations (bucketOps T (OperationHistory.getBefore T log)) log
    = filter (fun item => negb (ltb (timestamp item) T)) log.
Proof.
  intros T log Hoids.
  destruct (@bucketOps_bucketed T (OperationHistory.getBefore T log))
    as [table [Hfold Hbucketed]].
  { apply Forall_forall. intros y Hy. apply getBefore_In in Hy.
    destruct Hy as [Hy Hylt]. split; [ exact Hylt | ].
    rewrite Forall_forall in Hoids. now apply Hoids. }
  unfold bucketOps. rewrite Hfold. simpl.
  rewrite rebasedOperations_filter. apply filter_ext_in. intros item Hin.
  now rewrite (@dropped_iff_before T log table item Hbucketed Hin).
Qed.

(** X9: a second rebase pass right after a first one finds nothing to do: it
    returns normally and leaves the library, the log, the baselines and the
    deliveries exactly as the first pass left them. *)
Theorem rebase_twice_is_rebase_once :
  forall (env : Env) (lib : ServerLibrary),
    noFaults env ->
    Forall (fun item => isOid (oid item) = true) (operations lib) ->
    rebase env (snd (rebase env lib)) = (Ok tt, snd (rebase env lib)).
Proof.
  intros env lib Hok Hoids.
  destruct (getGlobalAck env (activeReplicaIds lib) lib) as [T | ] eqn:Hack.
  2:{ assert (H : rebase env lib = (Ok tt, lib))
        by (unfold rebase, bind, gets; rewrite Hack; reflexivity).
      rewrite H. simpl. exact H. }
  destruct (truthy T) eqn:Htruthy.
  2:{ assert (H : rebase env lib = (Ok tt, lib))
        by (unfold rebase, bind, gets; rewrite Hack, Htruthy; reflexivity).
      rewrite H. simpl. exact H. }
  rewrite (rebase_ok lib Hok Hack Htruthy). cbn [snd].
  rewrite (rebasedOperations_before T Hoids).
  match goal with
  | |- rebase env ?l = _ => set (lib1 := l)
  end.
  assert (Hack1 : getGlobalAck env (activeReplicaIds lib1) lib1 = Some T) by exact Hack.
  rewrite (rebase_ok lib1 Hok Hack1 Htruthy).
  assert (Hnone : OperationHistory.getBefore T (operations lib1) = []).
  { apply getBefore_nil_iff. subst lib1. cbn [operations].
    destruct (existsb (isBefore T) _) eqn:E; [ | reflexivity ].
    apply existsb_exists in E. destruct E as [item [Hin Hlt]].
    apply filter_In in Hin. destruct Hin as [_ Hin]. unfold isBefore in Hlt.
    rewrite Hlt in Hin. discriminate. }
  rewrite Hnone. subst lib1. cbn. now rewrite app_nil_r.
Qed.

Lemma rebase_twice_is_rebase_once_witness :
  rebase reliableEnv (snd (rebase reliableEnv fixtureLibrary))
  = (Ok tt, snd (rebase reliableEnv fixtureLibrary)).
Proof.
  assert (Hoids : Forall (fun item => isOid (oid item) = true) (operations fixtureLibrary))
    by (repeat constructor).
  exact (@rebase_twice_is_rebase_once reliableEnv fixtureLibrary (fun _ => eq_refl) Hoids).
Defined.

(** X10: a rebase pass rewrites the baselines of the compacted objects only,
    and it never touches the registry, the presence map or the timers: the
    baseline of an object none of whose operations is before the global ack
    is the one it had. *)
Theorem rebase_leaves_other_objects :
  forall (env : Env) (lib : ServerLibrary) (o : ObjectIdentifier),
    noFaults env ->
    Forall (fun item => isOid (oid item) = true) (operations lib) ->
    match getGlobalAck env (activeReplicaIds lib) lib with
    | Some T => existsb (fun item => isOf o item && isBefore T item) (operations lib) = false
    | None => True
    end ->
    Baselines.get o (baselines (snd (rebase env lib))) = Baselines.get o (baselines lib)
    /\ replicas (snd (rebase env lib)) = replicas lib
    /\ presences (snd (rebase env lib)) = presences lib
    /\ timeouts (snd (rebase env lib)) = timeouts lib.
Proof.
  intros env lib o Hok Hoids Hnone.
  destruct (getGlobalAck env (activeReplicaIds lib) lib) as [T | ] eqn:Hack.
  2:{ assert (H : rebase env lib = (Ok tt, lib))
        by (unfold rebase, bind, gets; rewrite Hack; reflexivity).
      rewrite H. repeat split. }
  destruct (truthy T) eqn:Htruthy.
  2:{ assert (H : rebase env lib = (Ok tt, lib))
        by (unfold rebase, bind, gets; rewrite Hack, Htruthy; reflexivity).
      rewrite H. repeat split. }
  rewrite (rebase_ok lib Hok Hack Htruthy). cbn [snd baselines replicas presences timeouts].
  split; [ | repeat split ].
  destruct (@bucketOps_bucketed T (OperationHistory.getBefore T (operations lib)))
    as [table [Hfold [Hkeys Hcontent Hcover]]].
  { apply Forall_forall. intros y Hy. apply getBefore_In in Hy.
    destruct Hy as [Hy Hylt]. split; [ exact Hylt | ].
    rewrite Forall_forall in Hoids. now apply Hoids. }
  unfold bucketOps. rewrite Hfold. cbn [fst].
  apply rebasedBaselines_untouched. intros Hk.
  apply in_map_iff in Hk. destruct Hk as [[k l] [Hk Hentry]]. simpl in Hk. subst k.
  destruct (Hcontent _ _ Hentry) as [Hl Hne].
  destruct l as [ | item rest ]; [ now apply Hne | ].
  assert (Hitem : In item (filter (fun y => eqb (oid y) o)
                                  (OperationHistory.getBefore T (operations lib))))
    by (rewrite <- Hl; left; reflexivity).
  apply filter_In in Hitem. destruct Hitem as [Hitem Ho].
  apply getBefore_In in Hitem. destruct Hitem as [Hin Hlt].
  assert (Hex : existsb (fun y => isOf o y && isBefore T y) (operations lib) = true).
  { apply existsb_exists. exists item. split; [ exact Hin | ].
    unfold isOf, isBefore. now rewrite Ho, Hlt. }
  congruence.
Qed.

Lemma rebase_leaves_other_objects_witness :
  Baselines.get (js "items/b") (baselines (snd (rebase reliableEnv fixtureLibrary)))
  = Baselines.get (js "items/b") (baselines fixtureLibrary)
  /\ replicas (snd (rebase reliableEnv fixtureLibrary)) = replicas fixtureLibrary
  /\ presences (snd (rebase reliableEnv fixtureLibrary)) = presences fixtureLibrary
  /\ timeouts (snd (rebase reliableEnv fixtureLibrary)) = timeouts fixtureLibrary.
Proof.
  apply (@rebase_leaves_other_objects reliableEnv fixtureLibrary (js "items/b")).
  - intros call. reflexivity.
  - repeat constructor.
  - reflexivity.
Defined.

(* ================================================================== *)
(** * The authority: more on the handshake and on presence *)
(* ================================================================== *)

Lemma handleSync_ok :
  forall env replica resyncAll clientKey info lib status found table',
    noFaults env ->
    ReplicaInfos.getOrCreate (replicaTruancyMinutes env) (now env) replica info
      (if requested resyncAll
       then ReplicaInfos.delete replica (replicas lib) else replicas lib)
    = ((status, found), table') ->
    let changesSince := if statusIsExisting status then ackedLogicalTime found else None in
    let ops := OperationHistory.getAfter changesSince (operations lib) in
    let bs := Baselines.getAllAfter changesSince (baselines lib) in
    handleSync env replica resyncAll clientKey info lib
    = (Ok tt,
       deliver
         (Send clientKey
            (SyncResp
               (mkSyncResponse
                  (map removeExtraOperationData ops)
                  (map (fun b => mkBaseline (b_oid b) (b_snapshot b) (b_timestamp b)) bs)
                  (orNull (ackedLogicalTime found))
                  (ReplicaInfos.getGlobalAck (replicaTruancyMinutes env) (now env) [] table')
                  (presences lib)
                  ((requested resyncAll || negb (statusIsExisting status))
                   && negb (match changesSince with None => true | Some _ => false end
                            && (List.length ops =? 0) && (List.length bs =? 0))))))
         (set_replicas (fun _ => table') lib)).
Proof.
  intros env replica resyncAll clientKey info lib status found table' Hok Hget. cbv zeta.
  unfold handleSync, bind, gets, ret, send, modify.
  assert (Hdel : (if requested resyncAll
                  then storage env ReplicasDelete (set_replicas (ReplicaInfos.delete replica))
                  else (fun s => (Ok tt, s))) lib
                 = (Ok tt, set_replicas (fun t => if requested resyncAll
                                                  then ReplicaInfos.delete replica t else t) lib)).
  { destruct (requested resyncAll).
    - now rewrite storage_ok.
    - destruct lib; reflexivity. }
  rewrite Hdel. clear Hdel. cbn [replicas set_replicas]. rewrite Hget.
  rewrite storage_ok by apply Hok. reflexivity.
Qed.

Lemma getAfter_nil : forall since, OperationHistory.getAfter since [] = [].
Proof. intros [ts | ]; reflexivity. Qed.

Lemma getAllAfter_nil : forall since, Baselines.getAllAfter since [] = [].
Proof. intros [ts | ]; reflexivity. Qed.

Lemma get_delete :
  forall replica table, ReplicaInfos.get replica (ReplicaInfos.delete replica table) = None.
Proof.
  intros replica table. unfold ReplicaInfos.get, ReplicaInfos.delete.
  induction table as [ | r table IH ]; [ reflexivity | ].
  simpl. destruct (eqb (id r) replica) eqn:E; simpl; [ exact IH | ].
  rewrite E. exact IH.
Qed.

(** X11: a library without history never tells a client to overwrite its
    local data.  When the log and the baselines are empty, the sync-resp sent
    for any sync message, resyncAll or not, from a new, truant or known
    replica, carries no operation, no baseline and [overwriteLocalData =
    false], so that the client's own history is kept and uploaded. *)
Theorem empty_library_never_overwrites :
  forall (env : Env) (replica : jsstring) (resyncAll : option bool)
         (clientKey : jsstring) (info : TokenInfo) (lib : ServerLibrary),
    noFaults env ->
    operations lib = [] ->
    baselines lib = [] ->
    exists response,
      sent (snd (handleSync env replica resyncAll clientKey info lib))
      = sent lib ++ [Send clientKey (SyncResp response)]
      /\ sr_operations response = []
      /\ sr_baselines response = []
      /\ overwriteLocalData response = false.
Proof.
  intros env replica resyncAll clientKey info lib Hok Hops Hbs.
  destruct (ReplicaInfos.getOrCreate (replicaTruancyMinutes env) (now env) replica info
              (if requested resyncAll
               then ReplicaInfos.delete replica (replicas lib) else replicas lib))
    as [[status found] table'] eqn:Hget.
  rewrite (@handleSync_ok env replica resyncAll clientKey info lib status found table' Hok Hget).
  eexists. split; [ reflexivity | ]. cbn.
  rewrite Hops, Hbs, getAfter_nil, getAllAfter_nil. cbn.
  split; [ reflexivity | split; [ reflexivity | ] ].
  rewrite !andb_true_r.
  unfold ReplicaInfos.getOrCreate in Hget.
  destruct (requested resyncAll) eqn:Ereq.
  - rewrite get_delete in Hget. injection Hget as <- <- <-. reflexivity.
  - destruct (ReplicaInfos.get replica (replicas lib)) as [r | ].
    + destruct (ReplicaInfos.isTruant (replicaTruancyMinutes env) (now env) r);
        injection Hget as <- <- <-; reflexivity.
    + injection Hget as <- <- <-. reflexivity.
Qed.

Lemma empty_library_never_overwrites_witness :
  exists response,
    sent (snd (handleSync reliableEnv (js "rA") (Some true) (js "k1") alice
                          (mkLibrary (replicas fixtureLibrary) [] [] [] [] None [])))
    = [Send (js "k1") (SyncResp response)]
    /\ sr_operations response = []
    /\ sr_baselines response = []
    /\ overwriteLocalData response = false.
Proof.
  apply (@empty_library_never_overwrites reliableEnv (js "rA") (Some true) (js "k1") alice
           (mkLibrary (replicas fixtureLibrary) [] [] [] [] None [])).
  - intros call. reflexivity.
  - reflexivity.
  - reflexivity.
Defined.

Lemma presenceSet_keys :
  forall user info table,
    map fst (presenceSet user info table)
    = if existsb (eqb user) (map fst table) then map fst table else map fst table ++ [user].
Proof.
  intros user info table. induction table as [ | [k v] table IH ]; [ reflexivity | ].
  simpl. rewrite (eqb_sym user k). destruct (eqb k user) eqn:E; simpl; [ reflexivity | ].
  rewrite IH. destruct (existsb (eqb user) (map fst table)); reflexivity.
Qed.

Lemma presenceOf_presenceSet_same :
  forall user info table, presenceOf user (presenceSet user info table) = Some info.
Proof.
  intros user info table. unfold presenceOf.
  induction table as [ | [k v] table IH ]; simpl.
  - now rewrite eqb_refl.
  - destruct (eqb k user) eqn:E; simpl; rewrite E; [ reflexivity | exact IH ].
Qed.

Lemma presenceOf_presenceSet_other :
  forall user other info table,
    other <> user ->
    presenceOf other (presenceSet user info table) = presenceOf other table.
Proof.
  intros user other info table Hne. unfold presenceOf. apply eqb_neq in Hne.
  induction table as [ | [k v] table IH ]; simpl.
  - rewrite (eqb_sym user other), Hne. reflexivity.
  - destruct (eqb k user) eqn:E; simpl.
    + apply eqb_eq in E. subst k. rewrite (eqb_sym user other), Hne. reflexivity.
    + destruct (eqb k other); [ reflexivity | exact IH ].
Qed.

Lemma presenceSet_In :
  forall user info table, In (user, info) (presenceSet user info table).
Proof.
  intros user info table. induction table as [ | [k v] table IH ]; simpl.
  - left. reflexivity.
  - destruct (eqb k user) eqn:E.
    + apply eqb_eq in E. subst k. left. reflexivity.
    + right. exact IH.
Qed.

(** X12: a presence update is mirrored to everyone, its sender included: the
    [presence-changed] broadcast omits no key and carries the user's loaded
    profile.  The presence map is keyed by user: afterwards the user's entry
    is the new one, the entries of the other users are as they were, no
    second entry is added for a user who had one, and the replica is among
    the active replicas that the next rebase counts towards the global ack. *)
Theorem presence_update_is_mirrored :
  forall (env : Env) (replica : jsstring) (presence : json)
         (clientKey : jsstring) (info : TokenInfo) (lib : ServerLibrary)
         (other : jsstring),
    other <> userId info ->
    let entry := mkUserInfo presence replica (profiles env (userId info)) (userId info) in
    let lib' := snd (handlePresenceUpdate env replica presence clientKey info lib) in
    fst (handlePresenceUpdate env replica presence clientKey info lib) = Ok tt
    /\ sent lib' = sent lib ++ [Broadcast (PresenceChanged replica entry) []]
    /\ presenceOf (userId info) (presences lib') = Some entry
    /\ presenceOf other (presences lib') = presenceOf other (presences lib)
    /\ map fst (presences lib')
       = (if existsb (eqb (userId info)) (map fst (presences lib))
          then map fst (presences lib)
          else map fst (presences lib) ++ [userId info])
    /\ In replica (activeReplicaIds lib').
Proof.
  intros env replica presence clientKey info lib other Hother. cbv zeta.
  unfold handlePresenceUpdate, bind, modify, broadcast. cbn.
  split; [ reflexivity | split; [ reflexivity | split ] ].
  - apply presenceOf_presenceSet_same.
  - split; [ now apply presenceOf_presenceSet_other | split ].
    + apply presenceSet_keys.
    + unfold activeReplicaIds. cbn. apply in_map_iff.
      exists (userId info, mkUserInfo presence replica (profiles env (userId info)) (userId info)).
      split; [ reflexivity | apply presenceSet_In ].
Qed.

(** [alice] connects a second replica: it replaces her first one in the map. *)
Lemma presence_update_is_mirrored_witness :
  let lib' := snd (handlePresenceUpdate reliableEnv (js "rA2") JNull (js "k5") alice
                                        fixtureLibrary) in
  map fst (presences lib') = [js "alice"]
  /\ activeReplicaIds lib' = [js "rA2"]
  /\ sent lib'
     = [Broadcast (PresenceChanged (js "rA2")
                     (mkUserInfo JNull (js "rA2") (JObj [(js "id", JStr (js "alice"))])
                                 (js "alice"))) []].
Proof.
  destruct (@presence_update_is_mirrored reliableEnv (js "rA2") JNull (js "k5") alice
              fixtureLibrary (js "bob")) as [_ [Hsent [_ [_ [Hkeys _]]]]].
  - discriminate.
  - cbv zeta. split; [ exact Hkeys | split; [ reflexivity | exact Hsent ] ].
Defined.

(* ================================================================== *)
(** * Index values *)
(* ================================================================== *)

Section IndexFacts.

Variable Number : Type.
Variable numberToString : Number -> jsstring.

Local Abbreviation Scalar' := (@Indexes.Scalar Number).

Lemma setFrom_In :
  forall values seen v,
    In v (Indexes.setFrom seen values) <-> In v values /\ ~ In v seen.
Proof.
  intros values. induction values as [ | x values IH ]; intros seen v; simpl.
  - tauto.
  - destruct (existsb (eqb x) seen) eqn:E.
    + rewrite IH. apply existsb_eqb_In in E. split.
      * intros [H1 H2]. auto.
      * intros [[-> | H1] H2]; [ contradiction | auto ].
    + assert (Hx : ~ In x seen).
      { intros H. apply existsb_eqb_In in H. congruence. }
      simpl. rewrite IH. simpl. split.
      * intros [<- | [H1 H2]]; [ auto | ]. split; [ auto | ]. intros H. apply H2. auto.
      * intros [[<- | H1] H2]; [ auto | ].
        destruct (list_eq_dec N.eq_dec x v) as [-> | Hne]; [ auto | ].
        right. split; [ exact H1 | ]. intros [H | H]; [ contradiction | contradiction ].
Qed.

Lemma setFrom_NoDup : forall values seen, NoDup (Indexes.setFrom seen values).
Proof.
  intros values. induction values as [ | x values IH ]; intros seen; simpl.
  - constructor.
  - destruct (existsb (eqb x) seen); [ apply IH | ].
    constructor; [ | apply IH ].
    intros H. apply setFrom_In in H. destruct H as [_ H]. apply H. left. reflexivity.
Qed.

Lemma expandStep_In :
  forall (field : Indexes.IndexableFieldValue Number) acc row,
    In row (Indexes.expandStep numberToString acc field)
    <-> exists p c, In p acc /\ Indexes.picks numberToString field c /\ row = p ++ [c].
Proof.
  intros field acc row. destruct field as [v | vs]; simpl.
  - rewrite in_map_iff. split.
    + intros [p [<- Hp]]. exists p, (Indexes.templateString numberToString v). auto.
    + intros [p [c [Hp [-> ->]]]]. exists p. auto.
  - rewrite in_flat_map. split.
    + intros [p [Hp Hrow]]. apply in_map_iff in Hrow. destruct Hrow as [item [<- Hitem]].
      exists p, (Indexes.joinString numberToString item). split; [ exact Hp | ].
      split; [ exists item; auto | reflexivity ].
    + intros [p [c [Hp [[item [Hitem ->]] ->]]]]. exists p. split; [ exact Hp | ].
      apply in_map_iff. exists item. auto.
Qed.

Lemma expand_In :
  forall (fields : list (Indexes.IndexableFieldValue Number)) acc row,
    In row (fold_left (Indexes.expandStep numberToString) fields acc)
    <-> exists p choice,
          In p acc /\ Forall2 (Indexes.picks numberToString) fields choice
          /\ row = p ++ choice.
Proof.
  intros fields. induction fields as [ | f fields IH ]; intros acc row; simpl.
  - split.
    + intros H. exists row, []. rewrite app_nil_r. repeat split; [ exact H | constructor ].
    + intros [p [choice [Hp [Hc ->]]]]. inversion Hc. now rewrite app_nil_r.
  - rewrite IH. split.
    + intros [p' [choice [Hp' [Hc ->]]]].
      apply expandStep_In in Hp'. destruct Hp' as [p [c [Hp [Hpick ->]]]].
      exists p, (c :: choice). split; [ exact Hp | ]. split; [ now constructor | ].
      now rewrite <- app_assoc.
    + intros [p [choice [Hp [Hc ->]]]]. inversion Hc as [ | ? c ? rest Hpick Hrest ]; subst.
      exists (p ++ [c]), rest. split; [ | split; [ exact Hrest | now rewrite <- app_assoc ] ].
      apply expandStep_In. exists p, c. auto.
Qed.

Lemma expand_scalars :
  forall (vs : list (Indexes.IndexableScalar Number)) acc,
    fold_left (Indexes.expandStep numberToString) (map Scalar' vs) acc
    = map (fun item => item ++ map (Indexes.templateString numberToString) vs) acc.
Proof.
  intros vs. induction vs as [ | v vs IH ]; intros acc; simpl.
  - induction acc as [ | a acc IHacc ]; [ reflexivity | ].
    simpl. now rewrite app_nil_r, <- IHacc.
  - rewrite IH, map_map. apply map_ext. intros item. now rewrite <- app_assoc.
Qed.

Lemma compound_index_scalars :
  forall vs : list (Indexes.IndexableScalar Number),
    Indexes.createCompoundIndexValue numberToString (map Scalar' vs)
    = Indexes.Single
        (join Indexes.COMPOUND_INDEX_SEPARATOR
              (map (Indexes.templateString numberToString) vs)).
Proof.
  intros vs. unfold Indexes.createCompoundIndexValue, Indexes.expandArrayIndex.
  rewrite expand_scalars. reflexivity.
Qed.

(** X13: when none of the indexed fields is an array, the compound index of
    a document is one string, returned unwrapped: the fields, each converted
    as by a template literal, joined by the separator. *)
Theorem compound_index_of_scalars :
  forall vs : list (Indexes.IndexableScalar Number),
    Indexes.createCompoundIndexValue numberToString (map Scalar' vs)
    = Indexes.Single
        (join Indexes.COMPOUND_INDEX_SEPARATOR
              (map (Indexes.templateString numberToString) vs)).
Proof. exact compound_index_scalars. Qed.

(** X14: with array fields, the compound index holds one string for every
    way of taking one item from each array (the other fields taken as they
    are), each joined by the separator, and it holds no string twice. *)
Theorem compound_index_expands_arrays :
  forall (fields : list (Indexes.IndexableFieldValue Number)) (v : jsstring),
    NoDup (Indexes.expandArrayIndex numberToString fields)
    /\ (In v (Indexes.expandArrayIndex numberToString fields)
        <-> exists choice,
              Forall2 (Indexes.picks numberToString) fields choice
              /\ v = join Indexes.COMPOUND_INDEX_SEPARATOR choice).
Proof.
  intros fields v. unfold Indexes.expandArrayIndex. split; [ apply setFrom_NoDup | ].
  rewrite setFrom_In, in_map_iff. split.
  - intros [[row [<- Hrow]] _]. apply expand_In in Hrow.
    destruct Hrow as [p [choice [[<- | []] [Hc ->]]]]. exists choice. auto.
  - intros [choice [Hc ->]]. split; [ | intros [] ].
    exists choice. split; [ reflexivity | ].
    apply expand_In. exists [], choice. split; [ left; reflexivity | auto ].
Qed.

(** X15: a document with an empty array in one of the indexed fields gets no
    compound index value at all: the result is the empty array, whatever the
    other fields hold. *)
Theorem compound_index_of_empty_array :
  forall fields : list (Indexes.IndexableFieldValue Number),
    In (Indexes.Items []) fields ->
    Indexes.createCompoundIndexValue numberToString fields = Indexes.Multiple [].
Proof.
  intros fields Hempty.
  assert (Hnone : fold_left (Indexes.expandStep numberToString) fields [[]] = []).
  { destruct (fold_left (Indexes.expandStep numberToString) fields [[]]) as [ | row rows ] eqn:E;
      [ reflexivity | ].
    exfalso.
    assert (Hrow : In row (fold_left (Indexes.expandStep numberToString) fields [[]]))
      by (rewrite E; left; reflexivity).
    apply expand_In in Hrow. destruct Hrow as [p [choice [_ [Hc _]]]].
    clear E. induction Hc as [ | f c fields choice Hpick Hc IH ]; [ contradiction | ].
    destruct Hempty as [-> | Hin]; [ | now apply IH ].
    destruct Hpick as [item [[] _]]. }
  unfold Indexes.createCompoundIndexValue, Indexes.expandArrayIndex.
  rewrite Hnone. reflexivity.
Qed.



End IndexFacts.

(** The theorem at the doc comment's document [{ id: '1', tags: [] }]. *)
Lemma compound_index_of_empty_array_witness :
  Indexes.createCompoundIndexValue digitToString
    [Indexes.Scalar (Indexes.IString (js "1")); Indexes.Items []]
  = Indexes.Multiple [].
Proof.
  apply (@compound_index_of_empty_array nat digitToString
           [Indexes.Scalar (Indexes.IString (js "1")); Indexes.Items []]).
  right. left. reflexivity.
Defined.


(** The bounds of a prefix that holds an array: the array is joined with a
    comma in the bounds and expanded in the values, so that both values of
    the fields [[a, b], x] are above the upper bound of the prefix [[a, b]]. *)
Example index_bounds_of_an_array_prefix :
  let prefix := [Indexes.Items [Indexes.IString (js "a"); Indexes.IString (js "b")]] in
  let upper := Indexes.createUpperBoundIndexValue digitToString prefix in
  Indexes.createCompoundIndexValue digitToString
    (prefix ++ [Indexes.Scalar (Indexes.IString (js "x"))])
  = Indexes.Multiple [ js "a" ++ Indexes.COMPOUND_INDEX_SEPARATOR ++ js "x";
                       js "b" ++ Indexes.COMPOUND_INDEX_SEPARATOR ++ js "x" ]
  /\ upper = js "a,b" ++ Indexes.COMPOUND_INDEX_UPPER_BOUND_SEPARATOR
  /\ ltb (js "a" ++ Indexes.COMPOUND_INDEX_SEPARATOR ++ js "x") upper = false
  /\ ltb (js "b" ++ Indexes.COMPOUND_INDEX_SEPARATOR ++ js "x") upper = false.
Proof. vm_compute. repeat split. Qed.

(** The example of the doc comment of [expandArrayIndex], with its two
    array fields. *)
Example expandArrayIndex_doc_comment :
  Indexes.createCompoundIndexValue digitToString
    [ Indexes.Scalar (Indexes.IString (js "1"));
      Indexes.Items [Indexes.IString (js "a"); Indexes.IString (js "b")];
      Indexes.Items [Indexes.IString (js "a"); Indexes.IString (js "b")] ]
  = Indexes.Multiple
      [ js "1" ++ Indexes.COMPOUND_INDEX_SEPARATOR ++ js "a" ++ Indexes.COMPOUND_INDEX_SEPARATOR ++ js "a";
        js "1" ++ Indexes.COMPOUND_INDEX_SEPARATOR ++ js "a" ++ Indexes.COMPOUND_INDEX_SEPARATOR ++ js "b";
        js "1" ++ Indexes.COMPOUND_INDEX_SEPARATOR ++ js "b" ++ Indexes.COMPOUND_INDEX_SEPARATOR ++ js "a";
        js "1" ++ Indexes.COMPOUND_INDEX_SEPARATOR ++ js "b" ++ Indexes.COMPOUND_INDEX_SEPARATOR ++ js "b" ].
Proof. reflexivity. Qed.

Section SanitizeFacts.

Variable Number : Type.

(** Induction on values that reaches inside arrays. *)
Lemma jsvalue_nested_ind (P : Indexes.jsvalue Number -> Prop) :
  P Indexes.VNull ->
  P Indexes.VUndefined ->
  (forall b, P (Indexes.VBoolean b)) ->
  (forall n, P (Indexes.VNumber n)) ->
  (forall s, P (Indexes.VString s)) ->
  (forall items, Forall P items -> P (Indexes.VArray items)) ->
  (forall properties, P (Indexes.VObject properties)) ->
  forall v, P v.
Proof.
  intros Hnull Hundef Hbool Hnum Hstr Harr Hobj.
  fix IH 1. intros [ | | b | n | s | items | properties ].
  - exact Hnull.
  - exact Hundef.
  - apply Hbool.
  - apply Hnum.
  - apply Hstr.
  - apply Harr. induction items as [ | item items IHitems ]; constructor.
    + apply IH.
    + exact IHitems.
  - apply Hobj.
Qed.

(** X17: [sanitizeIndexValue] throws exactly for a value that is an object or
    holds one inside its arrays; otherwise its result contains only strings,
    numbers and arrays of them (null, undefined and booleans have become
    strings), and sanitizing the result again gives the result back. *)
Theorem sanitizeIndexValue_is_idempotent :
  forall v : Indexes.jsvalue Number,
    match Indexes.sanitizeIndexValue v with
    | None => Indexes.holdsObject v = true
    | Some r =>
        Indexes.holdsObject v = false
        /\ Indexes.isIndexValue r = true
        /\ Indexes.sanitizeIndexValue r = Some r
    end.
Proof.
  induction v as [ | | b | n | s | items IH | properties ] using jsvalue_nested_ind;
    try (simpl; auto; fail).
  - destruct b; simpl; auto.
  - cbn [Indexes.sanitizeIndexValue Indexes.holdsObject].
    induction IH as [ | item items Hitem Hitems IHitems ]; [ simpl; auto | ].
    destruct (Indexes.sanitizeIndexValue item) as [item' | ] eqn:Eitem.
    + destruct Hitem as [Hno [Hidx Hagain]].
      match type of IHitems with
      | match option_map _ ?m with _ => _ end => destruct m as [rest' | ] eqn:Erest
      end.
      * cbn [option_map] in IHitems |- *. destruct IHitems as [Hno' [Hidx' Hagain']].
        cbn [existsb]. rewrite Hno, Hno'. split; [ reflexivity | ].
        cbn [Indexes.isIndexValue forallb] in Hidx' |- *. rewrite Hidx, Hidx'.
        split; [ reflexivity | ].
        cbn [Indexes.sanitizeIndexValue] in Hagain' |- *. rewrite Hagain.
        match type of Hagain' with
        | option_map _ ?m = _ => destruct m as [again | ]; [ | discriminate Hagain' ]
        end.
        cbn [option_map] in Hagain' |- *. injection Hagain' as ->. reflexivity.
      * cbn [option_map] in IHitems |- *. cbn [existsb]. rewrite IHitems. apply orb_true_r.
    + cbn [option_map existsb]. now rewrite Hitem.
Qed.

End SanitizeFacts.

(* ================================================================== *)
(** * Databases: what the cache guarantees *)
(* ================================================================== *)

Lemma lookup_assign_same :
  forall (V : Type) key (value : V) record,
    Databases.lookup key (Databases.assign key value record) = Some value.
Proof.
  intros V key value record. unfold Databases.lookup.
  induction record as [|[k v] rest IH]; cbn.
  - now rewrite eqb_refl.
  - destruct (eqb k key) eqn:E; cbn; rewrite E; [reflexivity | exact IH].
Qed.

Lemma lookup_assign_other :
  forall (V : Type) key other (value : V) record,
    other <> key ->
    Databases.lookup other (Databases.assign key value record) = Databases.lookup other record.
Proof.
  intros V key other value record Hne. unfold Databases.lookup.
  induction record as [|[k v] rest IH]; cbn.
  - assert (E : eqb key other = false) by (apply eqb_neq; congruence).
    now rewrite E.
  - destruct (eqb k key) eqn:E; cbn.
    + apply eqb_eq in E. subst k.
      assert (E' : eqb key other = false) by (apply eqb_neq; congruence).
      now rewrite E'.
    + destruct (eqb k other); [reflexivity | exact IH].
Qed.

Lemma lookup_remove_same :
  forall (V : Type) key (record : list (jsstring * V)),
    Databases.lookup key (Databases.remove key record) = None.
Proof.
  intros V key record. unfold Databases.lookup, Databases.remove.
  induction record as [|[k v] rest IH]; cbn; [reflexivity|].
  destruct (eqb k key) eqn:E; cbn; [exact IH | now rewrite E].
Qed.

Lemma NoDup_map_fst_filter :
  forall (A B : Type) (p : A * B -> bool) (l : list (A * B)),
    NoDup (map fst l) -> NoDup (map fst (filter p l)).
Proof.
  intros A B p l. induction l as [|x rest IH]; cbn; intros H; [constructor|].
  inversion H as [|? ? Hnotin Hrest]; subst.
  destruct (p x); cbn; [constructor|]; auto.
  intros Hin. apply Hnotin. apply in_map_iff in Hin. destruct Hin as [y [Hy Hin]].
  apply filter_In in Hin. apply in_map_iff. exists y. tauto.
Qed.

Lemma NoDup_snoc :
  forall (A : Type) (x : A) (l : list A), NoDup l -> ~ In x l -> NoDup (l ++ [x]).
Proof.
  intros A x l Hl Hx. induction Hl as [|y l Hy Hl IH]; cbn.
  - constructor; [intros [] | constructor].
  - constructor.
    + intros Hin. apply in_app_or in Hin. destruct Hin as [Hin | [Heq | []]].
      * now apply Hy.
      * subst. apply Hx. now left.
    + apply IH. intros Hin. apply Hx. now right.
Qed.

Lemma clearTimeout_recorded :
  forall handle s,
    Databases.timersRecorded s -> Databases.timersRecorded (Databases.clearTimeout handle s).
Proof.
  intros [h|] s [Hrec Hdis Hbel]; [|now constructor].
  constructor; cbn.
  - intros h' k Hin. apply filter_In in Hin. now apply Hrec.
  - now apply NoDup_map_fst_filter.
  - intros h' k Hin. apply filter_In in Hin. now apply Hbel with k.
Qed.

Lemma clearTimeout_recorded_gone :
  forall libraryId s h,
    Databases.timersRecorded s ->
    ~ In (h, libraryId)
         (Databases.timers
            (Databases.clearTimeout
               (Databases.lookup libraryId (Databases.closeTimeouts s)) s)).
Proof.
  intros libraryId s h [Hrec _ _] Hin.
  destruct (Databases.lookup libraryId (Databases.closeTimeouts s)) as [h0|] eqn:E; cbn in Hin.
  - apply filter_In in Hin. destruct Hin as [Hin Hneq]. cbn in Hneq.
    apply Hrec in Hin. rewrite E in Hin. injection Hin as ->.
    now rewrite Nat.eqb_refl in Hneq.
  - apply Hrec in Hin. congruence.
Qed.

Lemma enqueueClose_recorded :
  forall libraryId s,
    Databases.timersRecorded s -> Databases.timersRecorded (Databases.enqueueClose libraryId s).
Proof.
  intros libraryId s Hs.
  pose proof (clearTimeout_recorded (Databases.lookup libraryId (Databases.closeTimeouts s)) Hs)
    as Hc.
  pose proof (fun h => @clearTimeout_recorded_gone libraryId s h Hs) as Hgone.
  unfold Databases.enqueueClose.
  set (s1 := Databases.clearTimeout _ s) in *.
  destruct Hc as [Hrec Hdis Hbel].
  constructor; cbn.
  - intros h k Hin. apply in_app_or in Hin. destruct Hin as [Hin | [Heq | []]].
    + destruct (eqb k libraryId) eqn:E.
      * apply eqb_eq in E. subst k. now apply Hgone in Hin.
      * apply eqb_neq in E. rewrite lookup_assign_other by exact E. now apply Hrec.
    + injection Heq as <- <-. apply lookup_assign_same.
  - rewrite map_app. cbn. apply NoDup_snoc; [exact Hdis|].
    intros Hin. apply in_map_iff in Hin. destruct Hin as [[h k] [Hh Hin]]. cbn in Hh. subst h.
    apply Hbel in Hin. lia.
  - intros h k Hin. apply in_app_or in Hin. destruct Hin as [Hin | [Heq | []]].
    + apply Hbel in Hin. lia.
    + injection Heq as <- <-. lia.
Qed.

Lemma close_recorded :
  forall libraryId s,
    Databases.timersRecorded s -> Databases.timersRecorded (snd (Databases.close libraryId s)).
Proof.
  intros libraryId s Hs.
  pose proof (clearTimeout_recorded (Databases.lookup libraryId (Databases.closeTimeouts s)) Hs)
    as [Hrec Hdis Hbel].
  unfold Databases.close. cbn [Databases.cache].
  rewrite lookup_remove_same.
  destruct (existsb (eqb libraryId) inheritedKeys); cbn [snd]; constructor; assumption.
Qed.

Lemma closeAll_recorded :
  forall keys s,
    Databases.timersRecorded s -> Databases.timersRecorded (snd (Databases.closeAll keys s)).
Proof.
  induction keys as [|k rest IH]; intros s Hs; cbn; [exact Hs|].
  pose proof (close_recorded k Hs) as Hc.
  destruct (Databases.close k s) as [[|] s']; cbn in Hc |- *; [now apply IH | exact Hc].
Qed.

Lemma step_recorded :
  forall s a, Databases.timersRecorded s -> Databases.timersRecorded (Databases.step s a).
Proof.
  intros s a Hs. destruct a as [k | i | i | k | | h]; cbn.
  - unfold Databases.getStart. destruct (Databases.isCached k s); cbn.
    + now apply enqueueClose_recorded.
    + destruct Hs. constructor; assumption.
  - unfold Databases.getResume. destruct (nth_error (Databases.opening s) i); cbn; [|exact Hs].
    apply enqueueClose_recorded. destruct Hs. constructor; assumption.
  - destruct Hs. constructor; assumption.
  - now apply close_recorded.
  - now apply closeAll_recorded.
  - unfold Databases.fire.
    destruct (find (fun t => Nat.eqb (fst t) h) (Databases.timers s)) as [[h' k]|]; [|exact Hs].
    apply close_recorded. exact (clearTimeout_recorded (Some h) Hs).
Qed.

Lemma steps_recorded :
  forall history s,
    Databases.timersRecorded s -> Databases.timersRecorded (fold_left Databases.step history s).
Proof.
  induction history as [|a rest IH]; intros s Hs; cbn; [exact Hs|].
  apply IH. now apply step_recorded.
Qed.

Lemma run_recorded :
  forall config_disableWal history,
    Databases.timersRecorded (Databases.run config_disableWal history).
Proof.
  intros w history. apply steps_recorded. constructor; cbn.
  - intros h k [].
  - constructor.
  - intros h k [].
Qed.

Lemma recorded_pending_le_1 :
  forall (record : jsstring -> option nat) libraryId (timers : list (nat * jsstring)),
    (forall h k, In (h, k) timers -> record k = Some h) ->
    NoDup (map fst timers) ->
    List.length (filter (fun t => eqb (snd t) libraryId) timers) <= 1.
Proof.
  intros record libraryId timers. induction timers as [|[h k] rest IH]; cbn; intros Hrec Hdis.
  - lia.
  - inversion Hdis as [|? ? Hnotin Hrest]; subst.
    assert (IH' := IH (fun h' k' Hin => Hrec h' k' (or_intror Hin)) Hrest).
    destruct (eqb k libraryId) eqn:E; [|exact IH'].
    apply eqb_eq in E. subst k. cbn.
    destruct (filter (fun t => eqb (snd t) libraryId) rest) as [|[h' k'] more] eqn:F; [cbn; lia|].
    exfalso. assert (Hin : In (h', k') (filter (fun t => eqb (snd t) libraryId) rest))
      by (rewrite F; now left).
    apply filter_In in Hin. destruct Hin as [Hin Hk]. cbn in Hk. apply eqb_eq in Hk. subst k'.
    assert (H1 := Hrec h libraryId (or_introl eq_refl)).
    assert (H2 := Hrec h' libraryId (or_intror Hin)).
    rewrite H1 in H2. injection H2 as <-.
    apply Hnotin. apply in_map_iff. now exists (h, libraryId).
Qed.

(** X18 (Databases.enqueueClose, close, get, destroy): whatever calls of
    [get], [close] and [destroy] are made, however the waits of [get] for
    [openDatabase] interleave and whichever timers fire, a library never has
    more than one close timer armed. *)
Theorem at_most_one_close_timer_per_library :
  forall config_disableWal history libraryId,
    List.length
      (Databases.pendingCloses libraryId (Databases.run config_disableWal history)) <= 1.
Proof.
  intros w history libraryId.
  destruct (run_recorded w history) as [Hrec Hdis _].
  unfold Databases.pendingCloses.
  exact (@recorded_pending_le_1
           (fun k => Databases.lookup k
                       (Databases.closeTimeouts (Databases.run w history)))
           libraryId _ Hrec Hdis).
Qed.

Lemma close_destroyed :
  forall libraryId s,
    Databases.destroyed (snd (Databases.close libraryId s)) = Databases.destroyed s.
Proof.
  intros libraryId s. unfold Databases.close. cbn [Databases.cache].
  rewrite lookup_remove_same.
  destruct (existsb (eqb libraryId) inheritedKeys); cbn;
    now destruct (Databases.lookup libraryId (Databases.closeTimeouts s)).
Qed.

Lemma closeAll_destroyed :
  forall keys s,
    Databases.destroyed (snd (Databases.closeAll keys s)) = Databases.destroyed s.
Proof.
  induction keys as [|k rest IH]; intros s; cbn; [reflexivity|].
  pose proof (close_destroyed k s) as Hc.
  destruct (Databases.close k s) as [[|] s']; cbn in Hc |- *; [now rewrite IH | exact Hc].
Qed.

Lemma enqueueClose_destroyed :
  forall libraryId s,
    Databases.destroyed (Databases.enqueueClose libraryId s) = Databases.destroyed s.
Proof.
  intros libraryId s. unfold Databases.enqueueClose. cbn.
  now destruct (Databases.lookup libraryId (Databases.closeTimeouts s)).
Qed.

Lemma step_destroyed :
  forall s a, Databases.destroyed (Databases.step s a) = Databases.destroyed s.
Proof.
  intros s a. destruct a as [k | i | i | k | | h]; cbn.
  - unfold Databases.getStart. destruct (Databases.isCached k s); cbn [snd]; [|reflexivity].
    apply enqueueClose_destroyed.
  - unfold Databases.getResume.
    destruct (nth_error (Databases.opening s) i); cbn [snd]; [|reflexivity].
    now rewrite enqueueClose_destroyed.
  - reflexivity.
  - apply close_destroyed.
  - apply closeAll_destroyed.
  - unfold Databases.fire.
    destruct (find (fun t => Nat.eqb (fst t) h) (Databases.timers s)) as [[h' k]|]; [|reflexivity].
    now rewrite close_destroyed.
Qed.

(** X19 (Databases.close): no history of calls ever reaches [destroy()] on
    a connection: [close] deletes the entry of the cache before it looks the
    connection up, so what it closes is only dropped. *)
Theorem close_never_destroys_a_connection :
  forall config_disableWal history,
    Databases.destroyed (Databases.run config_disableWal history) = [].
Proof.
  intros w history. unfold Databases.run.
  assert (H : forall s, Databases.destroyed (fold_left Databases.step history s)
                        = Databases.destroyed s).
  { induction history as [|a rest IH]; intros s; cbn; [reflexivity|].
    rewrite IH. apply step_destroyed. }
  now rewrite H.
Qed.

Lemma pendingCloses_enqueueClose :
  forall libraryId s,
    Databases.timersRecorded s ->
    Databases.pendingCloses libraryId (Databases.enqueueClose libraryId s)
    = [(Databases.nextTimer s, libraryId)].
Proof.
  intros libraryId s Hs.
  pose proof (fun h => @clearTimeout_recorded_gone libraryId s h Hs) as Hgone.
  unfold Databases.pendingCloses, Databases.enqueueClose. cbn [Databases.timers].
  rewrite filter_app. cbn. rewrite eqb_refl.
  replace (Databases.nextTimer
             (Databases.clearTimeout (Databases.lookup libraryId (Databases.closeTimeouts s)) s))
    with (Databases.nextTimer s)
    by now destruct (Databases.lookup libraryId (Databases.closeTimeouts s)).
  match goal with |- ?l ++ _ = _ => assert (E : l = []) end; [|now rewrite E].
  match goal with |- ?l = [] => destruct l as [|[h k] more] eqn:F end; [reflexivity|].
  exfalso.
  match type of F with ?l = _ => assert (Hin : In (h, k) l) by (rewrite F; now left) end.
  apply filter_In in Hin. destruct Hin as [Hin Hk]. cbn in Hk. apply eqb_eq in Hk. subst k.
  exact (Hgone h Hin).
Qed.

Lemma enqueueClose_cache :
  forall libraryId s,
    Databases.cache (Databases.enqueueClose libraryId s) = Databases.cache s
    /\ Databases.opened (Databases.enqueueClose libraryId s) = Databases.opened s.
Proof.
  intros libraryId s. unfold Databases.enqueueClose. cbn.
  now destruct (Databases.lookup libraryId (Databases.closeTimeouts s)).
Qed.

(** X20 (Databases.get): whatever happened before, [get] of a library that
    is in the cache resolves to the cached connection without a call of
    [openDatabase], and leaves exactly one close timer armed for the
    library, a new one: the idle period starts again. *)
Theorem get_of_a_cached_library_rearms_the_close :
  forall config_disableWal history libraryId db,
    Databases.lookup libraryId (Databases.cache (Databases.run config_disableWal history))
    = Some db ->
    let s := Databases.run config_disableWal history in
    let s' := snd (Databases.getStart libraryId s) in
    fst (Databases.getStart libraryId s) = Some (Databases.GotConnection db)
    /\ Databases.opened s' = Databases.opened s
    /\ Databases.cache s' = Databases.cache s
    /\ Databases.pendingCloses libraryId s' = [(Databases.nextTimer s, libraryId)].
Proof.
  intros w history libraryId db Hhit s s'.
  pose proof (run_recorded w history) as Hs. fold s in Hs, Hhit.
  destruct (enqueueClose_cache libraryId s) as [Hcache Hopened].
  subst s'. unfold Databases.getStart, Databases.isCached. rewrite Hhit. cbn [fst snd].
  rewrite Hcache, Hhit. repeat split; try assumption.
  now apply pendingCloses_enqueueClose.
Qed.

(** X21 (Databases.close): after [close], in whatever state it is called,
    the library is not in the cache and has no close timer armed. *)
Theorem close_forgets_the_library :
  forall config_disableWal history libraryId,
    let s' := snd (Databases.close libraryId (Databases.run config_disableWal history)) in
    Databases.lookup libraryId (Databases.cache s') = None
    /\ Databases.pendingCloses libraryId s' = [].
Proof.
  intros w history libraryId s'.
  pose proof (run_recorded w history) as Hs.
  pose proof (fun h => @clearTimeout_recorded_gone libraryId _ h Hs) as Hgone.
  subst s'. unfold Databases.close. cbn [Databases.cache].
  rewrite lookup_remove_same.
  assert (Hnone : filter (fun t => eqb (snd t) libraryId)
                    (Databases.timers
                       (Databases.clearTimeout
                          (Databases.lookup libraryId
                             (Databases.closeTimeouts (Databases.run w history)))
                          (Databases.run w history))) = []).
  { match goal with |- ?l = [] => destruct l as [|[h k] more] eqn:F end; [reflexivity|].
    exfalso.
    match type of F with ?l = _ => assert (Hin : In (h, k) l) by (rewrite F; now left) end.
    apply filter_In in Hin. destruct Hin as [Hin Hk]. cbn in Hk. apply eqb_eq in Hk. subst k.
    exact (Hgone h Hin). }
  destruct (existsb (eqb libraryId) inheritedKeys); cbn [snd Databases.cache];
    unfold Databases.pendingCloses; cbn [Databases.timers];
    (split; [apply lookup_remove_same | exact Hnone]).
Qed.

Lemma enqueueClose_sameOpens :
  forall libraryId s, Databases.sameOpens s (Databases.enqueueClose libraryId s).
Proof.
  intros libraryId s. unfold Databases.sameOpens, Databases.enqueueClose. cbn.
  now destruct (Databases.lookup libraryId (Databases.closeTimeouts s)).
Qed.

Lemma close_sameOpens :
  forall libraryId s, Databases.sameOpens s (snd (Databases.close libraryId s)).
Proof.
  intros libraryId s. unfold Databases.sameOpens, Databases.close. cbn [Databases.cache].
  rewrite lookup_remove_same.
  destruct (existsb (eqb libraryId) inheritedKeys); cbn;
    now destruct (Databases.lookup libraryId (Databases.closeTimeouts s)).
Qed.

Lemma closeAll_sameOpens :
  forall keys s, Databases.sameOpens s (snd (Databases.closeAll keys s)).
Proof.
  induction keys as [|k rest IH]; intros s; cbn; [now repeat split|].
  pose proof (close_sameOpens k s) as Hc.
  destruct (Databases.close k s) as [[|] s']; cbn in Hc |- *; [|exact Hc].
  destruct Hc as [H1 [H2 H3]]. destruct (IH s') as [H1' [H2' H3']].
  repeat split; congruence.
Qed.

Lemma fire_sameOpens :
  forall handle s, Databases.sameOpens s (Databases.fire handle s).
Proof.
  intros handle s. unfold Databases.fire.
  destruct (find (fun t => Nat.eqb (fst t) handle) (Databases.timers s)) as [[h k]|];
    [|now repeat split].
  match goal with |- Databases.sameOpens _ (snd (Databases.close _ ?s1)) =>
    destruct (close_sameOpens k s1) as [H1 [H2 H3]] end.
  repeat split; assumption.
Qed.

Lemma sameOpens_logged :
  forall s s', Databases.sameOpens s s' -> Databases.opensLogged s -> Databases.opensLogged s'.
Proof.
  intros s s' [H1 [H2 H3]] [Hm Ho Hs]. constructor; rewrite ?H1, ?H2, ?H3; assumption.
Qed.

Lemma In_dropNth :
  forall (A : Type) (x : A) i l, In x (Databases.dropNth i l) -> In x l.
Proof.
  intros A x i l. unfold Databases.dropNth. revert l.
  induction i as [|i IH]; intros [|y l]; cbn; auto.
  intros [H | H]; [now left | right; now apply IH].
Qed.

Lemma snoc_split :
  forall (A : Type) (before : list A) x after l y,
    before ++ x :: after = l ++ [y] ->
    (after = [] /\ before = l /\ x = y)
    \/ (exists after', after = after' ++ [y] /\ l = before ++ x :: after').
Proof.
  intros A before x after l y H.
  destruct after as [|z after] using rev_ind.
  - left. apply app_inj_tail in H. tauto.
  - right. exists after. clear IHafter.
    change (before ++ x :: after ++ [z]) with (before ++ (x :: after) ++ [z]) in H.
    rewrite app_assoc in H. apply app_inj_tail in H. destruct H as [H ->].
    split; [reflexivity | now rewrite H].
Qed.

Lemma step_logged :
  forall s a, Databases.opensLogged s -> Databases.opensLogged (Databases.step s a).
Proof.
  intros s a Hs. destruct a as [k | i | i | k | | h]; cbn.
  - unfold Databases.getStart. destruct (Databases.isCached k s); cbn [snd].
    + exact (sameOpens_logged (enqueueClose_sameOpens k s) Hs).
    + destruct Hs as [Hm Ho Hs]. constructor; cbn.
      * intros id Hin. destruct (Hm id Hin) as [db [Hdb Hid]].
        exists db. split; [apply in_or_app; now left | exact Hid].
      * intros db Hin. apply in_or_app. apply in_app_or in Hin.
        destruct Hin as [Hin | Hin]; [left; now apply Ho | now right].
      * intros before db after Heq Hskip. symmetry in Heq. apply snoc_split in Heq.
        destruct Heq as [[_ [-> ->]] | [after' [_ Hl]]].
        -- cbn in Hskip. apply existsb_eqb_In in Hskip. exact (Hm k Hskip).
        -- exact (Hs before db after' Hl Hskip).
  - unfold Databases.getResume.
    destruct (nth_error (Databases.opening s) i) as [db|] eqn:E; cbn [snd]; [|exact Hs].
    eapply sameOpens_logged; [apply enqueueClose_sameOpens|].
    destruct Hs as [Hm Ho Hs]. constructor; cbn.
    + intros id Hin.
      destruct (existsb (eqb (Databases.conn_library db)) (Databases.openedPreviously s));
        [now apply Hm|].
      apply in_app_or in Hin. destruct Hin as [Hin | [<- | []]]; [now apply Hm|].
      exists db. split; [|reflexivity]. apply Ho. eapply nth_error_In. exact E.
    + intros db' Hin. apply Ho. eapply In_dropNth. exact Hin.
    + exact Hs.
  - destruct Hs as [Hm Ho Hs]. constructor; cbn; try assumption.
    intros db' Hin. apply Ho. eapply In_dropNth. exact Hin.
  - exact (sameOpens_logged (close_sameOpens k s) Hs).
  - exact (sameOpens_logged (closeAll_sameOpens _ s) Hs).
  - exact (sameOpens_logged (fire_sameOpens h s) Hs).
Qed.

Lemma run_logged :
  forall config_disableWal history,
    Databases.opensLogged (Databases.run config_disableWal history).
Proof.
  intros w history. unfold Databases.run.
  assert (H : forall s, Databases.opensLogged s ->
                        Databases.opensLogged (fold_left Databases.step history s)).
  { induction history as [|a rest IH]; intros s Hs; cbn; [exact Hs|].
    apply IH. now apply step_logged. }
  apply H. constructor; cbn.
  - intros id [].
  - intros db [].
  - intros [|x before] db after Heq; discriminate.
Qed.

(** X22 (Databases.get): the first call of [openDatabase] for a library
    runs the migrations, in every history: [skipMigrations] is passed as
    true only after an earlier call for the same library. *)
Theorem first_open_of_a_library_runs_migrations :
  forall config_disableWal history before db after,
    Databases.opened (Databases.run config_disableWal history) = before ++ db :: after ->
    (forall earlier, In earlier before ->
                     Databases.conn_library earlier <> Databases.conn_library db) ->
    Databases.skipMigrations db = false.
Proof.
  intros w history before db after Heq Hfirst.
  destruct (run_logged w history) as [_ _ Hs].
  destruct (Databases.skipMigrations db) eqn:E; [|reflexivity].
  destruct (Hs before db after Heq E) as [earlier [Hin Hid]].
  now apply Hfirst in Hin.
Qed.

Lemma step_keeps_marks :
  forall libraryId s a,
    In libraryId (Databases.openedPreviously s) ->
    In libraryId (Databases.openedPreviously (Databases.step s a)).
Proof.
  intros id s a Hin. destruct a as [k | i | i | k | | h]; cbn.
  - unfold Databases.getStart. destruct (Databases.isCached k s); cbn [snd]; [|exact Hin].
    destruct (enqueueClose_sameOpens k s) as [_ [-> _]]. exact Hin.
  - unfold Databases.getResume.
    destruct (nth_error (Databases.opening s) i) as [db|]; cbn [snd]; [|exact Hin].
    match goal with |- In _ (Databases.openedPreviously (Databases.enqueueClose ?k ?s1)) =>
      destruct (enqueueClose_sameOpens k s1) as [_ [-> _]] end.
    cbn. destruct (existsb _ _); [exact Hin | apply in_or_app; now left].
  - exact Hin.
  - destruct (close_sameOpens k s) as [_ [-> _]]. exact Hin.
  - destruct (closeAll_sameOpens (Databases.ownKeys (Databases.cache s)) s) as [_ [H _]].
    unfold Databases.destroy. rewrite H. exact Hin.
  - destruct (fire_sameOpens h s) as [_ [-> _]]. exact Hin.
Qed.

Lemma steps_keep_marks :
  forall libraryId history s,
    In libraryId (Databases.openedPreviously s) ->
    In libraryId (Databases.openedPreviously (fold_left Databases.step history s)).
Proof.
  intros id history. induction history as [|a rest IH]; intros s Hin; cbn; [exact Hin|].
  apply IH. now apply step_keeps_marks.
Qed.

(** X23 (Databases.get, close): once a [get] of a library has resolved,
    every later [get] that has to open the library again, after [close] or
    after the close timer, passes [skipMigrations: true]: closing does not
    forget that the library was opened. *)
Theorem reopening_a_library_skips_migrations :
  forall config_disableWal history i db later,
    nth_error (Databases.opening (Databases.run config_disableWal history)) i = Some db ->
    let libraryId := Databases.conn_library db in
    let s := Databases.run config_disableWal (history ++ Databases.GetResume i :: later) in
    Databases.isCached libraryId s = false ->
    fst (Databases.getStart libraryId s) = None
    /\ exists db',
         Databases.opened (snd (Databases.getStart libraryId s)) = Databases.opened s ++ [db']
         /\ Databases.conn_library db' = libraryId
         /\ Databases.skipMigrations db' = true.
Proof.
  intros w history i db later Hnth libraryId s Hmiss.
  assert (Hmark : In libraryId (Databases.openedPreviously s)).
  { subst s. unfold Databases.run. rewrite fold_left_app. cbn [fold_left].
    apply steps_keep_marks. cbn [Databases.step]. unfold Databases.getResume.
    fold (Databases.run w history). rewrite Hnth. cbn [snd].
    match goal with |- In _ (Databases.openedPreviously (Databases.enqueueClose ?k ?s1)) =>
      destruct (enqueueClose_sameOpens k s1) as [_ [-> _]] end.
    cbn. fold libraryId.
    destruct (existsb (eqb libraryId) _) eqn:E;
      [now apply existsb_eqb_In | apply in_or_app; right; now left]. }
  unfold Databases.getStart. rewrite Hmiss. cbn [fst snd]. split; [reflexivity|].
  eexists. cbn. repeat split. now apply existsb_eqb_In.
Qed.

Lemma dropNth_middle :
  forall (A : Type) (l : list A) x rest,
    Databases.dropNth (List.length l) (l ++ x :: rest) = l ++ rest.
Proof.
  intros A l x rest. unfold Databases.dropNth.
  induction l as [|y l IH]; cbn; [reflexivity|].
  cbn in IH. now rewrite IH.
Qed.

Lemma nth_error_middle :
  forall (A : Type) (l : list A) x rest,
    nth_error (l ++ x :: rest) (List.length l) = Some x.
Proof.
  intros A l x rest. induction l as [|y l IH]; cbn; [reflexivity | exact IH].
Qed.

Lemma getResume_at :
  forall i s db,
    nth_error (Databases.opening s) i = Some db ->
    let s' := snd (Databases.getResume i s) in
    Databases.cache s' = Databases.assign (Databases.conn_library db) db (Databases.cache s)
    /\ Databases.opened s' = Databases.opened s
    /\ Databases.opening s' = Databases.dropNth i (Databases.opening s).
Proof.
  intros i s db Hnth s'. subst s'. unfold Databases.getResume. rewrite Hnth. cbn [snd].
  match goal with |- context [Databases.enqueueClose ?k ?s1] =>
    destruct (enqueueClose_cache k s1) as [-> _];
    destruct (enqueueClose_sameOpens k s1) as [-> [_ ->]] end.
  now repeat split.
Qed.

(** X24 (Databases.get): two calls of [get] for a library that is not in
    the cache, the second made while the first waits for [openDatabase],
    open the database twice with the same options; when both have resolved
    in that order, the cache holds the connection of the second call, which
    is not the connection the first call resolved to. *)
Theorem overlapping_gets_open_the_library_twice :
  forall config_disableWal history libraryId,
    let s := Databases.run config_disableWal history in
    Databases.isCached libraryId s = false ->
    let n := List.length (Databases.opening s) in
    let s' := Databases.run config_disableWal
                (history ++ [Databases.GetStart libraryId; Databases.GetStart libraryId;
                             Databases.GetResume n; Databases.GetResume n]) in
    exists db1 db2,
      Databases.opened s' = Databases.opened s ++ [db1; db2]
      /\ Databases.conn_library db1 = libraryId
      /\ Databases.conn_library db2 = libraryId
      /\ Databases.skipMigrations db1 = Databases.skipMigrations db2
      /\ Databases.serial db1 <> Databases.serial db2
      /\ Databases.lookup libraryId (Databases.cache s') = Some db2.
Proof.
  intros w history libraryId s Hmiss n s'.
  subst s'. unfold Databases.run. rewrite fold_left_app. fold (Databases.run w history).
  fold s. cbn [fold_left Databases.step].
  set (db1 := Databases.mkConnection libraryId
                (existsb (eqb libraryId) (Databases.openedPreviously s))
                (Databases.disableWal s) (List.length (Databases.opened s))).
  set (db2 := Databases.mkConnection libraryId
                (existsb (eqb libraryId) (Databases.openedPreviously s))
                (Databases.disableWal s) (List.length (Databases.opened s ++ [db1]))).
  set (s1 := snd (Databases.getStart libraryId s)).
  assert (E1 : s1 = Databases.mkState (Databases.cache s) (Databases.closeTimeouts s)
                      (Databases.openedPreviously s) (Databases.disableWal s)
                      (Databases.timers s) (Databases.nextTimer s)
                      (Databases.opening s ++ [db1]) (Databases.opened s ++ [db1])
                      (Databases.destroyed s)).
  { subst s1. unfold Databases.getStart. now rewrite Hmiss. }
  set (s2 := snd (Databases.getStart libraryId s1)).
  assert (E2 : s2 = Databases.mkState (Databases.cache s) (Databases.closeTimeouts s)
                      (Databases.openedPreviously s) (Databases.disableWal s)
                      (Databases.timers s) (Databases.nextTimer s)
                      (Databases.opening s ++ [db1; db2]) (Databases.opened s ++ [db1; db2])
                      (Databases.destroyed s)).
  { subst s2. unfold Databases.getStart.
    assert (Hmiss1 : Databases.isCached libraryId s1 = false)
      by (rewrite E1; exact Hmiss).
    rewrite Hmiss1. rewrite E1. cbn. now rewrite <- !app_assoc. }
  assert (N2 : nth_error (Databases.opening s2) n = Some db1)
    by (rewrite E2; apply nth_error_middle).
  destruct (getResume_at n s2 N2) as [C3 [O3 W3]].
  set (s3 := snd (Databases.getResume n s2)) in *.
  assert (N3 : nth_error (Databases.opening s3) n = Some db2).
  { rewrite W3, E2. cbn [Databases.opening]. unfold n. rewrite dropNth_middle.
    apply nth_error_middle. }
  destruct (getResume_at n s3 N3) as [C4 [O4 _]].
  exists db1, db2. rewrite O4, O3, C4. rewrite E2 at 1. cbn [Databases.opened].
  repeat split.
  - cbn. rewrite length_app. cbn. lia.
  - apply lookup_assign_same.
Qed.

Lemma get_of_a_cached_library_rearms_the_close_witness :
  let history := [Databases.GetStart (js "library"); Databases.GetResume 0] in
  let s := Databases.run false history in
  let s' := snd (Databases.getStart (js "library") s) in
  Databases.lookup (js "library") (Databases.cache s)
  = Some (Databases.mkConnection (js "library") false false 0)
  /\ fst (Databases.getStart (js "library") s)
     = Some (Databases.GotConnection (Databases.mkConnection (js "library") false false 0))
  /\ Databases.opened s' = Databases.opened s
  /\ Databases.cache s' = Databases.cache s
  /\ Databases.pendingCloses (js "library") s' = [(Databases.nextTimer s, js "library")].
Proof.
  intros history s s'.
  assert (Hhit : Databases.lookup (js "library") (Databases.cache (Databases.run false history))
                 = Some (Databases.mkConnection (js "library") false false 0))
    by reflexivity.
  split; [exact Hhit|].
  exact (@get_of_a_cached_library_rearms_the_close false history (js "library") _ Hhit).
Defined.

Lemma first_open_of_a_library_runs_migrations_witness :
  Databases.opened
    (Databases.run false [Databases.GetStart (js "a"); Databases.GetStart (js "b")])
  = [Databases.mkConnection (js "a") false false 0]
      ++ Databases.mkConnection (js "b") false false 1 :: []
  /\ Databases.skipMigrations (Databases.mkConnection (js "b") false false 1) = false.
Proof.
  split; [reflexivity|].
  apply (@first_open_of_a_library_runs_migrations false
           [Databases.GetStart (js "a"); Databases.GetStart (js "b")]
           [Databases.mkConnection (js "a") false false 0]
           (Databases.mkConnection (js "b") false false 1) []).
  - reflexivity.
  - intros earlier [<- | []]. cbn. discriminate.
Defined.

(** The library is opened, closed and opened again. *)
Lemma reopening_a_library_skips_migrations_witness :
  let s := Databases.run false
             ([Databases.GetStart (js "library")]
                ++ Databases.GetResume 0 :: [Databases.Close (js "library")]) in
  fst (Databases.getStart (js "library") s) = None
  /\ exists db',
       Databases.opened (snd (Databases.getStart (js "library") s))
       = Databases.opened s ++ [db']
       /\ Databases.conn_library db' = js "library"
       /\ Databases.skipMigrations db' = true.
Proof.
  apply (@reopening_a_library_skips_migrations false [Databases.GetStart (js "library")] 0
           (Databases.mkConnection (js "library") false false 0)
           [Databases.Close (js "library")]).
  - reflexivity.
  - reflexivity.
Defined.

Lemma overlapping_gets_open_the_library_twice_witness :
  exists db1 db2,
    Databases.opened
      (Databases.run false
         ([] ++ [Databases.GetStart (js "library"); Databases.GetStart (js "library");
                 Databases.GetResume 0; Databases.GetResume 0]))
    = [] ++ [db1; db2]
    /\ Databases.conn_library db1 = js "library"
    /\ Databases.conn_library db2 = js "library"
    /\ Databases.skipMigrations db1 = Databases.skipMigrations db2
    /\ Databases.serial db1 <> Databases.serial db2
    /\ Databases.lookup (js "library")
         (Databases.cache
            (Databases.run false
               ([] ++ [Databases.GetStart (js "library"); Databases.GetStart (js "library");
                       Databases.GetResume 0; Databases.GetResume 0])))
       = Some db2.
Proof.
  apply (@overlapping_gets_open_the_library_twice false [] (js "library")).
  reflexivity.
Defined.
